(** * appinion: the ranking engine of [appinion/aggregator.py]

    A shallow embedding of the option model, the three selection functions
    ([best_rated], [cheapest], [best_value]) and [ServiceRepository], with the
    properties the specification states about them.

    Python data is modelled as the interpreter has it:
    - [float] is IEEE 754 binary64, Rocq's primitive [PrimFloat.float]; its
      comparisons are the IEEE ones, so [nan] is unordered and [-0.0 == 0.0];
    - [int] is unbounded, [Z];
    - [str] is [string], read as the UTF-8 bytes of the text: equality is
      byte equality and the code-point order Python sorts by is the byte order;
    - [Optional[X]] is [option X];
    - a raised exception is the [Raise] case of [result];
    - list and dict objects that the repository owns live in a heap of
      objects, addressed by location, so that aliasing can be told apart from
      copying.

    Floats are compared by value. (Inside a tuple comparison CPython takes an
    object to be equal to itself, which differs from [==] only when two keys
    hold one and the same [nan] object; the part on float objects that
    options share models [max] and [min] with that.) An iterable argument is
    the list of its items. *)

From Stdlib Require Import ZArith Floats Ascii String Sorted Permutation.
From stdpp Require Import gmap strings list fin_maps.
From stdpp Require Import pretty.

Set Warnings "-inexact-float".

(** ** Exceptions *)

Inductive exn : Set :=
  | ZeroDivisionError
  | OverflowError
  | TypeError
  | ValueError.

Inductive result (A : Type) : Type :=
  | Ok (a : A)
  | Raise (e : exn).
Arguments Ok {A} a.
Arguments Raise {A} e.

Definition rbind {A B} (m : result A) (k : A → result B) : result B :=
  match m with
  | Ok a => k a
  | Raise e => Raise e
  end.

Global Instance result_ret : MRet result := λ A a, Ok a.
Global Instance result_bind : MBind result := λ A B k m, rbind m k.

(** ** Rich comparison

    [py_eq] is [==] and [py_lt] is [<]. For [float], [int] and tuples of
    them, [a > b] is the reflected [b < a], and [a <= b] holds exactly when
    [a < b] or [a == b]. *)

Class PyOrd (K : Type) := {
  py_eq : K → K → bool;
  py_lt : K → K → bool;
  (* the values on which [<] and [==] are total: everything but [nan] *)
  py_ok : K → bool
}.

Definition py_gt {K} `{PyOrd K} (a b : K) : bool := py_lt b a.
Definition py_le {K} `{PyOrd K} (a b : K) : bool := py_lt a b || py_eq a b.

Global Instance float_ord : PyOrd float := {|
  py_eq := PrimFloat.eqb;
  py_lt := PrimFloat.ltb;
  py_ok := λ x, negb (PrimFloat.is_nan x)
|}.

Global Instance int_ord : PyOrd Z := {|
  py_eq := Z.eqb;
  py_lt := Z.ltb;
  py_ok := λ _, true
|}.

(** Tuples compare lexicographically: the first position at which the two
    are not [==] decides. A triple [(a, b, c)] is the pair [((a, b), c)]. *)
Global Instance tuple_ord {A B} `{PyOrd A} `{PyOrd B} : PyOrd (A * B) := {|
  py_eq := λ x y, py_eq x.1 y.1 && py_eq x.2 y.2;
  py_lt := λ x y, if py_eq x.1 y.1 then py_lt x.2 y.2 else py_lt x.1 y.1;
  py_ok := λ x, py_ok x.1 && py_ok x.2
|}.

(** ** Builtins: [max], [min], [sorted] *)

Section builtins.
Context {A K : Type} `{PyOrd K}.

(** [min] and [max] are one loop: the first item is the current pick; a
    later item replaces it when [op val pickval] holds, where [op] is [<]
    for [min] and [>] for [max]. The key is computed once per item, in
    order, and an exception it raises ends the call. *)
Fixpoint min_max_loop (op : K → K → bool) (key : A → result K)
    (items : list A) (maxitem : A) (maxval : K) : result A :=
  match items with
  | [] => Ok maxitem
  | item :: rest =>
      val ← key item;
      if op val maxval then min_max_loop op key rest item val
      else min_max_loop op key rest maxitem maxval
  end.

Definition min_max (op : K → K → bool) (key : A → result K)
    (items : list A) : result A :=
  match items with
  | [] => Raise ValueError
  | item :: rest => val ← key item; min_max_loop op key rest item val
  end.

Definition builtin_max := min_max py_gt.
Definition builtin_min := min_max py_lt.

(** [sorted(items, key=key)] is a stable sort that only asks [<] of two
    keys. It is modelled by stable insertion: whenever [<] orders the keys
    (no [nan] among them) every stable sort returns this same list. With a
    [nan] among the keys the list CPython returns depends on the steps of
    its algorithm; of such inputs only what holds of every reordering is
    stated. *)
Fixpoint insert_by (key : A → K) (x : A) (l : list A) : list A :=
  match l with
  | [] => [x]
  | y :: l' =>
      if py_lt (key y) (key x) then y :: insert_by key x l'
      else x :: y :: l'
  end.

Definition sorted (items : list A) (key : A → K) : list A :=
  foldr (insert_by key) [] items.

(** The pick of the loop over keys that never raise. *)
Definition pick (op : K → K → bool) (k : A → K) (items : list A) (m : A) : A :=
  fold_left (λ m x, if op (k x) (k m) then x else m) items m.

(** What the specification's words mean. *)
Definition is_greatest (k : A → K) (l : list A) (m : A) : Prop :=
  ∀ x, x ∈ l → py_le (k x) (k m) = true.
Definition is_least (k : A → K) (l : list A) (m : A) : Prop :=
  ∀ x, x ∈ l → py_le (k m) (k x) = true.
Definition first_greatest (k : A → K) (l : list A) (m : A) : Prop :=
  ∃ l1 l2, l = l1 ++ m :: l2 ∧ is_greatest k l m ∧ ∀ x, x ∈ l1 → ¬ is_greatest k l x.
Definition first_least (k : A → K) (l : list A) (m : A) : Prop :=
  ∃ l1 l2, l = l1 ++ m :: l2 ∧ is_least k l m ∧ ∀ x, x ∈ l1 → ¬ is_least k l x.

Definition keys_ok (k : A → K) (l : list A) : Prop :=
  ∀ x, x ∈ l → py_ok (k x) = true.

(** Equal keys keep their input order. *)
Definition stable (k : A → K) (input output : list A) : Prop :=
  ∀ v : K, filter (λ y, py_eq (k y) v = true) output
         = filter (λ y, py_eq (k y) v = true) input.
End builtins.

Global Instance str_ord : PyOrd string := {|
  py_eq := String.eqb;
  py_lt := String.ltb;
  py_ok := λ _, true
|}.

(** ** Arithmetic *)

Definition int_to_sf (z : Z) : spec_float :=
  match z with
  | Z0 => S754_zero false
  | Zpos p => S754_finite false p 0
  | Zneg p => S754_finite true p 0
  end.

(** [a / b] on two [int]s: the quotient rounded once to the nearest float,
    [OverflowError] when that float would be infinite. *)
Definition int_truediv (a b : Z) : result float :=
  if (b =? 0)%Z then Raise ZeroDivisionError
  else match SFdiv prec emax (int_to_sf a) (int_to_sf b) with
       | S754_infinity _ => Raise OverflowError
       | q => Ok (SF2Prim q)
       end.

(** [a / b] on two [float]s. *)
Definition float_truediv (a b : float) : result float :=
  if PrimFloat.eqb b 0 then Raise ZeroDivisionError else Ok (a / b)%float.

(** ** The option model *)

Record ServiceOption : Type := {
  service : string;
  provider : string;
  rating : float;
  review_count : Z;
  price : option float;
  currency : option string;
  pricing_unit : option string;
  link : option string;
  notes : option string
}.

Definition display_name (self : ServiceOption) : string :=
  provider self +:+ " (" +:+ service self +:+ ")".

(** ** Selection functions *)

(** [iterable = list(options)] is the list of the items. *)
Definition _best_option {K} `{PyOrd K} (options : list ServiceOption)
    (key : ServiceOption → result K) : result (option ServiceOption) :=
  let iterable := options in
  match iterable with
  | [] => Ok None
  | _ => m ← builtin_max key iterable; Ok (Some m)
  end.

Definition best_rated_key (option : ServiceOption) : float * Z * float :=
  (rating option,
   review_count option,
   match price option with
   | Some p => (- p)%float
   | None => neg_infinity
   end).

Definition best_rated (options : list ServiceOption) : result (option ServiceOption) :=
  _best_option options (λ option, Ok (best_rated_key option)).

(** [option.price is not None] *)
Definition price_known (option : ServiceOption) : bool :=
  match price option with Some _ => true | None => false end.

(** The key is only ever built for options that passed [price_known]; on an
    option without a price, comparing its [None] would be a [TypeError]. *)
Definition cheapest_key (option : ServiceOption) : result (float * float * Z) :=
  match price option with
  | Some p => Ok (p, (- rating option)%float, (- review_count option)%Z)
  | None => Raise TypeError
  end.

Definition cheapest (options : list ServiceOption) : result (option ServiceOption) :=
  let priced_options := filter (λ option, price_known option) options in
  match priced_options with
  | [] => Ok None
  | _ => m ← builtin_min cheapest_key priced_options; Ok (Some m)
  end.

(** [option.price is not None and option.price > 0] *)
Definition price_positive (option : ServiceOption) : bool :=
  match price option with Some p => py_gt p 0%float | None => false end.

Definition value (option : ServiceOption) : result float :=
  x ← int_truediv (review_count option) 100;
  let engagement_factor := (1 + x)%float in
  match price option with
  | Some p => float_truediv (rating option * engagement_factor)%float p
  | None => Raise TypeError
  end.

Definition best_value_key (option : ServiceOption) : result (float * float * Z) :=
  v ← value option; Ok (v, rating option, review_count option).

Definition best_value (options : list ServiceOption) : result (option ServiceOption) :=
  let priced_options := filter (λ option, price_positive option) options in
  match priced_options with
  | [] => best_rated options
  | _ => _best_option priced_options best_value_key
  end.

(** ** The heap of list and dict objects *)

Definition loc := positive.

Inductive object : Type :=
  | ListObj (items : list ServiceOption)
  | StrListObj (items : list string)
  | DictObj (d : gmap string loc).

Abbreviation heap := (gmap loc object).

(** A computation that reads and writes the heap and may raise. *)
Definition M (A : Type) : Type := heap → result A * heap.

Global Instance M_ret : MRet M := λ A a h, (Ok a, h).
Global Instance M_bind : MBind M := λ A B k m h,
  match m h with
  | (Ok a, h') => k a h'
  | (Raise e, h') => (Raise e, h')
  end.

(** A new object, at a location no object has. *)
Definition alloc (o : object) : M loc := λ h,
  let l := fresh (dom h) in (Ok l, <[l := o]> h).

(** Iterating a list object yields its items. *)
Definition iter_list (l : loc) : M (list ServiceOption) := λ h,
  match h !! l with
  | Some (ListObj items) => (Ok items, h)
  | _ => (Raise TypeError, h)
  end.

(** [l.append(x)] *)
Definition list_append (l : loc) (x : ServiceOption) : M () := λ h,
  match h !! l with
  | Some (ListObj items) => (Ok (), <[l := ListObj (items ++ [x])]> h)
  | _ => (Raise TypeError, h)
  end.

(** [d.setdefault(k, default)] *)
Definition dict_setdefault (d : loc) (k : string) (default : loc) : M loc := λ h,
  match h !! d with
  | Some (DictObj m) =>
      match m !! k with
      | Some v => (Ok v, h)
      | None => (Ok default, <[d := DictObj (<[k := default]> m)]> h)
      end
  | _ => (Raise TypeError, h)
  end.

(** [d.get(k, default)] *)
Definition dict_get (d : loc) (k : string) (default : loc) : M loc := λ h,
  match h !! d with
  | Some (DictObj m) =>
      match m !! k with
      | Some v => (Ok v, h)
      | None => (Ok default, h)
      end
  | _ => (Raise TypeError, h)
  end.

(** [list(iterable)]: a new list object with the same items. *)
Definition py_list (iterable : loc) : M loc :=
  items ← iter_list iterable; alloc (ListObj items).

(** [for x in items: body(x)] *)
Fixpoint for_each {A} (items : list A) (body : A → M ()) : M () :=
  match items with
  | [] => mret ()
  | x :: rest => _ ← body x; for_each rest body
  end.

(** ** The repository *)

(** [str.strip] and [str.lower] belong to the interpreter, with its Unicode
    tables; the repository is modelled over any pair of them. *)
Class StrMethods := {
  str_strip : string → string;
  str_lower : string → string
}.

Definition _normalize_service_name `{StrMethods} (service : string) : string :=
  str_lower (str_strip service).

Record ServiceRepository : Type := {
  _options : loc;
  _index : loc
}.

(** The body of the loop of [__init__]: the [[]] handed to [setdefault] is
    a new list each time, kept only when the key is new. *)
Definition index_option `{StrMethods} (index : loc) (option : ServiceOption) : M () :=
  let normalized := _normalize_service_name (service option) in
  empty ← alloc (ListObj []);
  bucket ← dict_setdefault index normalized empty;
  list_append bucket option.

(** [__init__]. The loop runs over the items of the snapshot; its body
    appends to bucket lists only, never to the list being iterated. *)
Definition ServiceRepository_init `{StrMethods} (options : loc) : M ServiceRepository :=
  opts ← py_list options;
  index ← alloc (DictObj ∅);
  items ← iter_list opts;
  _ ← for_each items (index_option index);
  mret {| _options := opts; _index := index |}.

Definition services (self : ServiceRepository) : M loc :=
  items ← iter_list (_options self);
  let distinct : gset string := list_to_set (service <$> items) in
  alloc (StrListObj (sorted (elements distinct) id)).

Definition for_service_key (option : ServiceOption) : float * Z * float :=
  ((- rating option)%float,
   (- review_count option)%Z,
   match price option with
   | Some p => p
   | None => infinity
   end).

Definition for_service `{StrMethods} (self : ServiceRepository) (service : string) : M loc :=
  let normalized := _normalize_service_name service in
  empty ← alloc (ListObj []);
  bucket ← dict_get (_index self) normalized empty;
  items ← iter_list bucket;
  alloc (ListObj (sorted items for_service_key)).

(** A call [f(options)] of a function that only iterates its argument, as
    the three selection functions do. *)
Definition call_on_list {A} (f : list ServiceOption → result A) (options : loc) : M A :=
  items ← iter_list options; λ h, (f items, h).

(** [str.strip] and [str.lower] on ASCII text. *)
Definition ascii_isspace (c : ascii) : bool :=
  let n := N_of_ascii c in
  ((9 <=? n) && (n <=? 13) || (28 <=? n) && (n <=? 32))%N.

Definition ascii_tolower (c : ascii) : ascii :=
  let n := N_of_ascii c in
  if ((65 <=? n) && (n <=? 90))%N then ascii_of_N (n + 32) else c.

Fixpoint lstrip (s : string) : string :=
  match s with
  | String c s' => if ascii_isspace c then lstrip s' else s
  | EmptyString => EmptyString
  end.

Definition ascii_strip (s : string) : string :=
  String.rev (lstrip (String.rev (lstrip s))).

Fixpoint ascii_lower (s : string) : string :=
  match s with
  | String c s' => String (ascii_tolower c) (ascii_lower s')
  | EmptyString => EmptyString
  end.

Definition ascii_methods : StrMethods :=
  {| str_strip := ascii_strip; str_lower := ascii_lower |}.

(** ** Float objects that options share

    The comparison of two tuples takes an object to be equal to itself
    before it asks [==]: of two items it asks [a is b or a == b]. For a
    float this shows on [nan] alone, which is not [==] to itself: two keys
    that hold one and the same [nan] object agree at that position, two keys
    that hold two [nan] objects do not. (The options that [json] reads from
    one file share one object for every [NaN] of the file.) Here the
    [rating] and the [price] object of an option are told apart by their
    location. The other items of a key are made for it (a negation,
    [float("-inf")]) or are [int]s, and compare as values. *)

Record float_object : Type := {
  float_value : float;
  float_at : loc
}.

(** [a is b or a == b]. One object has one value, so [is] adds to [==] only
    where both values are [nan]. *)
Definition same_or_eq (a b : float_object) : bool :=
  PrimFloat.is_nan (float_value a) && PrimFloat.is_nan (float_value b)
    && bool_decide (float_at a = float_at b)
  || PrimFloat.eqb (float_value a) (float_value b).

(** A float object as an item of a tuple: [py_eq] is what the comparison of
    tuples asks of two items, [py_lt] is [<]. *)
Global Instance float_object_ord : PyOrd float_object := {|
  py_eq := same_or_eq;
  py_lt := λ a b, PrimFloat.ltb (float_value a) (float_value b);
  py_ok := λ a, negb (PrimFloat.is_nan (float_value a))
|}.

(** An option as an object: the option, and where its [rating] and its
    [price] object are. *)
Record OptionObject : Type := {
  option_value : ServiceOption;
  rating_at : loc;
  price_at : loc
}.

Definition rating_object (option : OptionObject) : float_object :=
  {| float_value := rating (option_value option); float_at := rating_at option |}.

Definition _best_option_objects {K} `{PyOrd K} (options : list OptionObject)
    (key : OptionObject → result K) : result (option OptionObject) :=
  let iterable := options in
  match iterable with
  | [] => Ok None
  | _ => m ← builtin_max key iterable; Ok (Some m)
  end.

Definition best_rated_key_objects (option : OptionObject)
    : float_object * Z * float :=
  (rating_object option,
   review_count (option_value option),
   match price (option_value option) with
   | Some p => (- p)%float
   | None => neg_infinity
   end).

Definition best_rated_objects (options : list OptionObject)
    : result (option OptionObject) :=
  _best_option_objects options (λ option, Ok (best_rated_key_objects option)).

Definition cheapest_key_objects (option : OptionObject)
    : result (float_object * float * Z) :=
  match price (option_value option) with
  | Some p =>
      Ok ({| float_value := p; float_at := price_at option |},
          (- rating (option_value option))%float,
          (- review_count (option_value option))%Z)
  | None => Raise TypeError
  end.

Definition cheapest_objects (options : list OptionObject)
    : result (option OptionObject) :=
  let priced_options :=
    filter (λ option, price_known (option_value option)) options in
  match priced_options with
  | [] => Ok None
  | _ => m ← builtin_min cheapest_key_objects priced_options; Ok (Some m)
  end.

(** * [appinion/google_places.py]

    The module talks to the Places Text Search service. A payload is
    modelled at the types of that service's responses: a place's [name],
    [place_id] and [formatted_address] are strings, its [rating] and
    [user_ratings_total] are JSON numbers ([int] or [float], [nan] and the
    infinities included, as [json] decodes them), its [price_level] is an
    [int]; a key that is absent or [null] is [None] (for [name], which has
    a default, [None] is the absent key). The service itself is a script:
    the responses it gives, in order. A run that has used up the script and
    asks again is [Pending]. *)

(** ** Conversions of the interpreter *)

(** [float(z)] on an [int]: rounded once to the nearest float. *)
Definition float_of_int (z : Z) : result float :=
  match binary_normalize prec emax z 0 false with
  | S754_infinity _ => Raise OverflowError
  | x => Ok (SF2Prim x)
  end.

(** [int(x)] on a [float]: truncation toward zero. *)
Definition int_of_float (x : float) : result Z :=
  match Prim2SF x with
  | S754_zero _ => Ok 0%Z
  | S754_infinity _ => Raise OverflowError
  | S754_nan => Raise ValueError
  | S754_finite s m e =>
      let a := Z.shiftl (Z.pos m) e in
      Ok (if s then - a else a)%Z
  end.

(** The default of [sys.get_int_max_str_digits()]. *)
Definition int_max_str_digits : nat := 4300.

(** [f"{z}"] on an [int]: its decimal digits; CPython refuses to convert an
    [int] of more than [int_max_str_digits] digits. *)
Definition format_int (z : Z) : result string :=
  let text := pretty (Z.abs z) in
  if Nat.ltb int_max_str_digits (String.length text) then Raise ValueError
  else Ok (pretty z).

(** The truth value of an [Optional[str]]. *)
Definition truthy (s : option string) : bool :=
  match s with
  | Some (String _ _) => true
  | _ => false
  end.

Module google_places.

Definition PLACES_TEXTSEARCH_URL : string :=
  "https://maps.googleapis.com/maps/api/place/textsearch/json".

Definition PRICE_LEVEL_TO_AMOUNT : gmap Z float :=
  {[ 0 := 1%float; 1 := 15%float; 2 := 40%float; 3 := 75%float;
     4 := 150%float ]}%Z.

Definition price_from_level (price_level : option Z) : option float :=
  match price_level with
  | None => None
  | Some price_level => PRICE_LEVEL_TO_AMOUNT !! price_level
  end.

Inductive number : Type :=
  | Int (z : Z)
  | Float (x : float).

Record Place : Type := {
  name : option string;
  rating : option number;
  user_ratings_total : option number;
  price_level : option Z;
  place_id : option string;
  formatted_address : option string
}.

Definition build_notes (place : Place) : result (option string) :=
  let components :=
    if truthy (formatted_address place)
    then [default "" (formatted_address place)] else [] in
  components ←
    match price_level place with
    | Some price_level =>
        text ← format_int price_level;
        mret (components ++ ["Nivel de precio Google: " +:+ text])
    | None => mret components
    end;
  mret (match components with
        | [] => None
        | _ => Some (String.concat " · " components)
        end).

Record Payload : Type := {
  status : option string;
  error_message : option string;
  results : list Place;
  next_page_token : option string
}.

(** What [session.get], [raise_for_status] and [json] give for one request:
    an exception of theirs, or the decoded payload. *)
Inductive Response : Type :=
  | RequestException (e : string)
  | Json (payload : Payload).

Record Params : Type := {
  key : string;
  language : string;
  pagetoken : option string;
  query : option string
}.

(** What a run does to the outside: [session.get] and [time.sleep]. *)
Inductive event : Type :=
  | Get (url : string) (params : Params) (timeout : Z)
  | Sleep (seconds : Z).

(** What the module raises: an exception of a conversion, its own
    [RuntimeError], or the exception of a request. *)
Inductive error : Type :=
  | Builtin (e : exn)
  | RuntimeError (message : string)
  | Requests (e : string).

(** How a run on a script ends: it returns, it raises, or it has asked
    for a page the script does not hold. *)
Inductive outcome : Type :=
  | Return (results : list ServiceOption)
  | Throw (e : error)
  | Pending.

(** [float(x)] and [int(x)] on a JSON number. *)
Definition float_ (x : number) : result float :=
  match x with
  | Int z => float_of_int z
  | Float x => Ok x
  end.

Definition int_ (x : number) : result Z :=
  match x with
  | Int z => Ok z
  | Float x => int_of_float x
  end.

(** The [ServiceOption] built from a place that has a rating and a review
    count. *)
Definition make_option (service currency : string) (place : Place)
    (rating review_count : number) : result ServiceOption :=
  let price := price_from_level (price_level place) in
  let provider := default "Proveedor sin nombre" (name place) in
  rating ← float_ rating;
  review_count ← int_ review_count;
  let currency := if price is Some _ then Some currency else None in
  let pricing_unit :=
    if price is Some _ then Some "aprox. (nivel Google)" else None in
  let link :=
    if truthy (place_id place)
    then Some ("https://www.google.com/maps/place/?q=place_id:"
               +:+ default "" (place_id place))
    else None in
  notes ← build_notes place;
  mret (Build_ServiceOption service provider rating review_count price
          currency pricing_unit link notes).

(** The [for] loop over the places of one payload; [results] is the list
    built so far. *)
Fixpoint for_places (service currency : string) (max_results : Z)
    (places : list Place) (results : list ServiceOption)
    : result (list ServiceOption) :=
  match places with
  | [] => Ok results
  | place :: places =>
      match rating place, user_ratings_total place with
      | Some rating, Some review_count =>
          option ← make_option service currency place rating review_count;
          let results := results ++ [option] in
          if (max_results <=? Z.of_nat (length results))%Z then Ok results
          else for_places service currency max_results places results
      | _, _ => for_places service currency max_results places results
      end
  end.

(** [payload.get("error_message") or status or "Error desconocido"] *)
Definition error_text (payload : Payload) : string :=
  if truthy (error_message payload) then default "" (error_message payload)
  else if truthy (status payload) then default "" (status payload)
  else "Error desconocido".

(** The [while] loop, on the responses still to come. *)
Fixpoint while_loop (service query api_key language : string)
    (max_results : Z) (currency : string) (script : list Response)
    (results : list ServiceOption) (next_page_token : option string)
    : outcome * list event :=
  if (Z.of_nat (length results) <? max_results)%Z then
    let params :=
      if truthy next_page_token
      then {| key := api_key; language := language;
              pagetoken := next_page_token; query := None |}
      else {| key := api_key; language := language;
              pagetoken := None; query := Some query |} in
    let get := Get PLACES_TEXTSEARCH_URL params 10 in
    match script with
    | [] => (Pending, [get])
    | RequestException e :: _ => (Throw (Requests e), [get])
    | Json payload :: script =>
        if decide (status payload = Some "ZERO_RESULTS")
        then (Return results, [get])
        else if decide (status payload ≠ Some "OK")
        then (Throw (RuntimeError ("Error de la API de Google Places: "
                                   +:+ error_text payload)), [get])
        else
          match for_places service currency max_results (google_places.results payload)
                  results with
          | Raise e => (Throw (Builtin e), [get])
          | Ok results =>
              if truthy (google_places.next_page_token payload)
              then
                let '(o, trace) :=
                  while_loop service query api_key language max_results
                    currency script results
                    (google_places.next_page_token payload) in
                (o, get :: Sleep 2 :: trace)
              else (Return results, [get])
          end
    end
  else (Return results, []).

(** The keyword arguments are all given; the result is how the run ends
    and what it did, in order. *)
Definition fetch_service_options (service : string) (location : option string)
    (api_key language : string) (max_results : Z) (currency : string)
    (script : list Response) : outcome * list event :=
  let query :=
    if truthy location then service +:+ " en " +:+ default "" location
    else service in
  while_loop service query api_key language max_results currency script [] None.

End google_places.

(** * [appinion/cli.py]

    The text functions of the command line. Format specifications are
    those of the interpreter: [format_fixed] is [format(x, ".nf")], with the
    [","] option when [grouping] is set. *)

Definition newline : string := String "010"%char "".

(** [num / den] rounded to the nearest integer, ties to even; [num] is not
    negative and [den] is positive. *)
Definition round_half_even (num den : Z) : Z :=
  let q := (num / den)%Z in
  match (2 * (num mod den) ?= den)%Z with
  | Lt => q
  | Gt => (q + 1)%Z
  | Eq => if Z.even q then q else (q + 1)%Z
  end.

(** [m * 2 ^ e * 10 ^ digits], rounded to an integer. *)
Definition scaled (digits : nat) (m : positive) (e : Z) : Z :=
  let num := (Z.pos m * 10 ^ Z.of_nat digits)%Z in
  if (0 <=? e)%Z then (num * 2 ^ e)%Z else round_half_even num (2 ^ (- e))%Z.

(** A comma between groups of three digits, on the reversed digits; [k]
    counts the digits of the group being written. *)
Fixpoint group_digits (reversed : string) (k : nat) : string :=
  match reversed with
  | EmptyString => EmptyString
  | String c rest =>
      match k with
      | 3 => String "," (String c (group_digits rest 1))
      | _ => String c (group_digits rest (S k))
      end
  end.

Definition zfill (width : nat) (s : string) : string :=
  String.concat "" (replicate (width - String.length s) "0") +:+ s.

(** The digits of [n], a number scaled by [10 ^ digits]: the integer part,
    grouped or not, and the fraction after a point. *)
Definition fixed_digits (digits : nat) (grouping : bool) (n : Z) : string :=
  let text := zfill (S digits) (pretty n) in
  let split := String.length text - digits in
  let integer := substring 0 split text in
  let fraction := substring split digits text in
  (if grouping then String.rev (group_digits (String.rev integer) 0)
   else integer)
  +:+ (if digits is 0 then "" else "." +:+ fraction).

Definition format_fixed (digits : nat) (grouping : bool) (x : float) : string :=
  match Prim2SF x with
  | S754_nan => "nan"
  | S754_infinity s => if s then "-inf" else "inf"
  | S754_zero s => (if s then "-" else "") +:+ fixed_digits digits grouping 0
  | S754_finite s m e =>
      (if s then "-" else "") +:+ fixed_digits digits grouping (scaled digits m e)
  end.

(** [s.replace(old, new)] for one-character [old] and [new]. *)
Fixpoint replace_char (old new : ascii) (s : string) : string :=
  match s with
  | EmptyString => EmptyString
  | String c rest =>
      String (if Ascii.eqb c old then new else c) (replace_char old new rest)
  end.

(** [options[:stop]] *)
Definition slice_until {A} (options : list A) (stop : Z) : list A :=
  if (stop <? 0)%Z
  then take (Z.to_nat (Z.of_nat (length options) + stop)) options
  else take (Z.to_nat stop) options.

Section cli.
(** [str.upper] is the interpreter's. *)
Context (str_upper : string → string).

Definition symbol_map : gmap string string :=
  {[ "EUR" := "€"; "USD" := "$"; "MXN" := "$"; "COP" := "$" ]}.

Definition format_currency (price : float) (currency : option string) : string :=
  if negb (truthy currency)
  then replace_char "," "." (format_fixed 2 true price)
  else
    let code := str_upper (default "" currency) in
    let symbol := default code (symbol_map !! code) in
    replace_char "," "." (format_fixed 2 true price +:+ " " +:+ symbol).

Definition describe_price (option : ServiceOption) : Datatypes.option string :=
  match price option with
  | None => None
  | Some price =>
      let base := format_currency price (currency option) in
      if truthy (pricing_unit option)
      then Some (base +:+ " " +:+ default "" (pricing_unit option))
      else Some base
  end.



(** The lines of the ranking for the options from position [index] on. *)
Fixpoint ranking_lines (options : list ServiceOption) (index : Z)
    : result (list string) :=
  match options with
  | [] => Ok []
  | option :: options =>
      let price_text :=
        if truthy (describe_price option)
        then default "" (describe_price option) else "Precio no disponible" in
      position ← format_int index;
      review_count ← format_int (review_count option);
      let lines :=
        ["  " +:+ position +:+ ". " +:+ provider option +:+ ": "
         +:+ format_fixed 1 false (rating option) +:+ " ⭐ (" +:+ review_count
         +:+ " reseñas) - " +:+ price_text]
        ++ (if truthy (notes option)
            then ["     Nota: " +:+ default "" (notes option)] else [])
        ++ (if truthy (link option)
            then ["     Ficha: " +:+ default "" (link option)] else []) in
      rest ← ranking_lines options (index + 1);
      mret (lines ++ rest)
  end.

Definition render_ranking (options : list ServiceOption) (limit : option Z)
    : result string :=
  match options with
  | [] => Ok ""
  | _ =>
      let options :=
        match limit with
        | Some limit => if (limit =? 0)%Z then options else slice_until options limit
        | None => options
        end in
      lines ← ranking_lines options 1;
      mret (String.concat newline ((newline +:+ "Ranking detallado:") :: lines))
  end.

End cli.

(** [str.upper] on ASCII text. *)
Definition ascii_toupper (c : ascii) : ascii :=
  let n := N_of_ascii c in
  if ((97 <=? n) && (n <=? 122))%N then ascii_of_N (n - 32) else c.

Fixpoint ascii_upper (s : string) : string :=
  match s with
  | String c s' => String (ascii_toupper c) (ascii_upper s')
  | EmptyString => EmptyString
  end.

(** * Properties *)

(** What holds of [<] and [==] on every value, [nan] included, and what
    holds on the values that are [py_ok]. *)
Class PyOrdLaws (K : Type) `{PyOrd K} : Prop := {
  py_eq_sym : ∀ a b : K, py_eq a b = py_eq b a;
  py_eq_trans : ∀ a b c : K, py_eq a b = true → py_eq b c = true → py_eq a c = true;
  py_lt_not_eq : ∀ a b : K, py_lt a b = true → py_eq a b = false;
  py_lt_asym : ∀ a b : K, py_lt a b = true → py_lt b a = false;
  py_lt_trans : ∀ a b c : K, py_lt a b = true → py_lt b c = true → py_lt a c = true;
  py_lt_eq_trans : ∀ a b c : K, py_lt a b = true → py_eq b c = true → py_lt a c = true;
  py_eq_lt_trans : ∀ a b c : K, py_eq a b = true → py_lt b c = true → py_lt a c = true;
  py_eq_ok : ∀ a b : K, py_eq a b = true → py_ok a = true ∧ py_ok b = true;
  py_trichotomy : ∀ a b : K, py_ok a = true → py_ok b = true →
    py_lt a b = true ∨ py_eq a b = true ∨ py_lt b a = true
}.

(** ** The order of binary64 values *)

Section spec_float_order.

Definition sf_nan (x : spec_float) : bool :=
  match x with S754_nan => true | _ => false end.

(** [SFcompare] orders the values that are not [nan] by rank: sign
    class first, then exponent, then mantissa. *)
Definition sf_rank (x : spec_float) : Z * Z * Z :=
  match x with
  | S754_nan => (0, 0, 0)
  | S754_infinity true => (-2, 0, 0)
  | S754_infinity false => (2, 0, 0)
  | S754_zero _ => (0, 0, 0)
  | S754_finite true m e => (-1, - e, - Z.pos m)
  | S754_finite false m e => (1, e, Z.pos m)
  end%Z.

Definition lex3 (a b : Z * Z * Z) : comparison :=
  match (a.1.1 ?= b.1.1)%Z with
  | Eq => match (a.1.2 ?= b.1.2)%Z with
          | Eq => (a.2 ?= b.2)%Z
          | c => c
          end
  | c => c
  end.

Lemma SFcompare_rank x y :
  sf_nan x = false → sf_nan y = false →
  SFcompare x y = Some (lex3 (sf_rank x) (sf_rank y)).
Proof.
  destruct x as [sx|sx| |sx mx ex], y as [sy|sy| |sy my ey];
    try discriminate; intros _ _; simpl;
    try (destruct sx); try (destruct sy); try reflexivity;
    unfold lex3; simpl; change (Pos.compare_cont Eq mx my) with (mx ?= my)%positive.
  - rewrite (Z.compare_opp ex ey), (Z.compare_antisym ex ey).
    destruct (ex ?= ey)%Z; reflexivity.
Qed.

Lemma SFcompare_nan x y :
  sf_nan x = true ∨ sf_nan y = true → SFcompare x y = None.
Proof.
  destruct x as [sx|sx| |sx mx ex], y as [sy|sy| |sy my ey]; simpl;
    intros [?|?]; (discriminate || reflexivity).
Qed.

Lemma lex3_Lt a b : lex3 a b = Lt ↔
  (a.1.1 < b.1.1 ∨ a.1.1 = b.1.1 ∧ (a.1.2 < b.1.2 ∨ a.1.2 = b.1.2 ∧ a.2 < b.2))%Z.
Proof.
  unfold lex3.
  destruct (Z.compare_spec a.1.1 b.1.1), (Z.compare_spec a.1.2 b.1.2),
    (Z.compare_spec a.2 b.2); split; intros; (discriminate || lia || reflexivity).
Qed.

Lemma lex3_Eq a b : lex3 a b = Eq ↔ a = b.
Proof.
  unfold lex3. destruct a as [[a1 a2] a3], b as [[b1 b2] b3]; simpl.
  destruct (Z.compare_spec a1 b1), (Z.compare_spec a2 b2),
    (Z.compare_spec a3 b3); split; intros E;
    try discriminate; try reflexivity; try (inversion E; lia); subst; reflexivity.
Qed.

Lemma lex3_swap a b : lex3 b a = CompOpp (lex3 a b).
Proof.
  unfold lex3.
  rewrite (Z.compare_antisym a.1.1 b.1.1), (Z.compare_antisym a.1.2 b.1.2),
    (Z.compare_antisym a.2 b.2).
  destruct (a.1.1 ?= b.1.1)%Z, (a.1.2 ?= b.1.2)%Z; reflexivity.
Qed.

End spec_float_order.

Section float_order.

Implicit Types x y z : float.

Lemma float_is_nan x : PrimFloat.is_nan x = sf_nan (Prim2SF x).
Proof.
  unfold PrimFloat.is_nan. rewrite FloatAxioms.eqb_spec. unfold SFeqb.
  destruct (sf_nan (Prim2SF x)) eqn:E.
  - rewrite SFcompare_nan by auto. reflexivity.
  - rewrite SFcompare_rank by assumption.
    rewrite (proj2 (lex3_Eq _ _) eq_refl). reflexivity.
Qed.

Lemma float_eqb_rank x y :
  PrimFloat.eqb x y = true ↔
  PrimFloat.is_nan x = false ∧ PrimFloat.is_nan y = false ∧
  sf_rank (Prim2SF x) = sf_rank (Prim2SF y).
Proof.
  rewrite FloatAxioms.eqb_spec, !float_is_nan. unfold SFeqb.
  destruct (sf_nan (Prim2SF x)) eqn:Ex.
  { rewrite SFcompare_nan by auto. split; [done|]. by intros (? & _). }
  destruct (sf_nan (Prim2SF y)) eqn:Ey.
  { rewrite SFcompare_nan by auto. split; [done|]. by intros (_ & ? & _). }
  rewrite SFcompare_rank by assumption.
  destruct (lex3 _ _) eqn:E.
  - apply lex3_Eq in E. by repeat split.
  - split; [discriminate|]. intros (_ & _ & R). apply lex3_Eq in R. congruence.
  - split; [discriminate|]. intros (_ & _ & R). apply lex3_Eq in R. congruence.
Qed.

Lemma float_ltb_rank x y :
  PrimFloat.ltb x y = true ↔
  PrimFloat.is_nan x = false ∧ PrimFloat.is_nan y = false ∧
  lex3 (sf_rank (Prim2SF x)) (sf_rank (Prim2SF y)) = Lt.
Proof.
  rewrite FloatAxioms.ltb_spec, !float_is_nan. unfold SFltb.
  destruct (sf_nan (Prim2SF x)) eqn:Ex.
  { rewrite SFcompare_nan by auto. split; [done|]. by intros (? & _). }
  destruct (sf_nan (Prim2SF y)) eqn:Ey.
  { rewrite SFcompare_nan by auto. split; [done|]. by intros (_ & ? & _). }
  rewrite SFcompare_rank by assumption.
  destruct (lex3 _ _); split; try done; by intros (_ & _ & ?).
Qed.

Global Instance float_ord_laws : PyOrdLaws float.
Proof.
  split; simpl.
  - intros a b. apply eq_true_iff_eq. rewrite !float_eqb_rank.
    split; intros (? & ? & ?); by repeat split.
  - intros a b c. rewrite !float_eqb_rank.
    intros (? & ? & ?) (_ & ? & ?). repeat split; [done..|congruence].
  - intros a b. rewrite float_ltb_rank. intros (_ & _ & L).
    apply not_true_is_false. rewrite float_eqb_rank. intros (_ & _ & R).
    apply lex3_Eq in R. congruence.
  - intros a b. rewrite float_ltb_rank. intros (_ & _ & L).
    apply not_true_is_false. rewrite float_ltb_rank. intros (_ & _ & R).
    rewrite lex3_swap, L in R. discriminate.
  - intros a b c. rewrite !float_ltb_rank, !lex3_Lt.
    intros (? & ? & ?) (? & ? & ?). repeat split; try assumption. lia.
  - intros a b c. rewrite !float_ltb_rank, float_eqb_rank.
    intros (? & ? & ?) (? & ? & R). rewrite <- R. auto.
  - intros a b c. rewrite !float_ltb_rank, float_eqb_rank.
    intros (? & ? & R) (? & ? & ?). rewrite R. auto.
  - intros a b. rewrite float_eqb_rank. intros (-> & -> & _). auto.
  - intros a b Ha Hb. apply negb_true_iff in Ha, Hb.
    rewrite !float_ltb_rank, float_eqb_rank, Ha, Hb.
    rewrite (lex3_swap (sf_rank (Prim2SF a))).
    destruct (lex3 (sf_rank (Prim2SF a)) (sf_rank (Prim2SF b))) eqn:E; auto.
    apply lex3_Eq in E. auto.
Qed.

(** Negation reverses the order and keeps [nan]. *)
Lemma sf_rank_opp s :
  sf_rank (SFopp s) = ((- (sf_rank s).1.1)%Z, (- (sf_rank s).1.2)%Z, (- (sf_rank s).2)%Z).
Proof. destruct s as [[]|[]| |[] m e]; simpl; try reflexivity; f_equal; f_equal; lia. Qed.

Lemma float_opp_nan x : PrimFloat.is_nan (- x) = PrimFloat.is_nan x.
Proof. rewrite !float_is_nan, FloatAxioms.opp_spec. destruct (Prim2SF x); reflexivity. Qed.

Lemma float_opp_ltb x y : PrimFloat.ltb (- x) (- y) = PrimFloat.ltb y x.
Proof.
  apply eq_true_iff_eq. rewrite !float_ltb_rank, !float_opp_nan, !FloatAxioms.opp_spec.
  rewrite !lex3_Lt, !sf_rank_opp. simpl. split; intros (? & ? & ?); repeat split; auto; lia.
Qed.

Lemma float_opp_eqb x y : PrimFloat.eqb (- x) (- y) = PrimFloat.eqb x y.
Proof.
  apply eq_true_iff_eq. rewrite !float_eqb_rank, !float_opp_nan, !FloatAxioms.opp_spec.
  rewrite !sf_rank_opp.
  destruct (sf_rank (Prim2SF x)) as [[a1 a2] a3], (sf_rank (Prim2SF y)) as [[b1 b2] b3].
  simpl. split; intros (? & ? & E); repeat split; auto; inversion E; f_equal; try f_equal; lia.
Qed.

End float_order.

Global Instance int_ord_laws : PyOrdLaws Z.
Proof.
split; simpl; intros *;
  rewrite ?Z.eqb_eq, ?Z.ltb_lt, ?Z.eqb_neq, ?Z.ltb_ge; lia.
Qed.

Global Instance tuple_ord_laws {A B} `{PyOrdLaws A} `{PyOrdLaws B} :
PyOrdLaws (A * B).
Proof.
split; simpl.
- intros [a1 a2] [b1 b2]; simpl.
  by rewrite (py_eq_sym a1 b1), (py_eq_sym a2 b2).
- intros [a1 a2] [b1 b2] [c1 c2]; simpl. rewrite !andb_true_iff.
  intros [? ?] [? ?]. eauto using py_eq_trans.
- intros [a1 a2] [b1 b2]; simpl.
  destruct (py_eq a1 b1) eqn:E; simpl; [apply py_lt_not_eq | done].
- intros [a1 a2] [b1 b2]; simpl. rewrite (py_eq_sym b1 a1).
  destruct (py_eq a1 b1) eqn:E; apply py_lt_asym.
- intros [a1 a2] [b1 b2] [c1 c2]; simpl.
  destruct (py_eq a1 b1) eqn:E1, (py_eq b1 c1) eqn:E2; intros L1 L2.
  + rewrite (py_eq_trans _ _ _ E1 E2). eauto using py_lt_trans.
  + destruct (py_eq a1 c1) eqn:E3; [|eauto using py_eq_lt_trans].
    rewrite py_eq_sym in E1. rewrite (py_eq_trans _ _ _ E1 E3) in E2. done.
  + destruct (py_eq a1 c1) eqn:E3; [|eauto using py_lt_eq_trans].
    rewrite py_eq_sym in E2. rewrite (py_eq_trans _ _ _ E3 E2) in E1. done.
  + pose proof (py_lt_trans _ _ _ L1 L2) as L3.
    by rewrite (py_lt_not_eq _ _ L3).
- intros [a1 a2] [b1 b2] [c1 c2]; simpl. rewrite andb_true_iff.
  destruct (py_eq a1 b1) eqn:E1; intros L1 [E2 E3].
  + rewrite (py_eq_trans _ _ _ E1 E2). eauto using py_lt_eq_trans.
  + destruct (py_eq a1 c1) eqn:E4; [|eauto using py_lt_eq_trans].
    rewrite py_eq_sym in E2. rewrite (py_eq_trans _ _ _ E4 E2) in E1. done.
- intros [a1 a2] [b1 b2] [c1 c2]; simpl. rewrite andb_true_iff.
  destruct (py_eq b1 c1) eqn:E1; intros [E2 E3] L1.
  + rewrite (py_eq_trans _ _ _ E2 E1). eauto using py_eq_lt_trans.
  + destruct (py_eq a1 c1) eqn:E4; [|eauto using py_eq_lt_trans].
    rewrite py_eq_sym in E2. rewrite (py_eq_trans _ _ _ E2 E4) in E1. done.
- intros [a1 a2] [b1 b2]; simpl. rewrite !andb_true_iff.
  intros [E1 E2]. apply py_eq_ok in E1, E2. tauto.
- intros [a1 a2] [b1 b2]; simpl. rewrite !andb_true_iff.
  intros [Ha1 Ha2] [Hb1 Hb2]. rewrite (py_eq_sym b1 a1).
  destruct (py_trichotomy a1 b1 Ha1 Hb1) as [L|[E|L]].
  + rewrite (py_lt_not_eq _ _ L). auto.
  + rewrite E. destruct (py_trichotomy a2 b2 Ha2 Hb2) as [?|[?|?]]; auto.
  + rewrite (py_eq_sym a1 b1), (py_lt_not_eq _ _ L). auto.
Qed.

(** Consequences used below. *)
Section ord_facts.
Context {K : Type} `{PyOrdLaws K}.
Implicit Types a b c : K.

Lemma py_eq_refl a : py_ok a = true → py_eq a a = true.
Proof.
  intros Ha. destruct (py_trichotomy a a Ha Ha) as [L|[E|L]]; auto;
    by rewrite (py_lt_asym _ _ L) in L.
Qed.

Lemma py_le_refl a : py_ok a = true → py_le a a = true.
Proof. intros Ha. unfold py_le. rewrite py_eq_refl by done. apply orb_true_r. Qed.

Lemma py_le_trans a b c : py_le a b = true → py_le b c = true → py_le a c = true.
Proof.
  unfold py_le. rewrite !orb_true_iff.
  intros [?|?] [?|?]; eauto using py_lt_trans, py_lt_eq_trans, py_eq_lt_trans, py_eq_trans.
Qed.

(** On ordered values, [not (b < a)] is [a <= b]. *)
Lemma py_not_lt_le a b :
  py_ok a = true → py_ok b = true → py_lt b a = false → py_le a b = true.
Proof.
  intros Ha Hb L. unfold py_le.
  destruct (py_trichotomy a b Ha Hb) as [->|[->|L']]; auto using orb_true_r.
  congruence.
Qed.

Lemma py_le_not_lt a b : py_le a b = true → py_lt b a = false.
Proof.
  unfold py_le. rewrite orb_true_iff. intros [L|E].
  - by apply py_lt_asym.
  - apply not_true_is_false. intros L. apply py_lt_not_eq in L.
    rewrite py_eq_sym in L. congruence.
Qed.

Lemma py_lt_le a b : py_lt a b = true → py_le a b = true.
Proof. unfold py_le. by intros ->. Qed.

Lemma py_lt_le_trans a b c : py_lt a b = true → py_le b c = true → py_lt a c = true.
Proof.
  unfold py_le. rewrite orb_true_iff.
  intros ? [?|?]; eauto using py_lt_trans, py_lt_eq_trans.
Qed.

End ord_facts.

(** The reflected order obeys the same laws; [max] is [min] in it. *)
Definition flip_ord {K} (H : PyOrd K) : PyOrd K := {|
  py_eq := @py_eq K H;
  py_lt := λ a b, @py_lt K H b a;
  py_ok := @py_ok K H
|}.

Lemma flip_ord_laws {K} `{HL : PyOrdLaws K} : @PyOrdLaws K (flip_ord H).
Proof.
  split; simpl; intros *.
  - apply py_eq_sym.
  - apply py_eq_trans.
  - intros L. rewrite py_eq_sym. by apply py_lt_not_eq.
  - apply py_lt_asym.
  - intros L1 L2. exact (py_lt_trans _ _ _ L2 L1).
  - intros L E. rewrite py_eq_sym in E. exact (py_eq_lt_trans _ _ _ E L).
  - intros E L. rewrite py_eq_sym in E. exact (py_lt_eq_trans _ _ _ L E).
  - apply py_eq_ok.
  - intros Ha Hb. destruct (py_trichotomy a b Ha Hb) as [?|[?|?]]; auto.
Qed.

Section builtin_facts.
Context {A K : Type} `{HL : PyOrdLaws K}.
Implicit Types (k : A → K) (key : A → result K) (op : K → K → bool).

(** *** The loop *)

Lemma min_max_loop_pick op key k items m :
  (∀ x, x ∈ items → key x = Ok (k x)) →
  min_max_loop op key items m (k m) = Ok (pick op k items m).
Proof.
  revert m. induction items as [|x rest IH]; intros m Hk; [done|].
  simpl. rewrite (Hk x) by left. simpl.
  destruct (op (k x) (k m)); apply IH; intros y Hy; apply Hk; by right.
Qed.

Lemma min_max_pick op key k x rest :
  (∀ y, y ∈ x :: rest → key y = Ok (k y)) →
  min_max op key (x :: rest) = Ok (pick op k rest x).
Proof.
  intros Hk. simpl. rewrite (Hk x) by left. simpl.
  apply min_max_loop_pick. intros y Hy. apply Hk. by right.
Qed.

Lemma min_max_loop_raises op key items m v e :
  min_max_loop op key items m v = Raise e → ∃ x, x ∈ items ∧ key x = Raise e.
Proof.
  revert m v. induction items as [|x rest IH]; intros m v; simpl; [done|].
  destruct (key x) as [val|e'] eqn:E; simpl.
  - destruct (op val v); intros R; apply IH in R as (y & ? & ?);
      exists y; (split; [by right|done]).
  - intros [= <-]. exists x. split; [left|done].
Qed.

(** An exception of [min] or [max] on a list that is not empty is an
    exception of the key. *)
Lemma min_max_raises op key items e :
  items ≠ [] → min_max op key items = Raise e → ∃ x, x ∈ items ∧ key x = Raise e.
Proof.
  destruct items as [|x rest]; [done|]. intros _. simpl.
  destruct (key x) as [val|e'] eqn:E; simpl.
  - intros R. apply min_max_loop_raises in R as (y & ? & ?).
    exists y. split; [by right|done].
  - intros [= <-]. exists x. split; [left|done].
Qed.

Lemma pick_in op k items m : pick op k items m ∈ m :: items.
Proof.
  revert m. induction items as [|x rest IH]; intros m; simpl; [left|].
  destruct (op (k x) (k m)).
  - right. apply IH.
  - specialize (IH m). apply elem_of_cons in IH as [->|?]; [left|right; by right].
Qed.

(** With [<] as [op], the pick splits the list: strictly larger keys
    before it, keys at least as large after it. *)
Lemma pick_lt_split k items m :
  keys_ok k (m :: items) →
  ∃ l1 l2, m :: items = l1 ++ pick py_lt k items m :: l2
    ∧ (∀ x, x ∈ l1 → py_lt (k (pick py_lt k items m)) (k x) = true)
    ∧ (∀ x, x ∈ l2 → py_le (k (pick py_lt k items m)) (k x) = true).
Proof.
  intros Hok.
  cut (∀ done m, keys_ok k (done ++ items) → m ∈ done →
         (∃ l1 l2, done = l1 ++ m :: l2
            ∧ (∀ x, x ∈ l1 → py_lt (k m) (k x) = true)
            ∧ (∀ x, x ∈ l2 → py_le (k m) (k x) = true)) →
         ∃ l1 l2, done ++ items = l1 ++ pick py_lt k items m :: l2
            ∧ (∀ x, x ∈ l1 → py_lt (k (pick py_lt k items m)) (k x) = true)
            ∧ (∀ x, x ∈ l2 → py_le (k (pick py_lt k items m)) (k x) = true)).
  { intros C. apply (C [m] m); [done|left|].
    exists [], []. split; [done|]. split; intros x Hx; by apply elem_of_nil in Hx. }
  clear m Hok. induction items as [|x rest IH]; intros done m Hok Hm Hsplit.
  { simpl. by rewrite app_nil_r. }
  simpl. replace (done ++ x :: rest) with ((done ++ [x]) ++ rest) in *
    by (by rewrite <- app_assoc).
  destruct Hsplit as (l1 & l2 & -> & H1 & H2).
  assert (py_ok (k x) = true) as Hx.
  { apply Hok. rewrite !elem_of_app. left. right. left. }
  assert (py_ok (k m) = true) as Hmk.
  { apply Hok. rewrite !elem_of_app. left. left. right. left. }
  destruct (py_lt (k x) (k m)) eqn:L.
  - apply IH; [done|apply elem_of_app; right; left|].
    exists (l1 ++ m :: l2), []. split; [done|].
    split; [|intros y Hy; by apply elem_of_nil in Hy].
    intros y Hy. apply elem_of_app in Hy as [Hy|Hy]; [|apply elem_of_cons in Hy as [->|Hy]].
    + eauto using py_lt_trans.
    + done.
    + eauto using py_lt_le_trans.
  - apply IH; [done|rewrite !elem_of_app; left; right; left|].
    exists l1, (l2 ++ [x]). split; [by rewrite <- !app_assoc|]. split; [done|].
    intros y Hy. apply elem_of_app in Hy as [Hy|Hy]; [by apply H2|].
    apply list_elem_of_singleton in Hy as ->. by apply py_not_lt_le.
Qed.

Lemma split_first_least k l l1 m l2 :
  keys_ok k l → l = l1 ++ m :: l2 →
  (∀ x, x ∈ l1 → py_lt (k m) (k x) = true) →
  (∀ x, x ∈ l2 → py_le (k m) (k x) = true) →
  first_least k l m.
Proof.
  intros Hok -> H1 H2. exists l1, l2. split; [done|]. split.
  - intros x Hx. apply elem_of_app in Hx as [Hx|Hx]; [|apply elem_of_cons in Hx as [->|Hx]].
    + apply py_lt_le. by apply H1.
    + apply py_le_refl. apply Hok. set_solver.
    + by apply H2.
  - intros x Hx Hleast. specialize (H1 x Hx).
    assert (py_le (k x) (k m) = true) as L by (apply Hleast; set_solver).
    apply py_le_not_lt in L. congruence.
Qed.

(** *** [sorted] *)

Lemma insert_by_perm k x l : insert_by k x l ≡ₚ x :: l.
Proof.
  induction l as [|y l IH]; simpl; [done|].
  destruct (py_lt (k y) (k x)); [|done].
  rewrite IH. apply Permutation_swap.
Qed.

Lemma sorted_perm k l : sorted l k ≡ₚ l.
Proof.
  induction l as [|x l IH]; simpl; [done|].
  unfold sorted in *. simpl. by rewrite insert_by_perm, IH.
Qed.

Lemma insert_by_stable k x l v :
  filter (λ y, py_eq (k y) v = true) (insert_by k x l)
  = filter (λ y, py_eq (k y) v = true) (x :: l).
Proof.
  induction l as [|y l IH]; simpl; [done|].
  destruct (py_lt (k y) (k x)) eqn:L; [|done].
  rewrite !filter_cons in *. rewrite IH.
  destruct (decide (py_eq (k y) v = true)) as [Ey|Ey];
    destruct (decide (py_eq (k x) v = true)) as [Ex|Ex]; try done.
  apply py_lt_not_eq in L. rewrite py_eq_sym in Ex.
  by rewrite (py_eq_trans _ _ _ Ey Ex) in L.
Qed.

Lemma sorted_stable k l : stable k l (sorted l k).
Proof.
  intros v. induction l as [|x l IH]; [done|].
  unfold sorted in *. simpl. rewrite insert_by_stable.
  rewrite !filter_cons. by rewrite IH.
Qed.

Lemma insert_by_sorted k x l :
  py_ok (k x) = true → keys_ok k l →
  StronglySorted (λ a b, py_le (k a) (k b) = true) l →
  StronglySorted (λ a b, py_le (k a) (k b) = true) (insert_by k x l).
Proof.
  intros Hx Hok Hs. induction Hs as [|y l Hs IH Hy]; simpl.
  { repeat constructor. }
  assert (py_ok (k y) = true) as Hyk by (apply Hok; left).
  destruct (py_lt (k y) (k x)) eqn:L.
  - constructor.
    + apply IH. intros z Hz. apply Hok. by right.
    + apply Forall_forall. intros z Hz.
      apply (elem_of_Permutation_proper _ _ _ (insert_by_perm k x l)) in Hz.
      apply elem_of_cons in Hz as [->|Hz]; [by apply py_lt_le|].
      rewrite Forall_forall in Hy. by apply Hy.
  - assert (py_le (k x) (k y) = true) as Lxy by (by apply py_not_lt_le).
    constructor; [by constructor|].
    constructor; [done|].
    rewrite Forall_forall in Hy |- *. intros z Hz.
    eapply py_le_trans; [exact Lxy|]. by apply Hy.
Qed.

Lemma sorted_sorted k l :
  keys_ok k l → StronglySorted (λ a b, py_le (k a) (k b) = true) (sorted l k).
Proof.
  induction l as [|x l IH]; intros Hok; [constructor|].
  unfold sorted in *. simpl. apply insert_by_sorted.
  - apply Hok. left.
  - intros y Hy. apply Hok. right.
    by apply (elem_of_Permutation_proper _ _ _ (sorted_perm k l)) in Hy.
  - apply IH. intros y Hy. apply Hok. by right.
Qed.

(** Where [<] orders the keys, the sorted list with equal keys in input
    order is one list: every stable sort returns what [sorted] returns. *)
Lemma sorted_stable_eq k l1 l2 :
  keys_ok k l1 → l1 ≡ₚ l2 →
  StronglySorted (λ a b, py_le (k a) (k b) = true) l1 →
  StronglySorted (λ a b, py_le (k a) (k b) = true) l2 →
  (∀ v : K, filter (λ y, py_eq (k y) v = true) l1
          = filter (λ y, py_eq (k y) v = true) l2) →
  l1 = l2.
Proof.
  revert l2. induction l1 as [|a t IH]; intros l2 Hok Hperm Hs1 Hs2 Hf.
  { symmetry. by apply Permutation_nil. }
  destruct l2 as [|b u]; [by apply Permutation_nil_r in Hperm|].
  apply StronglySorted_inv in Hs1 as [Hst Ha], Hs2 as [Hsu Hb].
  rewrite Forall_forall in Ha, Hb.
  assert (py_ok (k a) = true) as Hoka by (apply Hok; left).
  assert (b ∈ a :: t) as Hbin by (rewrite Hperm; left).
  assert (a ∈ b :: u) as Hain by (rewrite <- Hperm; left).
  assert (py_ok (k b) = true) as Hokb by (by apply Hok).
  assert (py_le (k a) (k b) = true) as Lab.
  { apply elem_of_cons in Hbin as [->|Hbin]; [by apply py_le_refl|by apply Ha]. }
  assert (py_le (k b) (k a) = true) as Lba.
  { apply elem_of_cons in Hain as [->|Hain]; [by apply py_le_refl|by apply Hb]. }
  assert (py_eq (k b) (k a) = true) as Eba.
  { unfold py_le in Lba. apply orb_true_iff in Lba as [L|E]; [|done].
    apply py_le_not_lt in Lab. congruence. }
  assert (a = b) as <-.
  { specialize (Hf (k a)). rewrite !filter_cons in Hf.
    rewrite decide_True in Hf by (by apply py_eq_refl).
    rewrite decide_True in Hf by done. by injection Hf. }
  f_equal. apply IH.
  - intros y Hy. apply Hok. by right.
  - by apply Permutation_cons_inv in Hperm.
  - done.
  - done.
  - intros v. specialize (Hf v). rewrite !filter_cons in Hf.
    destruct (decide (py_eq (k a) v = true)); [by injection Hf|done].
Qed.

Lemma sorted_unique k l l' :
  keys_ok k l → l' ≡ₚ l →
  StronglySorted (λ a b, py_le (k a) (k b) = true) l' →
  stable k l l' →
  l' = sorted l k.
Proof.
  intros Hok Hperm Hs Hstable. apply (sorted_stable_eq k).
  - intros y Hy. apply Hok. by rewrite <- Hperm.
  - by rewrite Hperm, sorted_perm.
  - done.
  - by apply sorted_sorted.
  - intros v. rewrite (Hstable v). exact (eq_sym (sorted_stable k l v)).
Qed.

End builtin_facts.

Section max_facts.
Context {A K : Type} `{HL : PyOrdLaws K}.
Implicit Types (k : A → K).

(** With [>] as [op], the pick splits the list the other way round. *)
Lemma pick_gt_split k items m :
  keys_ok k (m :: items) →
  ∃ l1 l2, m :: items = l1 ++ pick py_gt k items m :: l2
    ∧ (∀ x, x ∈ l1 → py_lt (k x) (k (pick py_gt k items m)) = true)
    ∧ (∀ x, x ∈ l2 → py_le (k x) (k (pick py_gt k items m)) = true).
Proof.
  intros Hok.
  destruct (@pick_lt_split A K (flip_ord H) flip_ord_laws k items m Hok)
    as (l1 & l2 & E & H1 & H2).
  exists l1, l2. split; [exact E|]. split; [exact H1|].
  intros x Hx. specialize (H2 x Hx). unfold py_le in *. simpl in H2.
  by rewrite (py_eq_sym (k x)).
Qed.

Lemma split_first_greatest k l l1 m l2 :
  keys_ok k l → l = l1 ++ m :: l2 →
  (∀ x, x ∈ l1 → py_lt (k x) (k m) = true) →
  (∀ x, x ∈ l2 → py_le (k x) (k m) = true) →
  first_greatest k l m.
Proof.
  intros Hok -> H1 H2. exists l1, l2. split; [done|]. split.
  - intros x Hx. apply elem_of_app in Hx as [Hx|Hx]; [|apply elem_of_cons in Hx as [->|Hx]].
    + apply py_lt_le. by apply H1.
    + apply py_le_refl. apply Hok. set_solver.
    + by apply H2.
  - intros x Hx Hgreatest. specialize (H1 x Hx).
    assert (py_le (k m) (k x) = true) as L by (apply Hgreatest; set_solver).
    apply py_le_not_lt in L. congruence.
Qed.

Lemma pick_gt_first_greatest k items m :
  keys_ok k (m :: items) → first_greatest k (m :: items) (pick py_gt k items m).
Proof.
  intros Hok. destruct (pick_gt_split k items m Hok) as (l1 & l2 & E & H1 & H2).
  by apply (split_first_greatest k _ l1 _ l2).
Qed.

Lemma pick_lt_first_least k items m :
  keys_ok k (m :: items) → first_least k (m :: items) (pick py_lt k items m).
Proof.
  intros Hok. destruct (pick_lt_split k items m Hok) as (l1 & l2 & E & H1 & H2).
  by apply (split_first_least k _ l1 _ l2).
Qed.

End max_facts.

(** ** Options used in the examples *)

Definition sample (name : string) (r : float) (n : Z) (p : option float) : ServiceOption :=
  {| service := "fontanero"; provider := name; rating := r; review_count := n;
     price := p; currency := None; pricing_unit := None; link := None;
     notes := None |}.

(** The scenario of the specification. *)
Definition option_A : ServiceOption := sample "A" 4.5 10 (Some 20%float).
Definition option_B : ServiceOption := sample "B" 4.5 50 (Some 15%float).

(** Neither the rating nor the price of the option is [nan]. *)
Definition nan_free (option : ServiceOption) : bool :=
  negb (PrimFloat.is_nan (rating option))
  && match price option with
     | Some p => negb (PrimFloat.is_nan p)
     | None => true
     end.

Lemma nan_free_rating o : nan_free o = true → PrimFloat.is_nan (rating o) = false.
Proof. unfold nan_free. rewrite andb_true_iff, negb_true_iff. tauto. Qed.

Lemma nan_free_price o p :
  nan_free o = true → price o = Some p → PrimFloat.is_nan p = false.
Proof.
  unfold nan_free. intros Hn Hp. rewrite Hp in Hn.
  rewrite andb_true_iff, !negb_true_iff in Hn. tauto.
Qed.

(** ** Reading the keys *)

(** In [for_service] the higher rating sorts first. *)
Lemma for_service_key_rating a b :
  py_lt (rating b) (rating a) = true →
  py_lt (for_service_key a) (for_service_key b) = true.
Proof.
  intros L. unfold for_service_key. simpl.
  rewrite float_opp_eqb, float_opp_ltb.
  pose proof (py_lt_not_eq _ _ L) as N. rewrite py_eq_sym in N.
  simpl in N, L. by rewrite N.
Qed.

(** On equal rating and review count, a price below infinity sorts before
    a missing price; an infinite price ties with it. *)
Lemma for_service_key_priced_first a b p :
  py_eq (rating a) (rating b) = true → review_count a = review_count b →
  price a = Some p → price b = None → py_lt p infinity = true →
  py_lt (for_service_key a) (for_service_key b) = true.
Proof.
  intros E Hn Ha Hb L. unfold for_service_key. simpl. simpl in E.
  by rewrite float_opp_eqb, E, Hn, Z.eqb_refl, Ha, Hb.
Qed.

(** In [best_rated], on equal rating and review count, a price below
    infinity beats a missing price. *)
Lemma best_rated_key_priced_first a b p :
  py_eq (rating a) (rating b) = true → review_count a = review_count b →
  price a = Some p → price b = None → py_lt p infinity = true →
  py_gt (best_rated_key a) (best_rated_key b) = true.
Proof.
  intros E Hn Ha Hb L. unfold py_gt, best_rated_key. simpl. simpl in E.
  pose proof (py_eq_sym (rating b) (rating a)) as S. simpl in S.
  rewrite S, E, Hn, Z.eqb_refl, Ha, Hb. simpl.
  change neg_infinity with (- infinity)%float. by rewrite float_opp_ltb.
Qed.

(** ** [best_rated] *)

Lemma best_rated_key_ok o : nan_free o = true → py_ok (best_rated_key o) = true.
Proof.
  intros Hn. unfold best_rated_key. simpl.
  rewrite (nan_free_rating o Hn). simpl.
  destruct (price o) as [p|] eqn:Hp; [|done].
  by rewrite float_opp_nan, (nan_free_price o p Hn Hp).
Qed.

Lemma best_rated_cons x rest :
  best_rated (x :: rest) = Ok (Some (pick py_gt best_rated_key rest x)).
Proof.
  unfold best_rated, _best_option, builtin_max.
  by rewrite (min_max_pick py_gt _ best_rated_key).
Qed.

(** [best_rated] never raises, and answers [None] for the empty input only. *)
Lemma best_rated_None options : best_rated options = Ok None ↔ options = [].
Proof.
  destruct options as [|x rest]; [done|]. by rewrite best_rated_cons.
Qed.

Lemma best_rated_elem options m : best_rated options = Ok (Some m) → m ∈ options.
Proof.
  destruct options as [|x rest]; [done|]. rewrite best_rated_cons.
  intros [= <-]. apply pick_in.
Qed.

(** What C3 says of one input. *)
Definition best_rated_claim (options : list ServiceOption) : Prop :=
  (best_rated options = Ok None ↔ options = [])
  ∧ (options ≠ [] →
     ∃ m, best_rated options = Ok (Some m) ∧ m ∈ options
          ∧ first_greatest best_rated_key options m).

Definition option_3 : ServiceOption := sample "three" 3 1 (Some 1%float).
Definition option_nan : ServiceOption := sample "unrated" nan 1 (Some 1%float).
Definition option_5 : ServiceOption := sample "five" 5 1 (Some 1%float).
Definition option_nan_price : ServiceOption := sample "x" 4 1 (Some nan).
Definition option_price_5 : ServiceOption := sample "y" 4 1 (Some 5%float).

(** C3, counterexample: with a [nan] rating between a 3 and a 5,
    [best_rated] returns the 5, whose key is not [>=] the key of the [nan]
    option; and the [nan] option, which comes earlier, has no key above its
    own either. With a [nan] price before a price of 5 on equal rating and
    review count, the [nan]-priced option is returned. *)
Lemma best_rated_nan_counterexample :
  ¬ best_rated_claim [option_3; option_nan; option_5]
  ∧ best_rated [option_3; option_nan; option_5] = Ok (Some option_5)
  ∧ (∀ x, x ∈ [option_3; option_nan; option_5] →
       py_gt (best_rated_key x) (best_rated_key option_nan) = false)
  ∧ ¬ best_rated_claim [option_nan_price; option_price_5].
Proof.
  split; [|split; [by vm_compute|split]].
  - intros [_ Hc]. destruct Hc as (m & Hm & _ & (l1 & l2 & _ & Hg & _)); [done|].
    vm_compute in Hm. injection Hm as <-.
    specialize (Hg option_nan). vm_compute in Hg.
    assert (false = true) as E; [|discriminate E].
    apply Hg. right. left.
  - intros x Hx.
    repeat (apply elem_of_cons in Hx as [->|Hx]; [by vm_compute|]).
    by apply elem_of_nil in Hx.
  - intros [_ Hc]. destruct Hc as (m & Hm & _ & (l1 & l2 & _ & Hg & _)); [done|].
    vm_compute in Hm. injection Hm as <-.
    specialize (Hg option_price_5). vm_compute in Hg.
    assert (false = true) as E; [|discriminate E].
    apply Hg. right. left.
Qed.

(** C3 (amended): [best_rated] returns "no result" exactly on the empty
    input, and on any other input an element of it; when no rating and no
    price is [nan], that element is the first one, in input order, whose key
    (rating, review_count, -price, with -infinity for a missing price) is
    greatest. *)
Theorem best_rated_first_greatest (options : list ServiceOption) :
  (best_rated options = Ok None ↔ options = [])
  ∧ (options ≠ [] →
     ∃ m, best_rated options = Ok (Some m) ∧ m ∈ options
          ∧ ((∀ o, o ∈ options → nan_free o = true) →
             first_greatest best_rated_key options m)).
Proof.
  split; [apply best_rated_None|].
  destruct options as [|x rest]; [done|]. intros _.
  exists (pick py_gt best_rated_key rest x).
  split; [apply best_rated_cons|]. split; [apply pick_in|].
  intros Hn. apply pick_gt_first_greatest.
  intros o Ho. apply best_rated_key_ok. by apply Hn.
Qed.

Lemma best_rated_first_greatest_witness :
  ∃ m, best_rated [option_A; option_B] = Ok (Some m) ∧ m ∈ [option_A; option_B]
       ∧ first_greatest best_rated_key [option_A; option_B] m.
Proof.
  destruct (proj2 (best_rated_first_greatest [option_A; option_B]))
    as (m & Hm & Hin & Hfirst); [discriminate|].
  exists m. split; [exact Hm|]. split; [exact Hin|]. apply Hfirst.
  intros o Ho. apply elem_of_cons in Ho as [->|Ho]; [reflexivity|].
  apply elem_of_cons in Ho as [->|Ho]; [reflexivity|].
  by apply elem_of_nil in Ho.
Defined.

(** ** [cheapest] *)

(** The value a key has when it does not raise. *)
Definition key_or {A K} (d : K) (key : A → result K) (x : A) : K :=
  match key x with Ok v => v | Raise _ => d end.

Lemma key_or_Ok {A K} (d : K) (key : A → result K) x v :
  key x = Ok v → key x = Ok (key_or d key x).
Proof. unfold key_or. by intros ->. Qed.

Lemma cheapest_key_Ok o : price_known o = true → ∃ k, cheapest_key o = Ok k.
Proof. unfold price_known, cheapest_key. destruct (price o); [eauto|done]. Qed.

Lemma cheapest_key_known o k : cheapest_key o = Ok k → price_known o = true.
Proof. unfold price_known, cheapest_key. by destruct (price o). Qed.

Lemma cheapest_key_ok o k :
  nan_free o = true → cheapest_key o = Ok k → py_ok k = true.
Proof.
  unfold cheapest_key. intros Hn. destruct (price o) as [p|] eqn:Hp; [|done].
  intros [= <-]. simpl.
  by rewrite float_opp_nan, (nan_free_rating o Hn), (nan_free_price o p Hn Hp).
Qed.

Lemma elem_of_priced o (options : list ServiceOption) :
  o ∈ filter (λ option, price_known option) options
  ↔ o ∈ options ∧ price_known o = true.
Proof. rewrite list_elem_of_filter, Is_true_true. tauto. Qed.

Lemma cheapest_unpriced (options : list ServiceOption) :
  (∀ o, o ∈ options → price_known o = false) → cheapest options = Ok None.
Proof.
  intros Hu. unfold cheapest.
  destruct (filter _ options) as [|x rest] eqn:E; [done|].
  assert (x ∈ filter (λ option, price_known option) options) as Hx
    by (rewrite E; left).
  apply elem_of_priced in Hx as [Hx Hk]. rewrite (Hu x Hx) in Hk. done.
Qed.

Lemma cheapest_priced (options : list ServiceOption) x rest :
  filter (λ option, price_known option) options = x :: rest →
  cheapest options
  = Ok (Some (pick py_lt (key_or (nan, nan, 0%Z) cheapest_key) rest x)).
Proof.
  intros E. unfold cheapest. rewrite E. unfold builtin_min.
  rewrite (min_max_pick py_lt _ (key_or (nan, nan, 0%Z) cheapest_key)); [done|].
  intros y Hy. rewrite <- E in Hy. apply elem_of_priced in Hy as [_ Hy].
  destruct (cheapest_key_Ok y Hy) as [k Hk]. by eapply key_or_Ok.
Qed.

(** What C4 says of one input. *)
Definition cheapest_claim (options : list ServiceOption) : Prop :=
  ((∃ o, o ∈ options ∧ price_known o = true) →
     ∃ m km, cheapest options = Ok (Some m) ∧ m ∈ options
       ∧ cheapest_key m = Ok km
       ∧ ∀ c kc, c ∈ options → cheapest_key c = Ok kc → py_le km kc = true)
  ∧ ((∀ o, o ∈ options → price_known o = false) → cheapest options = Ok None).

(** C4, counterexample: a [nan] price, or a [nan] rating among equal prices,
    is returned although its key is not [<=] the key of the other priced
    option. *)
Lemma cheapest_nan_counterexample :
  ¬ cheapest_claim [option_nan_price; option_price_5]
  ∧ cheapest [option_nan_price; option_price_5] = Ok (Some option_nan_price)
  ∧ ¬ cheapest_claim [sample "u" nan 1 (Some 5%float); option_price_5].
Proof.
  split; [|split; [by vm_compute|]]; intros [Hc _];
    (destruct Hc as (m & km & Hm & _ & Hkm & Hle);
       [eexists; split; [left|reflexivity]|]);
    vm_compute in Hm; injection Hm as <-;
    vm_compute in Hkm; injection Hkm as <-;
    specialize (Hle option_price_5 _ ltac:(right; left) eq_refl);
    vm_compute in Hle; discriminate Hle.
Qed.

(** C4 (amended): when some option is priced, [cheapest] returns a priced
    option of the input, and when no priced option has a [nan] price or
    rating its key (price, -rating, -review_count) is [<=] the key of every
    priced option; when no option is priced it returns "no result". *)
Theorem cheapest_least (options : list ServiceOption) :
  ((∃ o, o ∈ options ∧ price_known o = true) →
     ∃ m km, cheapest options = Ok (Some m) ∧ m ∈ options
       ∧ cheapest_key m = Ok km
       ∧ ((∀ o, o ∈ options → price_known o = true → nan_free o = true) →
          ∀ c kc, c ∈ options → cheapest_key c = Ok kc → py_le km kc = true))
  ∧ ((∀ o, o ∈ options → price_known o = false) → cheapest options = Ok None).
Proof.
  split; [|apply cheapest_unpriced].
  intros (o & Ho & Hk).
  destruct (filter (λ option, price_known option) options) as [|x rest] eqn:E.
  { assert (o ∈ filter (λ option, price_known option) options) as Hx
      by (by apply elem_of_priced).
    rewrite E in Hx. by apply elem_of_nil in Hx. }
  set (k := key_or (nan, nan, 0%Z) cheapest_key).
  assert (∀ y, y ∈ x :: rest → cheapest_key y = Ok (k y)) as Hkey.
  { intros y Hy. rewrite <- E in Hy. apply elem_of_priced in Hy as [_ Hy].
    destruct (cheapest_key_Ok y Hy) as [ky Hky]. by eapply key_or_Ok. }
  assert (pick py_lt k rest x ∈ x :: rest) as Hin by apply pick_in.
  exists (pick py_lt k rest x), (k (pick py_lt k rest x)).
  split; [by apply cheapest_priced|].
  split; [rewrite <- E in Hin; by apply elem_of_priced in Hin as [? _]|].
  split; [by apply Hkey|].
  intros Hn c kc Hc Hkc.
  assert (keys_ok k (x :: rest)) as Hok.
  { intros y Hy. apply (cheapest_key_ok y); [|by apply Hkey].
    rewrite <- E in Hy. apply elem_of_priced in Hy as [? ?]. by apply Hn. }
  destruct (pick_lt_first_least k rest x Hok) as (l1 & l2 & Hsplit & Hleast & _).
  assert (c ∈ x :: rest) as Hc'.
  { rewrite <- E. apply elem_of_priced. split; [done|]. by eapply cheapest_key_known. }
  specialize (Hleast c Hc'). rewrite (Hkey c Hc') in Hkc. by injection Hkc as <-.
Qed.

Lemma cheapest_least_witness :
  ∃ m km, cheapest [option_A; option_B] = Ok (Some m) ∧ m ∈ [option_A; option_B]
    ∧ cheapest_key m = Ok km
    ∧ ∀ c kc, c ∈ [option_A; option_B] → cheapest_key c = Ok kc →
        py_le km kc = true.
Proof.
  destruct (proj1 (cheapest_least [option_A; option_B]))
    as (m & km & Hm & Hin & Hkm & Hle).
  { exists option_A. split; [left|reflexivity]. }
  exists m, km. split; [exact Hm|]. split; [exact Hin|]. split; [exact Hkm|].
  apply Hle. intros o Ho _.
  apply elem_of_cons in Ho as [->|Ho]; [reflexivity|].
  apply elem_of_cons in Ho as [->|Ho]; [reflexivity|].
  by apply elem_of_nil in Ho.
Defined.

(** ** [best_value] *)

Lemma elem_of_positive o (options : list ServiceOption) :
  o ∈ filter (λ option, price_positive option) options
  ↔ o ∈ options ∧ price_positive o = true.
Proof. rewrite list_elem_of_filter, Is_true_true. tauto. Qed.

Lemma positive_filter_nil (options : list ServiceOption) :
  filter (λ option, price_positive option) options = []
  ↔ ∀ o, o ∈ options → price_positive o = false.
Proof.
  split.
  - intros E o Ho. apply not_true_is_false. intros Hp.
    assert (o ∈ filter (λ option, price_positive option) options) as Hx
      by (by apply elem_of_positive).
    rewrite E in Hx. by apply elem_of_nil in Hx.
  - intros Hu. destruct (filter _ options) as [|x rest] eqn:E; [done|].
    assert (x ∈ filter (λ option, price_positive option) options) as Hx
      by (rewrite E; left).
    apply elem_of_positive in Hx as [Hx Hp]. rewrite (Hu x Hx) in Hp. done.
Qed.

(** [review_count / 100] is a float or an [OverflowError]. *)
Lemma int_truediv_100 n :
  (∃ x, int_truediv n 100 = Ok x) ∨ int_truediv n 100 = Raise OverflowError.
Proof.
  unfold int_truediv. simpl.
  destruct (SFdiv prec emax (int_to_sf n) (S754_finite false 100 0)); eauto.
Qed.

(** A divisor that is [> 0] is not [== 0]. *)
Lemma float_truediv_positive a p :
  py_gt p 0%float = true → float_truediv a p = Ok (a / p)%float.
Proof.
  unfold py_gt. intros L. apply py_lt_not_eq in L. rewrite py_eq_sym in L.
  unfold float_truediv. simpl in L. by rewrite L.
Qed.

(** On an option that passed the filter, the score is the float the formula
    gives, unless [review_count / 100] overflows. *)
Lemma value_positive o :
  price_positive o = true →
  (∃ x p, int_truediv (review_count o) 100 = Ok x ∧ price o = Some p
          ∧ value o = Ok (rating o * (1 + x) / p)%float)
  ∨ (int_truediv (review_count o) 100 = Raise OverflowError
     ∧ value o = Raise OverflowError).
Proof.
  unfold price_positive, value. destruct (price o) as [p|]; [|done]. intros Hp.
  destruct (int_truediv_100 (review_count o)) as [[x ->]| ->]; simpl; [|by right].
  left. exists x, p. by rewrite float_truediv_positive.
Qed.

Lemma best_value_key_positive o :
  price_positive o = true →
  (∃ v, value o = Ok v ∧ best_value_key o = Ok (v, rating o, review_count o))
  ∨ (int_truediv (review_count o) 100 = Raise OverflowError
     ∧ best_value_key o = Raise OverflowError).
Proof.
  intros Hp. unfold best_value_key.
  destruct (value_positive o Hp) as [(x & p & _ & _ & ->)|[? ->]]; simpl; eauto.
Qed.

Lemma best_value_unpriced (options : list ServiceOption) :
  (∀ o, o ∈ options → price_positive o = false) →
  best_value options = best_rated options.
Proof.
  intros Hu. unfold best_value. by rewrite (proj2 (positive_filter_nil options) Hu).
Qed.

Lemma best_value_priced (options : list ServiceOption) x rest :
  filter (λ option, price_positive option) options = x :: rest →
  best_value options
  = (m ← builtin_max best_value_key (x :: rest); Ok (Some m)).
Proof. intros E. unfold best_value. by rewrite E. Qed.

(** The only exception [best_value] raises is the [OverflowError] of
    [review_count / 100] on an option that passed the filter. *)
Lemma best_value_raises options e :
  best_value options = Raise e →
  e = OverflowError
  ∧ ∃ o, o ∈ options ∧ price_positive o = true
         ∧ int_truediv (review_count o) 100 = Raise OverflowError.
Proof.
  destruct (filter (λ option, price_positive option) options) as [|x rest] eqn:E.
  - pose proof (proj1 (positive_filter_nil options) E) as Hu.
    rewrite (best_value_unpriced options Hu).
    destruct options as [|y l]; [done|]. by rewrite best_rated_cons.
  - rewrite (best_value_priced options x rest E).
    destruct (builtin_max best_value_key (x :: rest)) as [m|e'] eqn:R; [done|].
    simpl. intros [= <-].
    unfold builtin_max in R.
    apply min_max_raises in R as (o & Ho & Hr); [|done].
    rewrite <- E in Ho. apply elem_of_positive in Ho as [Ho Hp].
    destruct (best_value_key_positive o Hp) as [(v & _ & Hv)|[Hov Hv]];
      rewrite Hv in Hr; [done|]. injection Hr as <-. eauto.
Qed.

(** When no score overflows, [best_value] returns the pick of [max]. *)
Lemma best_value_pick (options : list ServiceOption) x rest :
  filter (λ option, price_positive option) options = x :: rest →
  (∀ o, o ∈ x :: rest → ∃ v, int_truediv (review_count o) 100 = Ok v) →
  best_value options
  = Ok (Some (pick py_gt (key_or (nan, nan, 0%Z) best_value_key) rest x))
  ∧ ∀ o, o ∈ x :: rest →
      best_value_key o = Ok (key_or (nan, nan, 0%Z) best_value_key o).
Proof.
  intros E Hv.
  assert (∀ o, o ∈ x :: rest →
     best_value_key o = Ok (key_or (nan, nan, 0%Z) best_value_key o)) as Hkey.
  { intros o Ho. destruct (Hv o Ho) as [v Hov].
    rewrite <- E in Ho. apply elem_of_positive in Ho as [_ Hp].
    destruct (best_value_key_positive o Hp) as [(w & _ & Hw)|[Hr _]].
    - by eapply key_or_Ok.
    - by rewrite Hr in Hov. }
  split; [|done]. rewrite (best_value_priced options x rest E).
  unfold builtin_max.
  by rewrite (min_max_pick py_gt _ (key_or (nan, nan, 0%Z) best_value_key)).
Qed.

(** [best_value] answers [None] for the empty input only. *)
Lemma best_value_None options : best_value options = Ok None ↔ options = [].
Proof.
  split; [|by intros ->].
  destruct (filter (λ option, price_positive option) options) as [|x rest] eqn:E.
  - pose proof (proj1 (positive_filter_nil options) E) as Hu.
    rewrite (best_value_unpriced options Hu).
    apply best_rated_None.
  - rewrite (best_value_priced options x rest E).
    by destruct (builtin_max best_value_key (x :: rest)).
Qed.

Lemma min_max_elem {A K} (op : K → K → bool) (key : A → result K) items m :
  min_max op key items = Ok m → m ∈ items.
Proof.
  destruct items as [|x rest]; [done|]. simpl.
  destruct (key x) as [v|]; [simpl|done].
  revert x v. induction rest as [|y rest IH]; intros x v; simpl.
  - intros [= <-]. left.
  - destruct (key y) as [w|]; [simpl|done].
    destruct (op w v); intros R; apply IH in R;
      apply elem_of_cons in R as [->|R]; set_solver.
Qed.

(** When [min] or [max] returns, every key was computed. *)
Lemma min_max_loop_keys {A K} (op : K → K → bool) (key : A → result K)
    items m v r :
  min_max_loop op key items m v = Ok r → ∀ x, x ∈ items → ∃ w, key x = Ok w.
Proof.
  revert m v. induction items as [|y rest IH]; intros m v; simpl.
  { intros _ x Hx. by apply elem_of_nil in Hx. }
  destruct (key y) as [w|] eqn:Ey; [simpl|done].
  intros R x Hx. apply elem_of_cons in Hx as [->|Hx]; [eauto|].
  destruct (op w v); eapply IH; eauto.
Qed.

Lemma min_max_keys {A K} (op : K → K → bool) (key : A → result K) items r :
  min_max op key items = Ok r → ∀ x, x ∈ items → ∃ w, key x = Ok w.
Proof.
  destruct items as [|y rest]; [done|]. simpl.
  destruct (key y) as [w|] eqn:Ey; [simpl|done].
  intros R x Hx. apply elem_of_cons in Hx as [->|Hx]; [eauto|].
  eapply min_max_loop_keys; eauto.
Qed.

Lemma best_value_elem options m : best_value options = Ok (Some m) → m ∈ options.
Proof.
  destruct (filter (λ option, price_positive option) options) as [|x rest] eqn:E.
  - pose proof (proj1 (positive_filter_nil options) E) as Hu.
    rewrite (best_value_unpriced options Hu).
    apply best_rated_elem.
  - rewrite (best_value_priced options x rest E).
    destruct (builtin_max best_value_key (x :: rest)) as [m'|] eqn:R; [|done].
    simpl. intros [= <-]. unfold builtin_max in R. apply min_max_elem in R.
    rewrite <- E in R. by apply elem_of_positive in R as [? _].
Qed.

(** [review_count / 100] is a float. *)
Definition count_fits (option : ServiceOption) : bool :=
  match int_truediv (review_count option) 100 with
  | Ok _ => true
  | Raise _ => false
  end.

(** The score is a float, and not [nan]. *)
Definition score_ordered (option : ServiceOption) : bool :=
  match value option with
  | Ok v => negb (PrimFloat.is_nan v)
  | Raise _ => false
  end.

Definition option_big : ServiceOption := sample "big" 1 (10 ^ 400) (Some 1%float).
Definition option_free : ServiceOption := sample "free" 5 1 (Some 0%float).
Definition option_unpriced : ServiceOption := sample "unpriced" 5 1 None.

(** A score that is not [nan] comes from a rating that is not [nan]. *)
Lemma score_not_nan r f p :
  PrimFloat.is_nan (r * f / p) = false → PrimFloat.is_nan r = false.
Proof.
  rewrite !float_is_nan, div_spec, mul_spec.
  by destruct (Prim2SF r).
Qed.

Lemma score_ordered_key o :
  price_positive o = true → score_ordered o = true →
  count_fits o = true
  ∧ py_ok (key_or (nan, nan, 0%Z) best_value_key o) = true.
Proof.
  intros Hp Hs. unfold score_ordered, count_fits, key_or, best_value_key in *.
  destruct (value_positive o Hp) as [(x & p & Hx & _ & Hv)|[_ Hv]];
    rewrite Hv in *; [|done].
  rewrite Hx. split; [done|]. simpl. apply negb_true_iff in Hs.
  by rewrite Hs, (score_not_nan _ _ _ Hs).
Qed.

Lemma count_fits_Ok o : count_fits o = true → ∃ v, int_truediv (review_count o) 100 = Ok v.
Proof. unfold count_fits. destruct (int_truediv _ _); [eauto|done]. Qed.

(** What C1 says of one input. *)
Definition best_value_claim (options : list ServiceOption) : Prop :=
  (∃ o, o ∈ options ∧ price_positive o = true) →
  ∃ m km, best_value options = Ok (Some m) ∧ m ∈ options
    ∧ price_positive m = true ∧ best_value_key m = Ok km
    ∧ ∀ c, c ∈ options → price_positive c = true →
        ∃ kc, best_value_key c = Ok kc ∧ py_le kc km = true.

(** C1, counterexample: a review count of 10^400 makes [review_count / 100]
    an [OverflowError], so [best_value] returns nothing; and a [nan] rating
    gives a [nan] score, which is returned although the other option's score
    is 5.05. *)
Lemma best_value_counterexample :
  ¬ best_value_claim [option_big] ∧ ¬ best_value_claim [option_nan; option_5].
Proof.
  split; intros Hc;
    (destruct Hc as (m & km & Hm & _ & _ & Hkm & Hle);
       [eexists; split; [left|reflexivity]|]);
    vm_compute in Hm; [discriminate Hm|].
  injection Hm as <-. vm_compute in Hkm. injection Hkm as <-.
  destruct (Hle option_5) as (kc & Hkc & Hl); [right; left|reflexivity|].
  vm_compute in Hkc. injection Hkc as <-. vm_compute in Hl. discriminate Hl.
Qed.

(** C1 (amended): among the options with a price [> 0], when each one's score
    [rating * (1 + review_count/100) / price] is computed without overflow
    and is not [nan], [best_value] returns the option whose key (score,
    rating, review_count) is greatest. In the scenario of the specification
    the scores are 0.2475 and 0.45, and "B" is returned. *)
Theorem best_value_greatest :
  (∀ options : list ServiceOption,
     (∀ o, o ∈ options → price_positive o = true → score_ordered o = true) →
     best_value_claim options)
  ∧ value option_A = Ok 0.2475%float
  ∧ value option_B = Ok 0.45%float
  ∧ best_value [option_A; option_B] = Ok (Some option_B).
Proof.
  split; [|by vm_compute].
  intros options Hs (o & Ho & Hp).
  destruct (filter (λ option, price_positive option) options) as [|x rest] eqn:E.
  { rewrite (proj1 (positive_filter_nil options) E o Ho) in Hp. done. }
  set (k := key_or (nan, nan, 0%Z) best_value_key).
  assert (∀ y, y ∈ x :: rest → count_fits y = true ∧ py_ok (k y) = true) as Hfit.
  { intros y Hy. rewrite <- E in Hy. apply elem_of_positive in Hy as [? ?].
    apply score_ordered_key; auto. }
  destruct (best_value_pick options x rest E) as [Hbest Hkey].
  { intros y Hy. apply count_fits_Ok. by apply Hfit. }
  fold k in Hbest, Hkey.
  assert (keys_ok k (x :: rest)) as Hok by (intros y ?; by apply Hfit).
  destruct (pick_gt_first_greatest k rest x Hok) as (l1 & l2 & _ & Hgreatest & _).
  assert (pick py_gt k rest x ∈ x :: rest) as Hin by apply pick_in.
  exists (pick py_gt k rest x), (k (pick py_gt k rest x)).
  split; [done|]. rewrite <- E in Hin. apply elem_of_positive in Hin as [Hin Hpos].
  split; [done|]. split; [done|].
  split; [apply Hkey; rewrite <- E; by apply elem_of_positive|].
  intros c Hc Hcp.
  assert (c ∈ x :: rest) as Hc' by (rewrite <- E; by apply elem_of_positive).
  exists (k c). split; [by apply Hkey|by apply Hgreatest].
Qed.

Lemma best_value_greatest_witness :
  ∃ m km, best_value [option_A; option_B] = Ok (Some m)
    ∧ m ∈ [option_A; option_B]
    ∧ price_positive m = true ∧ best_value_key m = Ok km
    ∧ ∀ c, c ∈ [option_A; option_B] → price_positive c = true →
        ∃ kc, best_value_key c = Ok kc ∧ py_le kc km = true.
Proof.
  apply (proj1 best_value_greatest [option_A; option_B]).
  - intros o Ho _. apply elem_of_cons in Ho as [->|Ho]; [reflexivity|].
    apply elem_of_cons in Ho as [->|Ho]; [reflexivity|].
    by apply elem_of_nil in Ho.
  - exists option_A. split; [left|reflexivity].
Defined.

(** C2: when no option has a known price strictly greater than zero,
    [best_value] is [best_rated] on the same, unfiltered input. *)
Theorem best_value_falls_back (options : list ServiceOption) :
  (∀ o, o ∈ options → price_positive o = false) →
  best_value options = best_rated options.
Proof.
  intros Hu. unfold best_value.
  assert (filter (λ option, price_positive option) options = []) as ->
    by (by apply positive_filter_nil).
  reflexivity.
Qed.

Lemma best_value_falls_back_witness :
  best_value [option_unpriced; option_free] = best_rated [option_unpriced; option_free].
Proof.
  apply (best_value_falls_back [option_unpriced; option_free]).
  intros o Ho. apply elem_of_cons in Ho as [->|Ho]; [reflexivity|].
  apply elem_of_cons in Ho as [->|Ho]; [reflexivity|].
  by apply elem_of_nil in Ho.
Defined.

(** [best_value] returns whenever every count of a priced option fits. *)
Lemma best_value_returns (options : list ServiceOption) :
  (∀ o, o ∈ options → price_positive o = true → count_fits o = true) →
  ∃ r, best_value options = Ok r.
Proof.
  intros Hf. destruct (best_value options) as [r|e] eqn:R; [eauto|].
  apply best_value_raises in R as (_ & o & Ho & Hp & Hr).
  specialize (Hf o Ho Hp). unfold count_fits in Hf. by rewrite Hr in Hf.
Qed.

(** The largest review count whose hundredth is a float: one below
    [(2^1024 - 2^970) * 100], about 1.8e310. *)
Lemma count_fits_threshold :
  count_fits (sample "t" 1 ((2 ^ 1024 - 2 ^ 970) * 100 - 1) (Some 1%float)) = true
  ∧ count_fits (sample "t" 1 ((2 ^ 1024 - 2 ^ 970) * 100) (Some 1%float)) = false.
Proof. by vm_compute. Qed.

(** What C9 says of one input. *)
Definition score_total_claim (options : list ServiceOption) : Prop :=
  best_value options ≠ Raise ZeroDivisionError ∧ ∃ r, best_value options = Ok r.

(** C9, counterexample: the score of a review count of 10^400 is an
    [OverflowError]. *)
Lemma score_total_counterexample : ¬ score_total_claim [option_big].
Proof. intros [_ [r Hr]]. vm_compute in Hr. discriminate Hr. Qed.

(** The guard is what keeps the division safe: on a price of zero the score
    itself divides by zero, and [best_value] never asks for it. *)
Lemma value_free_divides_by_zero :
  value option_free = Raise ZeroDivisionError
  ∧ best_value [option_free] = Ok (Some option_free).
Proof. by vm_compute. Qed.

(** When [best_value] returns, the hundredth of the review count was a float
    on every option that passed the filter. *)
Lemma best_value_Ok_fits (options : list ServiceOption) r :
  best_value options = Ok r →
  ∀ o, o ∈ options → price_positive o = true → count_fits o = true.
Proof.
  intros R o Ho Hp.
  assert (o ∈ filter (λ option, price_positive option) options) as Hin
    by (by apply elem_of_positive).
  destruct (filter (λ option, price_positive option) options) as [|x rest] eqn:E;
    [by apply elem_of_nil in Hin|].
  rewrite (best_value_priced options x rest E) in R.
  destruct (builtin_max best_value_key (x :: rest)) as [m|] eqn:M; [|done].
  unfold builtin_max in M.
  destruct (min_max_keys _ _ _ _ M o Hin) as [w Hw].
  unfold best_value_key, value in Hw. unfold count_fits.
  by destruct (int_truediv (review_count o) 100).
Qed.

(** C9 (amended): the score is only computed for options that passed the
    filter, where the price is [> 0]: no input makes [best_value] divide by
    zero. The computation returns whenever [review_count / 100] is a float
    for each of those options; otherwise it raises [OverflowError]. *)
Theorem best_value_score_total (options : list ServiceOption) :
  best_value options ≠ Raise ZeroDivisionError
  ∧ (∀ o, o ∈ filter (λ option, price_positive option) options →
       value o ≠ Raise ZeroDivisionError)
  ∧ ((∀ o, o ∈ options → price_positive o = true → count_fits o = true) →
     score_total_claim options)
  ∧ (∀ o, o ∈ options → price_positive o = true → count_fits o = false →
       best_value options = Raise OverflowError).
Proof.
  assert (best_value options ≠ Raise ZeroDivisionError) as Hz.
  { intros R. by apply best_value_raises in R as [? _]. }
  split; [done|]. split; [|split].
  - intros o Ho R. apply elem_of_positive in Ho as [_ Hp].
    destruct (value_positive o Hp) as [(x & p & _ & _ & Hv)|[_ Hv]];
      rewrite Hv in R; done.
  - intros Hf. split; [done|]. by apply best_value_returns.
  - intros o Ho Hp Hf. destruct (best_value options) as [r|e] eqn:R.
    + rewrite (best_value_Ok_fits options r R o Ho Hp) in Hf. discriminate Hf.
    + by apply best_value_raises in R as [-> _].
Qed.

Lemma best_value_score_total_witness : score_total_claim [option_A; option_free].
Proof.
  apply (proj1 (proj2 (proj2 (best_value_score_total [option_A; option_free])))).
  intros o Ho _. apply elem_of_cons in Ho as [->|Ho]; [reflexivity|].
  apply elem_of_cons in Ho as [->|Ho]; [reflexivity|].
  by apply elem_of_nil in Ho.
Defined.

(** What C10 says of one input. *)
Definition best_value_result_claim (options : list ServiceOption) : Prop :=
  (best_value options = Ok None ↔ options = [])
  ∧ (options ≠ [] → ∃ m, best_value options = Ok (Some m) ∧ m ∈ options).

(** C10, counterexample: on the one option with a review count of 10^400
    [best_value] raises instead of returning it. *)
Lemma best_value_result_counterexample : ¬ best_value_result_claim [option_big].
Proof.
  intros [_ Hc]. destruct Hc as (m & Hm & _); [done|].
  vm_compute in Hm. discriminate Hm.
Qed.

(** C10 (amended): [best_value] returns "no result" exactly on the empty
    input; on any other input in which [review_count / 100] is a float for
    every option priced [> 0] it returns an element of the input, also when
    all options are unpriced or priced at zero. *)
Theorem best_value_returns_element (options : list ServiceOption) :
  (best_value options = Ok None ↔ options = [])
  ∧ (options ≠ [] →
     (∀ o, o ∈ options → price_positive o = true → count_fits o = true) →
     ∃ m, best_value options = Ok (Some m) ∧ m ∈ options).
Proof.
  split; [apply best_value_None|]. intros Hne Hf.
  destruct (best_value_returns options Hf) as [[m|] Hr].
  - exists m. split; [done|]. by apply best_value_elem.
  - by apply best_value_None in Hr.
Qed.

Lemma best_value_returns_element_witness :
  ∃ m, best_value [option_unpriced; option_free] = Ok (Some m)
       ∧ m ∈ [option_unpriced; option_free].
Proof.
  apply (proj2 (best_value_returns_element [option_unpriced; option_free]));
    [discriminate|].
  intros o Ho. apply elem_of_cons in Ho as [->|Ho]; [discriminate|].
  apply elem_of_cons in Ho as [->|Ho]; [discriminate|].
  by apply elem_of_nil in Ho.
Defined.

(** ** The heap *)

Lemma M_bind_Ok {A B} (m : M A) (k : A → M B) (h h' : heap) a :
  m h = (Ok a, h') → (m ≫= k) h = k a h'.
Proof. unfold mbind, M_bind. by intros ->. Qed.

Lemma fresh_loc_None (h : heap) : h !! fresh (dom h) = None.
Proof. apply not_elem_of_dom. apply is_fresh. Qed.

Lemma alloc_run o (h : heap) :
  alloc o h = (Ok (fresh (dom h)), <[fresh (dom h) := o]> h).
Proof. done. Qed.

Lemma alloc_extends o (h : heap) : h ⊆ <[fresh (dom h) := o]> h.
Proof. apply insert_subseteq, fresh_loc_None. Qed.

Lemma iter_list_run (h : heap) l items :
  h !! l = Some (ListObj items) → iter_list l h = (Ok items, h).
Proof. unfold iter_list. by intros ->. Qed.

Lemma list_append_run (h : heap) l items x :
  h !! l = Some (ListObj items) →
  list_append l x h = (Ok (), <[l := ListObj (items ++ [x])]> h).
Proof. unfold list_append. by intros ->. Qed.

Lemma dict_setdefault_old (h : heap) d m k default v :
  h !! d = Some (DictObj m) → m !! k = Some v →
  dict_setdefault d k default h = (Ok v, h).
Proof. unfold dict_setdefault. by intros -> ->. Qed.

Lemma dict_setdefault_new (h : heap) d m k default :
  h !! d = Some (DictObj m) → m !! k = None →
  dict_setdefault d k default h
  = (Ok default, <[d := DictObj (<[k := default]> m)]> h).
Proof. unfold dict_setdefault. by intros -> ->. Qed.

Lemma dict_get_run (h : heap) d m k dflt :
  h !! d = Some (DictObj m) →
  dict_get d k dflt h = (Ok (default dflt (m !! k)), h).
Proof. unfold dict_get. intros ->. by destruct (m !! k). Qed.

(** ** The repository *)

Section repository.
Context `{StrMethods}.
Implicit Types (h : heap) (opts : list ServiceOption) (self : ServiceRepository).

(** The options indexed under a normalized key, in input order. *)
Definition bucket_of opts (key : string) : list ServiceOption :=
  filter (λ o, _normalize_service_name (service o) = key) opts.

(** The heap [h] holds the repository [self] built from [opts]: the
    snapshot list, and a dict with one list per normalized service name. *)
Definition represents h self opts : Prop :=
  h !! _options self = Some (ListObj opts)
  ∧ ∃ d, h !! _index self = Some (DictObj d)
      ∧ ∀ key, match d !! key with
               | Some b => h !! b = Some (ListObj (bucket_of opts key))
                           ∧ bucket_of opts key ≠ []
               | None => bucket_of opts key = []
               end.

(** The objects the repository is made of. *)
Definition footprint h self : gset loc :=
  {[ _options self; _index self ]}
  ∪ match h !! _index self with
    | Some (DictObj d) => map_img d
    | _ => ∅
    end.

(** What the two queries return, as functions of the snapshot. *)
Definition services_view opts : list string :=
  sorted (elements (list_to_set (service <$> opts) : gset string)) id.

Definition for_service_view opts (name : string) : list ServiceOption :=
  sorted (bucket_of opts (_normalize_service_name name)) for_service_key.

Lemma bucket_of_snoc opts x key :
  bucket_of (opts ++ [x]) key
  = bucket_of opts key
    ++ (if decide (_normalize_service_name (service x) = key) then [x] else []).
Proof.
  unfold bucket_of. by rewrite filter_app.
Qed.

(** The state of the loop of [__init__] after the options [done]: [h0] is
    the heap the loop started in. *)
Definition indexing (h0 : heap) (index : loc) (done : list ServiceOption) h : Prop :=
  (∀ l, l ∈ dom h0 → l ≠ index → h !! l = h0 !! l)
  ∧ ∃ d : gmap string loc, h !! index = Some (DictObj d)
      ∧ (∀ key b, d !! key = Some b →
           (b ∉ dom h0) ∧ h !! b = Some (ListObj (bucket_of done key))
           ∧ bucket_of done key ≠ [])
      ∧ (∀ key, d !! key = None → bucket_of done key = [])
      ∧ (∀ k1 k2 b, d !! k1 = Some b → d !! k2 = Some b → k1 = k2).

Lemma index_option_step h0 index done h x :
  index ∈ dom h0 → indexing h0 index done h →
  ∃ h', index_option index x h = (Ok (), h') ∧ indexing h0 index (done ++ [x]) h'.
Proof.
  intros Hidx (Hframe & d & Hd & Hsome & Hnone & Hinj).
  set (k := _normalize_service_name (service x)).
  set (e := fresh (dom h)).
  assert (h !! e = None) as He by apply fresh_loc_None.
  assert (e ≠ index) as Hei by (intros ->; by rewrite Hd in He).
  assert (∀ l, l ∈ dom h0 → l ≠ e) as Hfresh.
  { intros l Hl ->. destruct (decide (e = index)) as [|Hne]; [done|].
    rewrite (Hframe e Hl Hne) in He. by apply not_elem_of_dom in He. }
  unfold index_option. fold k. rewrite (M_bind_Ok _ _ _ _ _ (alloc_run _ h)). fold e.
  destruct (d !! k) as [b|] eqn:Hk.
  - destruct (Hsome k b Hk) as (Hb0 & Hb & Hbne).
    assert (b ≠ e) as Hbe by (intros ->; by rewrite Hb in He).
    assert (b ≠ index) as Hbi by (by intros ->).
    erewrite M_bind_Ok;
      [|by eapply dict_setdefault_old; [rewrite lookup_insert_ne|]].
    erewrite list_append_run by (by rewrite lookup_insert_ne).
    eexists. split; [done|]. split.
    + intros l Hl Hli. rewrite !lookup_insert_ne; [by apply Hframe| |].
      * intros E. by apply (Hfresh l).
      * by intros <-.
    + exists d. split; [by rewrite !lookup_insert_ne|].
      split; [|split; [|done]].
      * intros key b' Hkey. destruct (Hsome key b' Hkey) as (? & Hb' & ?).
        split; [done|]. rewrite bucket_of_snoc.
        destruct (decide (b' = b)) as [->|Hne].
        -- rewrite (Hinj key k b Hkey Hk). rewrite lookup_insert_eq.
           rewrite decide_True by done. split; [done|]. by destruct (bucket_of done k).
        -- rewrite lookup_insert_ne by done.
           rewrite lookup_insert_ne by (intros <-; by rewrite Hb' in He).
           rewrite decide_False by (intros Ek; fold k in Ek; congruence).
           rewrite app_nil_r. done.
      * intros key Hkey. rewrite bucket_of_snoc.
        rewrite decide_False by (intros Ek; fold k in Ek; congruence).
        rewrite app_nil_r. by apply Hnone.
  - erewrite M_bind_Ok;
      [|by eapply dict_setdefault_new; [rewrite lookup_insert_ne|]].
    erewrite list_append_run
      by (rewrite lookup_insert_ne by done; apply lookup_insert_eq).
    eexists. split; [done|]. split.
    + intros l Hl Hli. rewrite !lookup_insert_ne; [by apply Hframe|..].
      all: try done; intros E; by apply (Hfresh l).
    + exists (<[k := e]> d).
      split; [rewrite lookup_insert_ne by done; apply lookup_insert_eq|].
      split; [|split].
      * intros key b' Hkey. rewrite bucket_of_snoc.
        destruct (decide (key = k)) as [->|Hne].
        -- rewrite lookup_insert_eq in Hkey. injection Hkey as <-.
           split; [intros Hin; by apply (Hfresh e)|].
           rewrite lookup_insert_eq, decide_True by done.
           rewrite (Hnone k Hk). done.
        -- rewrite lookup_insert_ne in Hkey by done.
           destruct (Hsome key b' Hkey) as (Hb0 & Hb' & ?).
           split; [done|].
           rewrite lookup_insert_ne by (intros <-; by rewrite Hb' in He).
           rewrite lookup_insert_ne by (by intros <-).
           rewrite lookup_insert_ne by (intros <-; by rewrite Hb' in He).
           rewrite decide_False by (fold k; congruence).
           by rewrite app_nil_r.
      * intros key Hkey. apply lookup_insert_None in Hkey as [Hkey Hne].
        rewrite bucket_of_snoc, decide_False by (fold k; congruence).
        rewrite app_nil_r. by apply Hnone.
      * intros k1 k2 b' H1 H2.
        destruct (decide (k1 = k)) as [->|N1], (decide (k2 = k)) as [->|N2];
          [done| | |].
        -- rewrite lookup_insert_eq in H1. injection H1 as <-.
           rewrite lookup_insert_ne in H2 by done.
           destruct (Hsome k2 e H2) as (_ & Hb' & _). by rewrite Hb' in He.
        -- rewrite lookup_insert_eq in H2. injection H2 as <-.
           rewrite lookup_insert_ne in H1 by done.
           destruct (Hsome k1 e H1) as (_ & Hb' & _). by rewrite Hb' in He.
        -- rewrite lookup_insert_ne in H1, H2 by done. by eapply Hinj.
Qed.

Lemma for_each_index h0 index rest : ∀ done h,
  index ∈ dom h0 → indexing h0 index done h →
  ∃ h', for_each rest (index_option index) h = (Ok (), h')
        ∧ indexing h0 index (done ++ rest) h'.
Proof.
  induction rest as [|x rest IH]; intros done h Hidx Hinv.
  - exists h. by rewrite app_nil_r.
  - destruct (index_option_step h0 index done h x Hidx Hinv) as (h1 & Hrun & Hinv1).
    destruct (IH (done ++ [x]) h1 Hidx Hinv1) as (h2 & Hrun2 & Hinv2).
    exists h2. split; [|by rewrite <- app_assoc in Hinv2].
    simpl. by rewrite (M_bind_Ok _ _ _ _ _ Hrun).
Qed.

Lemma footprint_eq h self d :
  h !! _index self = Some (DictObj d) →
  footprint h self = {[ _options self; _index self ]} ∪ map_img d.
Proof. unfold footprint. by intros ->. Qed.

(** A heap that agrees with [h] on the objects of the repository holds the
    same repository. *)
Lemma represents_frame h h' self opts :
  represents h self opts →
  (∀ l, l ∈ footprint h self → h' !! l = h !! l) →
  represents h' self opts ∧ footprint h' self = footprint h self.
Proof.
  intros (Ho & d & Hd & Hb) Hsame. rewrite (footprint_eq h self d Hd) in Hsame.
  assert (h' !! _index self = Some (DictObj d)) as Hd'
    by (rewrite Hsame; [done|set_solver]).
  split; [|by rewrite (footprint_eq h self d Hd), (footprint_eq h' self d Hd')].
  split; [rewrite Hsame; [done|set_solver]|].
  exists d. split; [done|]. intros key. specialize (Hb key).
  destruct (d !! key) as [b|] eqn:Hk; [|done].
  rewrite Hsame; [done|]. apply elem_of_union_r, elem_of_map_img. eauto.
Qed.

Lemma footprint_dom h self opts : represents h self opts → footprint h self ⊆ dom h.
Proof.
  intros (Ho & d & Hd & Hb). rewrite (footprint_eq h self d Hd).
  intros l Hl. apply elem_of_dom.
  apply elem_of_union in Hl as [Hl|Hl].
  - apply elem_of_union in Hl as [Hl|Hl]; apply elem_of_singleton in Hl as ->; eauto.
  - apply elem_of_map_img in Hl as [key Hk]. specialize (Hb key).
    rewrite Hk in Hb. destruct Hb as [-> _]. eauto.
Qed.

(** Construction: the snapshot and the index are new objects, every object
    the heap had is left as it was. *)
Lemma init_spec h options opts :
  h !! options = Some (ListObj opts) →
  ∃ self h', ServiceRepository_init options h = (Ok self, h')
    ∧ h ⊆ h' ∧ represents h' self opts ∧ footprint h' self ## dom h.
Proof.
  intros Hopts.
  set (o := fresh (dom h)). set (h1 := <[o := ListObj opts]> h).
  set (i := fresh (dom h1)). set (h2 := <[i := DictObj ∅]> h1).
  assert (h !! o = None) as Ho by apply fresh_loc_None.
  assert (h1 !! i = None) as Hi by apply fresh_loc_None.
  assert (h1 !! o = Some (ListObj opts)) as Ho1 by apply lookup_insert_eq.
  assert (o ≠ i) as Hoi by (intros E; rewrite <- E, Ho1 in Hi; done).
  assert (h ⊆ h2) as Hsub.
  { etrans; [apply (insert_subseteq h o), Ho|]. by apply insert_subseteq. }
  assert (h2 !! i = Some (DictObj ∅)) as Hi2 by apply lookup_insert_eq.
  assert (h2 !! o = Some (ListObj opts)) as Ho2
    by (unfold h2; by rewrite lookup_insert_ne).
  assert (∀ l x, h !! l = Some x → l ≠ o ∧ l ≠ i) as Hold.
  { intros l x Hl. split; intros ->; [congruence|].
    assert (h1 !! i = Some x) by (by eapply lookup_weaken, insert_subseteq).
    congruence. }
  assert (indexing h2 i [] h2) as Hinv.
  { split; [done|]. exists ∅. split; [done|]. repeat split; done. }
  assert (i ∈ dom h2) as Hidom by (apply elem_of_dom; eauto).
  destruct (for_each_index h2 i opts [] h2 Hidom Hinv)
    as (h3 & Hrun & Hframe & d & Hd & Hsome & Hnone & _).
  simpl in Hsome, Hnone.
  exists {| _options := o; _index := i |}, h3.
  assert (h3 !! o = Some (ListObj opts)) as Ho3.
  { rewrite Hframe; [done| |done]. apply elem_of_dom. eauto. }
  split; [|split; [|split]].
  - unfold ServiceRepository_init, py_list.
    rewrite (M_bind_Ok _ _ h h1 o).
    2:{ by rewrite (M_bind_Ok _ _ _ _ _ (iter_list_run h options opts Hopts)). }
    rewrite (M_bind_Ok _ _ _ _ _ (alloc_run _ h1)). fold i h2.
    rewrite (M_bind_Ok _ _ h2 h2 opts) by (by apply iter_list_run).
    by rewrite (M_bind_Ok _ _ _ _ _ Hrun).
  - apply map_subseteq_spec. intros l x Hl.
    assert (h2 !! l = Some x) as Hl2 by (by eapply lookup_weaken).
    rewrite Hframe; [done|by apply elem_of_dom|]. by eapply Hold.
  - split; [done|]. exists d. split; [done|]. intros key.
    destruct (d !! key) as [b|] eqn:Hk.
    + by destruct (Hsome key b Hk) as (_ & ? & ?).
    + by apply Hnone.
  - rewrite (footprint_eq h3 {| _options := o; _index := i |} d Hd).
    simpl. intros l Hl Hdom.
    apply elem_of_dom in Hdom as [x Hx]. destruct (Hold l x Hx) as [Hlo Hli].
    apply elem_of_union in Hl as [Hl|Hl].
    + apply elem_of_union in Hl as [Hl|Hl]; by apply elem_of_singleton in Hl.
    + apply elem_of_map_img in Hl as [key Hk].
      destruct (Hsome key l Hk) as (Hl & _). apply Hl.
      apply elem_of_dom. exists x. by eapply lookup_weaken.
Qed.

(** [services] reads the snapshot and returns a new list. *)
Lemma services_spec h self opts :
  represents h self opts →
  services self h
  = (Ok (fresh (dom h)), <[fresh (dom h) := StrListObj (services_view opts)]> h).
Proof.
  intros (Ho & _). unfold services.
  by rewrite (M_bind_Ok _ _ _ _ _ (iter_list_run h _ opts Ho)).
Qed.

(** [for_service] reads the index and one bucket and returns a new list;
    the empty default of [get] is a new list too. *)
Lemma for_service_spec h self opts name :
  represents h self opts →
  for_service self name h
  = (Ok (fresh (dom (<[fresh (dom h) := ListObj []]> h))),
     <[fresh (dom (<[fresh (dom h) := ListObj []]> h))
         := ListObj (for_service_view opts name)]>
       (<[fresh (dom h) := ListObj []]> h)).
Proof.
  intros (Ho & d & Hd & Hb). unfold for_service.
  set (k := _normalize_service_name name). set (e := fresh (dom h)).
  assert (h !! e = None) as He by apply fresh_loc_None.
  rewrite (M_bind_Ok _ _ _ _ _ (alloc_run _ h)). fold e.
  erewrite M_bind_Ok;
    [|apply (dict_get_run _ _ d); rewrite lookup_insert_ne; [done|congruence]].
  assert (<[e := ListObj []]> h !! default e (d !! k)
          = Some (ListObj (bucket_of opts k))) as Hitems.
  { specialize (Hb k). destruct (d !! k) as [b|]; simpl.
    - destruct Hb as [Hb _]. rewrite lookup_insert_ne; [done|congruence].
    - rewrite Hb. apply lookup_insert_eq. }
  by rewrite (M_bind_Ok _ _ _ _ _ (iter_list_run _ _ _ Hitems)).
Qed.

End repository.

(** ** The order of strings *)

Lemma string_compare_refl (s : string) : String.compare s s = Eq.
Proof.
  pose proof (String.compare_antisym s s) as E.
  by destruct (String.compare s s).
Qed.

Lemma string_ltb_Lt (a b : string) : String.ltb a b = true ↔ String.compare a b = Lt.
Proof. unfold String.ltb. by destruct (String.compare a b). Qed.

Lemma string_ltb_le (a b : string) :
  String.ltb a b = true ↔ String.le a b ∧ a ≠ b.
Proof.
  rewrite string_ltb_Lt. unfold String.le, String.leb. split.
  - intros L. rewrite L. split; [done|]. intros ->.
    by rewrite string_compare_refl in L.
  - intros [L N]. destruct (String.compare a b) eqn:E; [|done|done].
    by apply String.compare_eq_iff in E.
Qed.

Global Instance str_ord_laws : PyOrdLaws string.
Proof.
  split; simpl.
  - apply String.eqb_sym.
  - intros a b c. rewrite !String.eqb_eq. congruence.
  - intros a b. rewrite string_ltb_le, String.eqb_neq. tauto.
  - intros a b. rewrite string_ltb_le. intros [L N].
    apply not_true_is_false. rewrite string_ltb_le. intros [L' _].
    apply N. by apply (anti_symm String.le).
  - intros a b c. rewrite !string_ltb_le. intros [L1 N1] [L2 N2].
    split; [by etrans|]. intros ->.
    apply N1. by apply (anti_symm String.le).
  - intros a b c L. rewrite String.eqb_eq. by intros <-.
  - intros a b c. rewrite String.eqb_eq. by intros ->.
  - done.
  - intros a b _ _. rewrite !string_ltb_Lt, String.eqb_eq.
    rewrite (String.compare_antisym b a).
    destruct (String.compare a b) eqn:E; simpl; auto.
    apply String.compare_eq_iff in E. auto.
Qed.

(** A sorted list without repetition ascends strictly. *)
Lemma sorted_strict (l : list string) :
  NoDup l → StronglySorted (λ a b, py_le a b = true) l →
  StronglySorted (λ a b : string, String.ltb a b = true) l.
Proof.
  intros Hnd Hs. induction Hs as [|x l Hs IH Hx]; [constructor|].
  apply NoDup_cons in Hnd as [Hnotin Hnd]. constructor; [by apply IH|].
  rewrite Forall_forall in Hx |- *. intros y Hy. specialize (Hx y Hy).
  unfold py_le in Hx. simpl in Hx. apply orb_true_iff in Hx as [?|E]; [done|].
  apply String.eqb_eq in E as ->. done.
Qed.

(** ** Queries on a built repository *)

Section queries.
Context `{StrMethods}.
Implicit Types (h : heap) (opts : list ServiceOption) (self : ServiceRepository).

(** [self] was constructed from a list object holding [opts], and the heap
    [h] still has the objects of [self] as construction left them; the rest
    of [h], the caller's list included, may have changed since. *)
Definition built opts self h : Prop :=
  ∃ (h0 : heap) (options : loc) (h1 : heap),
    h0 !! options = Some (ListObj opts)
    ∧ ServiceRepository_init options h0 = (Ok self, h1)
    ∧ ∀ l, l ∈ footprint h1 self → h !! l = h1 !! l.

Lemma built_represents opts self h : built opts self h → represents h self opts.
Proof.
  intros (h0 & options & h1 & Hopts & Hinit & Hsame).
  destruct (init_spec h0 options opts Hopts) as (self' & h1' & Hinit' & _ & Hrep & _).
  rewrite Hinit in Hinit'. injection Hinit' as <- <-.
  by apply (represents_frame h1 h self opts).
Qed.

Lemma built_frame opts self h h' :
  built opts self h → (∀ l, l ∈ footprint h self → h' !! l = h !! l) →
  built opts self h'.
Proof.
  intros (h0 & options & h1 & Hopts & Hinit & Hsame) Hsame'.
  exists h0, options, h1. split; [done|]. split; [done|].
  destruct (init_spec h0 options opts Hopts) as (self' & h1' & Hinit' & _ & Hrep & _).
  rewrite Hinit in Hinit'. injection Hinit' as <- <-.
  destruct (represents_frame h1 h self opts Hrep Hsame) as [_ Hfp].
  intros l Hl. rewrite Hsame', Hsame; [done|done|by rewrite Hfp].
Qed.

Lemma built_extend opts self h h' : built opts self h → h ⊆ h' → built opts self h'.
Proof.
  intros Hb Hsub. apply (built_frame opts self h h' Hb). intros l Hl.
  apply (footprint_dom h self opts (built_represents _ _ _ Hb)) in Hl.
  apply elem_of_dom in Hl as [x Hx]. rewrite Hx. by eapply lookup_weaken.
Qed.

Lemma init_built h options opts :
  h !! options = Some (ListObj opts) →
  ∃ self h', ServiceRepository_init options h = (Ok self, h')
    ∧ h ⊆ h' ∧ footprint h' self ## dom h ∧ built opts self h'.
Proof.
  intros Hopts.
  destruct (init_spec h options opts Hopts) as (self & h' & Hinit & Hsub & _ & Hdisj).
  exists self, h'. repeat split; [done..|]. by exists h, options, h'.
Qed.

Lemma services_built opts self h :
  built opts self h →
  ∃ r h', services self h = (Ok r, h') ∧ (r ∉ dom h) ∧ h ⊆ h'
    ∧ h' !! r = Some (StrListObj (services_view opts)) ∧ built opts self h'.
Proof.
  intros Hb. eexists _, _.
  split; [apply (services_spec h self opts), built_represents, Hb|].
  split; [apply is_fresh|]. split; [apply alloc_extends|].
  split; [apply lookup_insert_eq|]. eapply built_extend, alloc_extends. done.
Qed.

Lemma for_service_built opts self h name :
  built opts self h →
  ∃ r h', for_service self name h = (Ok r, h') ∧ (r ∉ dom h) ∧ h ⊆ h'
    ∧ h' !! r = Some (ListObj (for_service_view opts name)) ∧ built opts self h'.
Proof.
  intros Hb. eexists _, _.
  split; [apply (for_service_spec h self opts name), built_represents, Hb|].
  assert (h ⊆ <[fresh (dom h) := ListObj []]> h) as Hsub1 by apply alloc_extends.
  assert (h ⊆ <[fresh (dom (<[fresh (dom h) := ListObj []]> h))
                  := ListObj (for_service_view opts name)]>
                (<[fresh (dom h) := ListObj []]> h)) as Hsub
    by (etrans; [exact Hsub1|apply alloc_extends]).
  split; [|split; [done|split; [apply lookup_insert_eq|by eapply built_extend]]].
  intros Hr. apply (is_fresh (dom (<[fresh (dom h) := ListObj []]> h))).
  apply elem_of_dom in Hr as [x Hx]. apply elem_of_dom. exists x.
  by eapply lookup_weaken.
Qed.

(** *** [services] *)

Lemma services_view_elem opts s :
  s ∈ services_view opts ↔ ∃ o, o ∈ opts ∧ service o = s.
Proof.
  unfold services_view.
  rewrite (elem_of_Permutation_proper s _ _ (sorted_perm id _)).
  rewrite elem_of_elements, elem_of_list_to_set, list_elem_of_fmap.
  split; [intros (o & -> & ?)|intros (o & ? & <-)]; by exists o.
Qed.

Lemma services_view_NoDup opts : NoDup (services_view opts).
Proof.
  unfold services_view. rewrite (sorted_perm id _). apply NoDup_elements.
Qed.

Lemma services_view_sorted opts :
  StronglySorted (λ a b : string, String.ltb a b = true) (services_view opts).
Proof.
  apply sorted_strict; [apply services_view_NoDup|].
  apply (sorted_sorted id). by intros x _.
Qed.

Lemma services_view_nil : services_view [] = [].
Proof. unfold services_view. simpl. by rewrite elements_empty. Qed.

(** *** [for_service] *)

Lemma for_service_view_nil opts name :
  bucket_of opts (_normalize_service_name name) = [] → for_service_view opts name = [].
Proof. unfold for_service_view. by intros ->. Qed.

Lemma for_service_key_ok o : nan_free o = true → py_ok (for_service_key o) = true.
Proof.
  intros Hn. unfold for_service_key. simpl.
  rewrite float_opp_nan, (nan_free_rating o Hn). simpl.
  destruct (price o) as [p|] eqn:Hp; [|done].
  by rewrite (nan_free_price o p Hn Hp).
Qed.

End queries.

(** ** The claims about the repository *)

(** A repository over ASCII service names, built in a heap that holds the
    caller's list at location 1. *)
Definition demo_options : list ServiceOption :=
  [ option_A;
    {| service := "  Fontanero "; provider := "C"; rating := 4.5; review_count := 50;
       price := None; currency := None; pricing_unit := None; link := None;
       notes := None |};
    {| service := "Limpieza"; provider := "D"; rating := 3; review_count := 7;
       price := Some 9%float; currency := Some "EUR"; pricing_unit := None;
       link := None; notes := None |};
    option_B ].

Definition demo_heap : heap := {[ 1%positive := ListObj demo_options ]}.

Definition run_init (options : list ServiceOption) : result ServiceRepository * heap :=
  @ServiceRepository_init ascii_methods 1%positive {[ 1%positive := ListObj options ]}.

Definition demo_repository : ServiceRepository :=
  match (run_init demo_options).1 with
  | Ok self => self
  | Raise _ => {| _options := 1%positive; _index := 1%positive |}
  end.

Definition demo_built_heap : heap := (run_init demo_options).2.

Lemma demo_built :
  @built ascii_methods demo_options demo_repository demo_built_heap.
Proof.
  exists demo_heap, 1%positive, demo_built_heap.
  split; [reflexivity|]. split; [by vm_compute|done].
Qed.

Lemma normalize_fontanero :
  @_normalize_service_name ascii_methods "  Fontanero " = "fontanero"
  ∧ @_normalize_service_name ascii_methods "fontanero" = "fontanero".
Proof. by vm_compute. Qed.

(** The two spellings share one bucket, while [services] still reports
    each raw string. *)
Lemma demo_queries :
  provider <$> @for_service_view ascii_methods demo_options "  Fontanero "
    = ["B"; "C"; "A"]
  ∧ provider <$> @for_service_view ascii_methods demo_options "fontanero"
    = ["B"; "C"; "A"]
  ∧ @for_service_view ascii_methods demo_options "electricista" = []
  ∧ services_view demo_options = ["  Fontanero "; "Limpieza"; "fontanero"].
Proof. by vm_compute. Qed.

Section repository_claims.
Context `{StrMethods}.
Implicit Types (h : heap) (opts : list ServiceOption) (self : ServiceRepository).

(** What C5 says of the list [items] returned for [name]. *)
Definition for_service_claim opts (name : string) (items : list ServiceOption) : Prop :=
  let bucket := bucket_of opts (_normalize_service_name name) in
  (bucket = [] → items = [])
  ∧ items ≡ₚ bucket
  ∧ StronglySorted
      (λ a b, py_le (for_service_key a) (for_service_key b) = true) items
  ∧ stable for_service_key bucket items.

(** What C5 says of the repositories built from [opts]. *)
Definition for_service_sorted_claim opts (name : string) : Prop :=
  ∀ self h, built opts self h →
    ∃ r h' items, for_service self name h = (Ok r, h')
      ∧ h' !! r = Some (ListObj items) ∧ for_service_claim opts name items.

(** C5 (amended): [for_service] never raises and returns the empty list when
    no option is indexed under the normalized name; the list it returns is
    the bucket reordered; and when no option of the bucket has a [nan]
    rating or price, it is sorted by the key (-rating, -review_count, price,
    with +infinity for a missing price) with equal keys in their input
    order, and it is the one list that is so: what every stable sort
    returns. *)
Theorem for_service_sorted opts (name : string) self h :
  built opts self h →
  ∃ r h' items, for_service self name h = (Ok r, h')
    ∧ h' !! r = Some (ListObj items)
    ∧ (bucket_of opts (_normalize_service_name name) = [] → items = [])
    ∧ items ≡ₚ bucket_of opts (_normalize_service_name name)
    ∧ ((∀ o, o ∈ bucket_of opts (_normalize_service_name name) → nan_free o = true) →
       StronglySorted
         (λ a b, py_le (for_service_key a) (for_service_key b) = true) items
       ∧ stable for_service_key (bucket_of opts (_normalize_service_name name)) items
       ∧ ∀ items',
           items' ≡ₚ bucket_of opts (_normalize_service_name name) →
           StronglySorted
             (λ a b, py_le (for_service_key a) (for_service_key b) = true) items' →
           stable for_service_key (bucket_of opts (_normalize_service_name name))
             items' →
           items' = items).
Proof.
  intros Hb.
  destruct (for_service_built opts self h name Hb) as (r & h' & Hrun & _ & _ & Hr & _).
  exists r, h', (for_service_view opts name). split; [done|]. split; [done|].
  split; [apply for_service_view_nil|].
  split; [apply sorted_perm|].
  intros Hn.
  assert (keys_ok for_service_key (bucket_of opts (_normalize_service_name name)))
    as Hok by (intros o Ho; apply for_service_key_ok; by apply Hn).
  split; [by apply sorted_sorted|]. split; [apply sorted_stable|].
  intros items' Hperm Hsorted Hstable. by apply sorted_unique.
Qed.

(** C6: two names that normalize equal get lists of identical content, one
    call after the other; and two options whose service strings normalize
    equal are in one bucket of the index. *)
Theorem for_service_normalized opts self h :
  built opts self h →
  (∀ n1 n2 : string, _normalize_service_name n1 = _normalize_service_name n2 →
     ∃ r1 h1 r2 h2 items,
       for_service self n1 h = (Ok r1, h1) ∧ for_service self n2 h1 = (Ok r2, h2)
       ∧ h2 !! r1 = Some (ListObj items) ∧ h2 !! r2 = Some (ListObj items))
  ∧ (∀ o1 o2, o1 ∈ opts → o2 ∈ opts →
       _normalize_service_name (service o1) = _normalize_service_name (service o2) →
       ∃ d b items, h !! _index self = Some (DictObj d)
         ∧ d !! _normalize_service_name (service o1) = Some b
         ∧ d !! _normalize_service_name (service o2) = Some b
         ∧ h !! b = Some (ListObj items) ∧ o1 ∈ items ∧ o2 ∈ items).
Proof.
  intros Hb. split.
  - intros n1 n2 Hn.
    destruct (for_service_built opts self h n1 Hb) as (r1 & h1 & Hrun1 & _ & _ & Hr1 & Hb1).
    destruct (for_service_built opts self h1 n2 Hb1) as (r2 & h2 & Hrun2 & _ & Hsub & Hr2 & _).
    exists r1, h1, r2, h2, (for_service_view opts n1).
    split; [done|]. split; [done|]. split; [by eapply lookup_weaken|].
    rewrite Hr2. unfold for_service_view. by rewrite Hn.
  - intros o1 o2 Ho1 Ho2 Hn.
    destruct (built_represents opts self h Hb) as (_ & d & Hd & Hbuckets).
    specialize (Hbuckets (_normalize_service_name (service o1))).
    assert (o1 ∈ bucket_of opts (_normalize_service_name (service o1))) as Hin1
      by (by apply list_elem_of_filter).
    assert (o2 ∈ bucket_of opts (_normalize_service_name (service o1))) as Hin2
      by (by apply list_elem_of_filter).
    destruct (d !! _normalize_service_name (service o1)) as [b|] eqn:Hk.
    + destruct Hbuckets as [Hbucket _].
      exists d, b, (bucket_of opts (_normalize_service_name (service o1))).
      rewrite <- Hn. by repeat split.
    + rewrite Hbuckets in Hin1. by apply elem_of_nil in Hin1.
Qed.

(** C7: [services] returns the distinct raw service strings of the indexed
    options, each once, in ascending order; none when there is no option. *)
Theorem services_sorted_distinct opts self h :
  built opts self h →
  ∃ r h' names, services self h = (Ok r, h')
    ∧ h' !! r = Some (StrListObj names)
    ∧ NoDup names
    ∧ StronglySorted (λ a b : string, String.ltb a b = true) names
    ∧ (∀ s, s ∈ names ↔ ∃ o, o ∈ opts ∧ service o = s)
    ∧ (opts = [] → names = []).
Proof.
  intros Hb.
  destruct (services_built opts self h Hb) as (r & h' & Hrun & _ & _ & Hr & _).
  exists r, h', (services_view opts). split; [done|]. split; [done|].
  split; [apply services_view_NoDup|]. split; [apply services_view_sorted|].
  split; [apply services_view_elem|]. intros ->. apply services_view_nil.
Qed.

(** C8: construction copies the caller's list into a new object and leaves
    every object of the heap as it was; whatever the caller's list becomes
    afterwards, the repository is the one built. [services] and
    [for_service] return a new list each time, leave every object as it was,
    the snapshot and the index included, and their result is a function of
    the snapshot and the name alone. A selection function reads the list it
    is given and changes no object. *)
Theorem repository_frame :
  (∀ h options opts, h !! options = Some (ListObj opts) →
     ∃ self h', ServiceRepository_init options h = (Ok self, h')
       ∧ h ⊆ h' ∧ footprint h' self ## dom h
       ∧ h' !! _options self = Some (ListObj opts)
       ∧ ∀ o, built opts self (<[options := o]> h'))
  ∧ (∀ opts self h, built opts self h →
       (∃ r h', services self h = (Ok r, h') ∧ (r ∉ dom h) ∧ h ⊆ h'
          ∧ h' !! r = Some (StrListObj (services_view opts)) ∧ built opts self h')
       ∧ (∀ name, ∃ r h', for_service self name h = (Ok r, h') ∧ (r ∉ dom h) ∧ h ⊆ h'
            ∧ h' !! r = Some (ListObj (for_service_view opts name))
            ∧ built opts self h'))
  ∧ (∀ A (f : list ServiceOption → result A) l items h,
       h !! l = Some (ListObj items) → call_on_list f l h = (f items, h)).
Proof.
  split; [|split].
  - intros h options opts Hopts.
    destruct (init_built h options opts Hopts) as (self & h' & Hinit & Hsub & Hdisj & Hb).
    exists self, h'. split; [done|]. split; [done|]. split; [done|].
    split; [by destruct (built_represents opts self h' Hb)|].
    intros o. apply (built_frame opts self h' _ Hb). intros l Hl.
    apply lookup_insert_ne. intros <-. apply (Hdisj options Hl).
    apply elem_of_dom. eauto.
  - intros opts self h Hb. split; [by apply services_built|].
    intros name. by apply for_service_built.
  - intros A f l items h Hl. unfold call_on_list.
    by rewrite (M_bind_Ok _ _ _ _ _ (iter_list_run h l items Hl)).
Qed.

End repository_claims.

(** C5, counterexample: the bucket with ratings 3, [nan], 5 comes back in
    that order, the 3 before the 5 although the key of the 5 is the smaller
    one. A [nan] price before a price of 5, on equal rating and review
    count, stays first as well. *)
Lemma for_service_nan_counterexample :
  ¬ @for_service_sorted_claim ascii_methods
      [option_3; option_nan; option_5] "fontanero"
  ∧ @for_service_view ascii_methods [option_3; option_nan; option_5] "fontanero"
    = [option_3; option_nan; option_5]
  ∧ py_lt (for_service_key option_5) (for_service_key option_3) = true
  ∧ ¬ @for_service_sorted_claim ascii_methods
        [option_nan_price; option_price_5] "fontanero".
Proof.
  assert (∀ opts, ∃ self h, @built ascii_methods opts self h) as Hbuilt.
  { intros opts.
    assert (({[ 1%positive := ListObj opts ]} : heap) !! 1%positive
            = Some (ListObj opts)) as Hl by apply lookup_singleton_eq.
    destruct (@init_built ascii_methods _ _ _ Hl) as (self & h & _ & _ & _ & Hb).
    by exists self, h. }
  assert (∀ opts, @for_service_sorted_claim ascii_methods opts "fontanero" →
            StronglySorted
              (λ a b, py_le (for_service_key a) (for_service_key b) = true)
              (@for_service_view ascii_methods opts "fontanero")) as Hview.
  { intros opts Hc. destruct (Hbuilt opts) as (self & h & Hb).
    destruct (Hc self h Hb) as (r & h' & items & Hrun & Hr & _ & _ & Hsorted & _).
    destruct (@for_service_built ascii_methods _ self h "fontanero" Hb)
      as (r' & h'' & Hrun' & _ & _ & Hr' & _).
    rewrite Hrun in Hrun'. injection Hrun' as <- <-.
    rewrite Hr in Hr'. by injection Hr' as ->. }
  split; [|split; [by vm_compute|split; [by vm_compute|]]].
  - intros Hc. apply Hview in Hc. vm_compute in Hc.
    inversion Hc as [|? ? _ Hall]. subst.
    inversion Hall as [|? ? _ Hall']. subst.
    inversion Hall' as [|? ? Hle _]. discriminate Hle.
  - intros Hc. apply Hview in Hc. vm_compute in Hc.
    inversion Hc as [|? ? _ Hall]. subst.
    inversion Hall as [|? ? Hle _]. discriminate Hle.
Qed.

Lemma for_service_sorted_witness :
  ∃ r h' items,
    @for_service ascii_methods demo_repository "FONTANERO " demo_built_heap = (Ok r, h')
    ∧ h' !! r = Some (ListObj items)
    ∧ @for_service_claim ascii_methods demo_options "FONTANERO " items.
Proof.
  destruct (@for_service_sorted ascii_methods demo_options "FONTANERO "
              demo_repository demo_built_heap demo_built)
    as (r & h' & items & Hrun & Hr & Hnil & Hperm & Hfree).
  exists r, h', items. split; [exact Hrun|]. split; [exact Hr|].
  split; [exact Hnil|]. split; [exact Hperm|].
  destruct Hfree as (Hsorted & Hstable & _); [|by split].
  vm_compute. intros o Ho.
  repeat (apply elem_of_cons in Ho as [->|Ho]; [reflexivity|]).
  by apply elem_of_nil in Ho.
Defined.

Lemma for_service_normalized_witness :
  ∃ r1 h1 r2 h2 items,
    @for_service ascii_methods demo_repository "  Fontanero " demo_built_heap = (Ok r1, h1)
    ∧ @for_service ascii_methods demo_repository "fontanero" h1 = (Ok r2, h2)
    ∧ h2 !! r1 = Some (ListObj items) ∧ h2 !! r2 = Some (ListObj items).
Proof.
  apply (proj1 (@for_service_normalized ascii_methods demo_options
                  demo_repository demo_built_heap demo_built)).
  reflexivity.
Defined.

Lemma services_sorted_distinct_witness :
  ∃ r h' names, services demo_repository demo_built_heap = (Ok r, h')
    ∧ h' !! r = Some (StrListObj names)
    ∧ NoDup names
    ∧ StronglySorted (λ a b : string, String.ltb a b = true) names
    ∧ (∀ s, s ∈ names ↔ ∃ o, o ∈ demo_options ∧ service o = s)
    ∧ (demo_options = [] → names = []).
Proof.
  exact (@services_sorted_distinct ascii_methods demo_options
           demo_repository demo_built_heap demo_built).
Defined.

Lemma repository_frame_witness :
  ∃ self h', @ServiceRepository_init ascii_methods 1%positive demo_heap = (Ok self, h')
    ∧ demo_heap ⊆ h' ∧ footprint h' self ## dom demo_heap
    ∧ h' !! _options self = Some (ListObj demo_options)
    ∧ ∀ o, @built ascii_methods demo_options self (<[1%positive := o]> h').
Proof.
  apply (proj1 (@repository_frame ascii_methods) demo_heap 1%positive demo_options).
  reflexivity.
Defined.


(** * Further properties of the selection functions and the repository *)

(** ** What [min] and [max] guarantee on every input, [nan] included *)

Section pick_facts.
Context {A K : Type} `{HL : PyOrdLaws K}.
Implicit Types (k : A → K).

Lemma py_lt_irrefl (a : K) : py_lt a a = false.
Proof.
  destruct (py_lt a a) eqn:L; [|done]. by rewrite (py_lt_asym _ _ L) in L.
Qed.

(** No key is strictly below the key of the pick of [min]. *)
Lemma pick_lt_minimal k items m x :
  x ∈ m :: items → py_lt (k x) (k (pick py_lt k items m)) = false.
Proof.
  cut (∀ done m, (∀ y, y ∈ done → py_lt (k y) (k m) = false) →
         ∀ y, y ∈ done ++ items → py_lt (k y) (k (pick py_lt k items m)) = false).
  { intros C Hx. apply (C [m] m); [|done].
    intros y Hy. apply list_elem_of_singleton in Hy as ->. apply py_lt_irrefl. }
  clear m x. induction items as [|x rest IH]; intros done m Hdone y Hy.
  { rewrite app_nil_r in Hy. by apply Hdone. }
  simpl. replace (done ++ x :: rest) with ((done ++ [x]) ++ rest) in Hy
    by (by rewrite <- app_assoc).
  destruct (py_lt (k x) (k m)) eqn:L.
  - apply (IH (done ++ [x])); [|done]. intros z Hz.
    apply elem_of_app in Hz as [Hz|Hz].
    + apply not_true_is_false. intros Lz.
      pose proof (py_lt_trans _ _ _ Lz L) as Lm. by rewrite (Hdone z Hz) in Lm.
    + apply list_elem_of_singleton in Hz as ->. apply py_lt_irrefl.
  - apply (IH (done ++ [x])); [|done]. intros z Hz.
    apply elem_of_app in Hz as [Hz|Hz]; [by apply Hdone|].
    by apply list_elem_of_singleton in Hz as ->.
Qed.

End pick_facts.

(** No key is strictly above the key of the pick of [max]. *)
Lemma pick_gt_maximal {A K} `{HL : PyOrdLaws K} (k : A → K) items m x :
  x ∈ m :: items → py_gt (k x) (k (pick py_gt k items m)) = false.
Proof.
  intros Hx.
  exact (@pick_lt_minimal A K (flip_ord H) flip_ord_laws k items m x Hx).
Qed.

(** ** [max] and [min] on keys that hold shared objects *)

(** What holds of [<] and of the equality of items on every key, also where
    an object is equal to itself without being [==] to itself. *)
Class PyStrictLaws (K : Type) `{PyOrd K} : Prop := {
  strict_eq_sym : ∀ a b : K, py_eq a b = py_eq b a;
  strict_eq_trans : ∀ a b c : K,
    py_eq a b = true → py_eq b c = true → py_eq a c = true;
  strict_lt_not_eq : ∀ a b : K, py_lt a b = true → py_eq a b = false;
  strict_lt_asym : ∀ a b : K, py_lt a b = true → py_lt b a = false;
  strict_lt_trans : ∀ a b c : K,
    py_lt a b = true → py_lt b c = true → py_lt a c = true;
  strict_lt_eq_trans : ∀ a b c : K,
    py_lt a b = true → py_eq b c = true → py_lt a c = true;
  strict_eq_lt_trans : ∀ a b c : K,
    py_eq a b = true → py_lt b c = true → py_lt a c = true
}.

Global Instance strict_of_laws {K} `{HL : PyOrdLaws K} : PyStrictLaws K.
Proof.
  split; [apply py_eq_sym|apply py_eq_trans|apply py_lt_not_eq|apply py_lt_asym
         |apply py_lt_trans|apply py_lt_eq_trans|apply py_eq_lt_trans].
Qed.

Lemma same_or_eq_true (a b : float_object) :
  same_or_eq a b = true
  ↔ PrimFloat.is_nan (float_value a) = true
    ∧ PrimFloat.is_nan (float_value b) = true ∧ float_at a = float_at b
    ∨ PrimFloat.eqb (float_value a) (float_value b) = true.
Proof.
  unfold same_or_eq.
  rewrite orb_true_iff, !andb_true_iff, bool_decide_eq_true. tauto.
Qed.

(** [same_or_eq] is [a is b or a == b], where two objects at one location
    are one object. *)
Lemma same_or_eq_is (a b : float_object) :
  (float_at a = float_at b → float_value a = float_value b) →
  same_or_eq a b
  = bool_decide (float_at a = float_at b)
    || PrimFloat.eqb (float_value a) (float_value b).
Proof.
  intros Hone. unfold same_or_eq.
  destruct (bool_decide_reflect (float_at a = float_at b)) as [Hat|Hat];
    [|by rewrite andb_false_r].
  rewrite andb_true_r, (Hone Hat), andb_diag. simpl.
  destruct (PrimFloat.is_nan (float_value b)) eqn:Hn; [done|]. simpl.
  pose proof (@py_eq_refl float float_ord float_ord_laws (float_value b)) as R.
  simpl in R. rewrite R; [done|by rewrite Hn].
Qed.

Global Instance float_object_strict : PyStrictLaws float_object.
Proof.
  pose proof (@py_eq_sym float float_ord float_ord_laws) as Hsym.
  pose proof (@py_eq_trans float float_ord float_ord_laws) as Heq.
  pose proof (@py_lt_not_eq float float_ord float_ord_laws) as Hne.
  pose proof (@py_lt_eq_trans float float_ord float_ord_laws) as Hle.
  pose proof (@py_eq_lt_trans float float_ord float_ord_laws) as Hel.
  simpl in Hsym, Heq, Hne, Hle, Hel.
  split; simpl.
  - intros a b. apply eq_true_iff_eq. rewrite !same_or_eq_true.
    rewrite (Hsym (float_value a) (float_value b)).
    split; (intros [(? & ? & ?)|?]; [left|right]; by repeat split).
  - intros a b c. rewrite !same_or_eq_true.
    intros [(Ha & Hb & Hab)|Eab] [(Hb' & Hc & Hbc)|Ebc].
    + left. repeat split; [done|done|congruence].
    + apply float_eqb_rank in Ebc as (Hb'' & _). congruence.
    + apply float_eqb_rank in Eab as (_ & Hb'' & _). congruence.
    + right. exact (Heq _ _ _ Eab Ebc).
  - intros a b L. apply not_true_is_false. rewrite same_or_eq_true.
    intros [(Ha & _)|E].
    + apply float_ltb_rank in L as (Ha' & _). congruence.
    + rewrite (Hne _ _ L) in E. discriminate E.
  - intros a b. apply (@py_lt_asym float float_ord float_ord_laws).
  - intros a b c. apply (@py_lt_trans float float_ord float_ord_laws).
  - intros a b c L. rewrite same_or_eq_true. intros [(Hb & _)|E].
    + apply float_ltb_rank in L as (_ & Hb' & _). congruence.
    + exact (Hle _ _ _ L E).
  - intros a b c. rewrite same_or_eq_true. intros [(_ & Hb & _)|E] L.
    + apply float_ltb_rank in L as (Hb' & _). congruence.
    + exact (Hel _ _ _ E L).
Qed.

Global Instance tuple_strict {A B} `{PyStrictLaws A} `{PyStrictLaws B} :
  PyStrictLaws (A * B).
Proof.
  split; simpl.
  - intros [a1 a2] [b1 b2]; simpl.
    by rewrite (strict_eq_sym a1 b1), (strict_eq_sym a2 b2).
  - intros [a1 a2] [b1 b2] [c1 c2]; simpl. rewrite !andb_true_iff.
    intros [? ?] [? ?]. eauto using strict_eq_trans.
  - intros [a1 a2] [b1 b2]; simpl.
    destruct (py_eq a1 b1) eqn:E; simpl; [apply strict_lt_not_eq | done].
  - intros [a1 a2] [b1 b2]; simpl. rewrite (strict_eq_sym b1 a1).
    destruct (py_eq a1 b1) eqn:E; apply strict_lt_asym.
  - intros [a1 a2] [b1 b2] [c1 c2]; simpl.
    destruct (py_eq a1 b1) eqn:E1, (py_eq b1 c1) eqn:E2; intros L1 L2.
    + rewrite (strict_eq_trans _ _ _ E1 E2). eauto using strict_lt_trans.
    + destruct (py_eq a1 c1) eqn:E3; [|eauto using strict_eq_lt_trans].
      rewrite strict_eq_sym in E1. rewrite (strict_eq_trans _ _ _ E1 E3) in E2. done.
    + destruct (py_eq a1 c1) eqn:E3; [|eauto using strict_lt_eq_trans].
      rewrite strict_eq_sym in E2. rewrite (strict_eq_trans _ _ _ E3 E2) in E1. done.
    + pose proof (strict_lt_trans _ _ _ L1 L2) as L3.
      by rewrite (strict_lt_not_eq _ _ L3).
  - intros [a1 a2] [b1 b2] [c1 c2]; simpl. rewrite andb_true_iff.
    destruct (py_eq a1 b1) eqn:E1; intros L1 [E2 E3].
    + rewrite (strict_eq_trans _ _ _ E1 E2). eauto using strict_lt_eq_trans.
    + destruct (py_eq a1 c1) eqn:E4; [|eauto using strict_lt_eq_trans].
      rewrite strict_eq_sym in E2. rewrite (strict_eq_trans _ _ _ E4 E2) in E1. done.
  - intros [a1 a2] [b1 b2] [c1 c2]; simpl. rewrite andb_true_iff.
    destruct (py_eq b1 c1) eqn:E1; intros [E2 E3] L1.
    + rewrite (strict_eq_trans _ _ _ E2 E1). eauto using strict_eq_lt_trans.
    + destruct (py_eq a1 c1) eqn:E4; [|eauto using strict_eq_lt_trans].
      rewrite strict_eq_sym in E2. rewrite (strict_eq_trans _ _ _ E2 E4) in E1. done.
Qed.

(** The pick of the loop has no item before it in a comparison that is
    irreflexive and transitive. *)
Lemma pick_no_better {A K} (op : K → K → bool) (k : A → K) items m x :
  (∀ a, op a a = false) →
  (∀ a b c, op a b = true → op b c = true → op a c = true) →
  x ∈ m :: items → op (k x) (k (pick op k items m)) = false.
Proof.
  intros Hirr Htrans.
  cut (∀ done m, (∀ y, y ∈ done → op (k y) (k m) = false) →
         ∀ y, y ∈ done ++ items → op (k y) (k (pick op k items m)) = false).
  { intros C Hx. apply (C [m] m); [|done].
    intros y Hy. apply list_elem_of_singleton in Hy as ->. apply Hirr. }
  clear m x. induction items as [|x rest IH]; intros done m Hdone y Hy.
  { rewrite app_nil_r in Hy. by apply Hdone. }
  simpl. replace (done ++ x :: rest) with ((done ++ [x]) ++ rest) in Hy
    by (by rewrite <- app_assoc).
  destruct (op (k x) (k m)) eqn:L.
  - apply (IH (done ++ [x])); [|done]. intros z Hz.
    apply elem_of_app in Hz as [Hz|Hz].
    + apply not_true_is_false. intros Lz.
      pose proof (Htrans _ _ _ Lz L) as Lm. by rewrite (Hdone z Hz) in Lm.
    + apply list_elem_of_singleton in Hz as ->. apply Hirr.
  - apply (IH (done ++ [x])); [|done]. intros z Hz.
    apply elem_of_app in Hz as [Hz|Hz]; [by apply Hdone|].
    by apply list_elem_of_singleton in Hz as ->.
Qed.

Lemma strict_lt_irrefl {K} `{PyStrictLaws K} (a : K) : py_lt a a = false.
Proof.
  destruct (py_lt a a) eqn:L; [|done]. by rewrite (strict_lt_asym _ _ L) in L.
Qed.

Lemma pick_lt_least {A K} `{PyStrictLaws K} (k : A → K) items m x :
  x ∈ m :: items → py_lt (k x) (k (pick py_lt k items m)) = false.
Proof.
  apply pick_no_better; [apply strict_lt_irrefl|apply strict_lt_trans].
Qed.

Lemma pick_gt_greatest {A K} `{PyStrictLaws K} (k : A → K) items m x :
  x ∈ m :: items → py_gt (k x) (k (pick py_gt k items m)) = false.
Proof.
  apply pick_no_better; unfold py_gt; [apply strict_lt_irrefl|].
  intros a b c Lba Lcb. exact (strict_lt_trans _ _ _ Lcb Lba).
Qed.

(** Two options that hold one [nan] object as their rating, and a third that
    holds a [nan] object of its own. *)
Definition shared_1 : OptionObject :=
  {| option_value := sample "n1" nan 1 None; rating_at := 7%positive; price_at := 1%positive |}.
Definition shared_2 : OptionObject :=
  {| option_value := sample "n2" nan 2 None; rating_at := 7%positive; price_at := 2%positive |}.
Definition apart_2 : OptionObject :=
  {| option_value := sample "n2" nan 2 None; rating_at := 8%positive; price_at := 2%positive |}.

(** On the shared object the ratings agree and the review count decides; on
    two objects the first option stays, as it does in the comparison by
    value. *)
Lemma best_rated_shared_nan :
  best_rated_objects [shared_1; shared_2] = Ok (Some shared_2)
  ∧ best_rated_objects [shared_1; apart_2] = Ok (Some shared_1)
  ∧ best_rated [option_value shared_1; option_value shared_2]
    = Ok (Some (option_value shared_1)).
Proof. by vm_compute. Qed.

Lemma best_rated_objects_cons x rest :
  best_rated_objects (x :: rest)
  = Ok (Some (pick py_gt best_rated_key_objects rest x)).
Proof.
  unfold best_rated_objects, _best_option_objects, builtin_max.
  by rewrite (min_max_pick py_gt _ best_rated_key_objects).
Qed.

Lemma pick_fmap {A B K1 K2} (f : A → B) (op1 : K1 → K1 → bool)
    (op2 : K2 → K2 → bool) (k1 : A → K1) (k2 : B → K2) items m :
  (∀ x y, x ∈ m :: items → y ∈ m :: items →
     op1 (k1 x) (k1 y) = op2 (k2 (f x)) (k2 (f y))) →
  f (pick op1 k1 items m) = pick op2 k2 (f <$> items) (f m).
Proof.
  revert m. induction items as [|x rest IH]; intros m Hop; [done|].
  simpl. rewrite <- (Hop x m); [|right; left|left].
  destruct (op1 (k1 x) (k1 m)); apply IH; intros y z Hy Hz; apply Hop.
  - apply elem_of_cons in Hy as [->|Hy]; [right; left|by do 2 right].
  - apply elem_of_cons in Hz as [->|Hz]; [right; left|by do 2 right].
  - apply elem_of_cons in Hy as [->|Hy]; [left|by do 2 right].
  - apply elem_of_cons in Hz as [->|Hz]; [left|by do 2 right].
Qed.

(** Where no rating is [nan] the objects do not matter: [best_rated] on the
    objects is [best_rated] on their values. *)
Lemma best_rated_objects_value (options : list OptionObject) :
  (∀ o, o ∈ options → PrimFloat.is_nan (rating (option_value o)) = false) →
  best_rated (option_value <$> options)
  = match best_rated_objects options with
    | Ok r => Ok (option_value <$> r)
    | Raise e => Raise e
    end.
Proof.
  destruct options as [|o rest]; [done|]. intros Hn.
  rewrite best_rated_objects_cons, fmap_cons, best_rated_cons. simpl.
  do 2 f_equal. symmetry. apply pick_fmap. intros x y Hx Hy.
  unfold py_gt, best_rated_key_objects, best_rated_key. simpl.
  unfold same_or_eq. simpl. by rewrite (Hn y Hy).
Qed.

(** X1: with the float objects of the options told apart, on every
    non-empty input ([nan] ratings and prices included, shared or not)
    [best_rated] returns an option of the input, and no option of the input
    has a key (rating, review_count, -price) greater than the key of the
    one returned, as tuples compare. *)
Theorem best_rated_maximal (options : list OptionObject) :
  options ≠ [] →
  ∃ m, best_rated_objects options = Ok (Some m) ∧ m ∈ options
    ∧ ∀ x, x ∈ options →
        py_gt (best_rated_key_objects x) (best_rated_key_objects m) = false.
Proof.
  destruct options as [|o rest]; [done|]. intros _.
  exists (pick py_gt best_rated_key_objects rest o).
  split; [apply best_rated_objects_cons|]. split; [apply pick_in|].
  intros x Hx. by apply pick_gt_greatest.
Qed.

Lemma best_rated_maximal_witness :
  ∃ m, best_rated_objects [shared_1; shared_2] = Ok (Some m)
    ∧ m ∈ [shared_1; shared_2]
    ∧ ∀ x, x ∈ [shared_1; shared_2] →
        py_gt (best_rated_key_objects x) (best_rated_key_objects m) = false.
Proof. apply (best_rated_maximal [shared_1; shared_2]). discriminate. Defined.

(** Two priced options that hold one [nan] object as their price. *)
Definition shared_price_1 : OptionObject :=
  {| option_value := sample "p1" 4 1 (Some nan); rating_at := 1%positive; price_at := 9%positive |}.
Definition shared_price_2 : OptionObject :=
  {| option_value := sample "p2" 4 2 (Some nan); rating_at := 2%positive; price_at := 9%positive |}.

Lemma cheapest_shared_nan :
  cheapest_objects [shared_price_1; shared_price_2] = Ok (Some shared_price_2)
  ∧ cheapest [option_value shared_price_1; option_value shared_price_2]
    = Ok (Some (option_value shared_price_1)).
Proof. by vm_compute. Qed.

(** X2: with the float objects of the options told apart, [cheapest]
    returns on every input: the key is never built for an option without a
    price. The result is [None] exactly when no option has a price;
    otherwise it is a priced option of the input, and no priced option has a
    key (price, -rating, -review_count) less than the key of the one
    returned, as tuples compare ([nan] included, shared or not). *)
Theorem cheapest_minimal (options : list OptionObject) :
  ∃ r, cheapest_objects options = Ok r
    ∧ match r with
      | None => ∀ o, o ∈ options → price_known (option_value o) = false
      | Some m =>
          m ∈ options ∧ price_known (option_value m) = true
          ∧ ∀ c kc km, c ∈ options → cheapest_key_objects c = Ok kc →
              cheapest_key_objects m = Ok km → py_lt kc km = false
      end.
Proof.
  assert (∀ o, price_known (option_value o) = true →
            cheapest_key_objects o
            = Ok (key_or (Build_float_object nan 1%positive, nan, 0%Z) cheapest_key_objects o))
    as Hkey.
  { intros o Hk. unfold key_or, cheapest_key_objects, price_known in *.
    by destruct (price (option_value o)). }
  assert (∀ o, o ∈ filter (λ option, price_known (option_value option)) options
               ↔ o ∈ options ∧ price_known (option_value o) = true) as Hfilter.
  { intros o. rewrite list_elem_of_filter, Is_true_true. tauto. }
  unfold cheapest_objects.
  destruct (filter (λ option, price_known (option_value option)) options)
    as [|x rest] eqn:E.
  - exists None. split; [done|]. intros o Ho.
    destruct (price_known (option_value o)) eqn:Hk; [|done].
    assert (o ∈ @nil OptionObject) as Hin by (by apply Hfilter).
    by apply elem_of_nil in Hin.
  - set (k := key_or (Build_float_object nan 1%positive, nan, 0%Z) cheapest_key_objects).
    exists (Some (pick py_lt k rest x)).
    assert (pick py_lt k rest x ∈ x :: rest) as Hm by apply pick_in.
    split.
    + unfold builtin_min. rewrite (min_max_pick py_lt _ k); [done|].
      intros y Hy. apply Hkey. by apply Hfilter.
    + apply Hfilter in Hm as [Hm Hmk]. split; [done|]. split; [done|].
      intros c kc km Hc Hkc Hkm.
      assert (price_known (option_value c) = true) as Hck.
      { unfold cheapest_key_objects, price_known in *.
        by destruct (price (option_value c)). }
      assert (c ∈ x :: rest) as Hc' by (by apply Hfilter).
      rewrite (Hkey c Hck) in Hkc. rewrite (Hkey _ Hmk) in Hkm.
      injection Hkc as <-. injection Hkm as <-.
      exact (pick_lt_least k rest x c Hc').
Qed.

(** X3: whenever [best_value] returns an option while some option is priced
    above zero, the option returned is priced above zero and no such option
    has a key (score, rating, review_count) strictly greater, [nan] scores
    included. *)
Theorem best_value_maximal (options : list ServiceOption) m :
  best_value options = Ok (Some m) →
  (∃ o, o ∈ options ∧ price_positive o = true) →
  m ∈ options ∧ price_positive m = true
  ∧ ∀ c kc km, c ∈ options → price_positive c = true →
      best_value_key c = Ok kc → best_value_key m = Ok km →
      py_gt kc km = false.
Proof.
  intros Hbest (o & Ho & Hp).
  destruct (filter (λ option, price_positive option) options) as [|x rest] eqn:E.
  { rewrite (proj1 (positive_filter_nil options) E o Ho) in Hp. done. }
  rewrite (best_value_priced options x rest E) in Hbest.
  destruct (builtin_max best_value_key (x :: rest)) as [m'|] eqn:R; [|done].
  simpl in Hbest. injection Hbest as ->. unfold builtin_max in R.
  set (k := key_or (nan, nan, 0%Z) best_value_key).
  assert (∀ y, y ∈ x :: rest → best_value_key y = Ok (k y)) as Hkey.
  { intros y Hy. destruct (min_max_keys _ _ _ _ R y Hy) as [w Hw].
    by eapply key_or_Ok. }
  rewrite (min_max_pick py_gt _ k x rest Hkey) in R. injection R as <-.
  assert (pick py_gt k rest x ∈ x :: rest) as Hin by apply pick_in.
  pose proof Hin as Hin'. rewrite <- E in Hin'.
  apply elem_of_positive in Hin' as [Hopt Hpos].
  split; [done|]. split; [done|].
  intros c kc km Hc Hcp Hkc Hkm.
  assert (c ∈ x :: rest) as Hc' by (rewrite <- E; by apply elem_of_positive).
  rewrite (Hkey c Hc') in Hkc. rewrite (Hkey _ Hin) in Hkm.
  injection Hkc as <-. injection Hkm as <-.
  exact (pick_gt_maximal k rest x c Hc').
Qed.

Lemma best_value_maximal_witness :
  option_nan ∈ [option_nan; option_5] ∧ price_positive option_nan = true
  ∧ ∀ c kc km, c ∈ [option_nan; option_5] → price_positive c = true →
      best_value_key c = Ok kc → best_value_key option_nan = Ok km →
      py_gt kc km = false.
Proof.
  apply (best_value_maximal [option_nan; option_5] option_nan).
  - by vm_compute.
  - exists option_5. split; [right; left|reflexivity].
Defined.

Lemma cheapest_None_unpriced (options : list ServiceOption) :
  cheapest options = Ok None → ∀ o, o ∈ options → price_known o = false.
Proof.
  intros Hc o Ho. apply not_true_is_false. intros Hk.
  destruct (filter (λ option, price_known option) options) as [|x rest] eqn:E.
  - assert (o ∈ filter (λ option, price_known option) options) as Hin
      by (by apply elem_of_priced).
    rewrite E in Hin. by apply elem_of_nil in Hin.
  - by rewrite (cheapest_priced options x rest E) in Hc.
Qed.

(** X4: when [cheapest] has no result, no option has a price, and
    [best_value] returns what [best_rated] returns. *)
Theorem cheapest_none_best_value (options : list ServiceOption) :
  cheapest options = Ok None →
  (∀ o, o ∈ options → price o = None)
  ∧ best_value options = best_rated options.
Proof.
  intros Hc.
  assert (∀ o, o ∈ options → price o = None) as Hnone.
  { intros o Ho. pose proof (cheapest_None_unpriced options Hc o Ho) as Hk.
    unfold price_known in Hk. by destruct (price o). }
  split; [done|]. apply best_value_unpriced.
  intros o Ho. unfold price_positive. by rewrite (Hnone o Ho).
Qed.

Lemma cheapest_none_best_value_witness :
  (∀ o, o ∈ [option_unpriced] → price o = None)
  ∧ best_value [option_unpriced] = best_rated [option_unpriced].
Proof. apply (cheapest_none_best_value [option_unpriced]). reflexivity. Defined.

(** ** The index and the two queries together *)

Section repository_extras.
Context `{StrMethods}.
Implicit Types (h : heap) (opts : list ServiceOption) (self : ServiceRepository).

Lemma elem_of_bucket_of opts key o :
  o ∈ bucket_of opts key ↔ o ∈ opts ∧ _normalize_service_name (service o) = key.
Proof. unfold bucket_of. rewrite list_elem_of_filter. tauto. Qed.

Lemma bucket_of_nil opts key :
  bucket_of opts key = []
  ↔ ∀ o, o ∈ opts → _normalize_service_name (service o) ≠ key.
Proof.
  split.
  - intros E o Ho Hk. assert (o ∈ bucket_of opts key) as Hin
      by (by apply elem_of_bucket_of).
    rewrite E in Hin. by apply elem_of_nil in Hin.
  - intros Hne. destruct (bucket_of opts key) as [|x rest] eqn:E; [done|].
    assert (x ∈ bucket_of opts key) as Hin by (rewrite E; left).
    apply elem_of_bucket_of in Hin as [Hx Hk]. by destruct (Hne x Hx).
Qed.

(** X5: construction leaves an index whose keys are exactly the normalized
    service names of the options; the list under a key holds the options
    with that normalized name, in input order; and no two keys share a list
    object. *)
Theorem init_index h options opts :
  h !! options = Some (ListObj opts) →
  ∃ self h' d, ServiceRepository_init options h = (Ok self, h')
    ∧ h' !! _index self = Some (DictObj d)
    ∧ (∀ key, is_Some (d !! key)
              ↔ ∃ o, o ∈ opts ∧ _normalize_service_name (service o) = key)
    ∧ (∀ key b, d !! key = Some b →
         h' !! b = Some (ListObj
           (filter (λ o, _normalize_service_name (service o) = key) opts)))
    ∧ (∀ k1 k2 b, d !! k1 = Some b → d !! k2 = Some b → k1 = k2).
Proof.
  intros Hopts.
  destruct (init_built h options opts Hopts) as (self & h' & Hinit & _ & _ & Hb).
  destruct (built_represents opts self h' Hb) as (_ & d & Hd & Hbuckets).
  exists self, h', d. split; [done|]. split; [done|].
  assert (∀ key b, d !! key = Some b →
            h' !! b = Some (ListObj (bucket_of opts key))
            ∧ bucket_of opts key ≠ []) as Hsome.
  { intros key b Hk. specialize (Hbuckets key). by rewrite Hk in Hbuckets. }
  split; [|split].
  - intros key. split.
    + intros [b Hk]. destruct (Hsome key b Hk) as [_ Hne].
      destruct (bucket_of opts key) as [|x rest] eqn:E; [done|].
      exists x. apply elem_of_bucket_of. rewrite E. left.
    + intros (o & Ho & Hk). specialize (Hbuckets key).
      destruct (d !! key) as [b|]; [by eexists|].
      assert (o ∈ bucket_of opts key) as Hin by (by apply elem_of_bucket_of).
      rewrite Hbuckets in Hin. by apply elem_of_nil in Hin.
  - intros key b Hk. by destruct (Hsome key b Hk).
  - intros k1 k2 b H1 H2.
    destruct (Hsome k1 b H1) as [Hc1 Hne], (Hsome k2 b H2) as [Hc2 _].
    rewrite Hc1 in Hc2. injection Hc2 as Heq.
    destruct (bucket_of opts k1) as [|x rest] eqn:E; [done|].
    assert (x ∈ bucket_of opts k1) as Hin1 by (rewrite E; left).
    assert (x ∈ bucket_of opts k2) as Hin2 by (rewrite <- Heq; left).
    apply elem_of_bucket_of in Hin1 as [_ <-].
    by apply elem_of_bucket_of in Hin2 as [_ <-].
Qed.

(** X6: [for_service] returns exactly the indexed options whose service
    name normalizes to the normalized name asked for: every option of the
    snapshot is found again under its own service string, and nothing else
    is. *)
Theorem for_service_members opts self h (name : string) :
  built opts self h →
  ∃ r h' items, for_service self name h = (Ok r, h')
    ∧ h' !! r = Some (ListObj items)
    ∧ length items
      = length (filter (λ o, _normalize_service_name (service o)
                             = _normalize_service_name name) opts)
    ∧ ∀ o, o ∈ items
           ↔ o ∈ opts
             ∧ _normalize_service_name (service o) = _normalize_service_name name.
Proof.
  intros Hb.
  destruct (for_service_built opts self h name Hb) as (r & h' & Hrun & _ & _ & Hr & _).
  exists r, h', (for_service_view opts name). split; [done|]. split; [done|].
  pose proof (sorted_perm for_service_key
                (bucket_of opts (_normalize_service_name name))) as Hperm.
  split; [exact (Permutation_length Hperm)|].
  intros o. unfold for_service_view.
  rewrite (elem_of_Permutation_proper o _ _ Hperm). apply elem_of_bucket_of.
Qed.

(** X7: every name that [services] lists can be asked for: [for_service]
    of it, called next, returns a non-empty list that holds every option
    with that raw service string. *)
Theorem services_can_be_queried opts self h :
  built opts self h →
  ∃ r h1 names, services self h = (Ok r, h1)
    ∧ h1 !! r = Some (StrListObj names)
    ∧ ∀ s, s ∈ names →
        ∃ r' h2 items, for_service self s h1 = (Ok r', h2)
          ∧ h2 !! r' = Some (ListObj items) ∧ items ≠ []
          ∧ ∀ o, o ∈ opts → service o = s → o ∈ items.
Proof.
  intros Hb.
  destruct (services_built opts self h Hb) as (r & h1 & Hrun & _ & _ & Hr & Hb1).
  exists r, h1, (services_view opts). split; [done|]. split; [done|].
  intros s Hs. apply services_view_elem in Hs as (o & Ho & Hos).
  destruct (for_service_built opts self h1 s Hb1) as (r' & h2 & Hrun' & _ & _ & Hr' & _).
  exists r', h2, (for_service_view opts s). split; [done|]. split; [done|].
  assert (∀ o', o' ∈ opts → service o' = s → o' ∈ for_service_view opts s) as Hall.
  { intros o' Ho' Hs'. unfold for_service_view.
    rewrite (elem_of_Permutation_proper o' _ _ (sorted_perm for_service_key _)).
    apply elem_of_bucket_of. split; [done|]. by rewrite Hs'. }
  split; [|done]. intros E. specialize (Hall o Ho Hos). rewrite E in Hall.
  by apply elem_of_nil in Hall.
Qed.

(** The key of [best_rated] is the key of [for_service] negated, so one
    order is the other reversed. *)
Lemma best_rated_key_reversed a b :
  py_lt (best_rated_key a) (best_rated_key b)
  = py_lt (for_service_key b) (for_service_key a).
Proof.
  unfold best_rated_key, for_service_key. simpl.
  rewrite !float_opp_eqb, !float_opp_ltb, !Z.eqb_compare, !Z.ltb_compare.
  rewrite (Z.compare_opp (review_count b) (review_count a)).
  pose proof (py_eq_sym (rating b) (rating a)) as S. simpl in S. rewrite S.
  assert (∀ pa pb : option float,
     PrimFloat.ltb (match pa with Some p => (- p)%float | None => neg_infinity end)
                   (match pb with Some p => (- p)%float | None => neg_infinity end)
     = PrimFloat.ltb (match pb with Some p => p | None => infinity end)
                     (match pa with Some p => p | None => infinity end)) as Hp.
  { intros pa pb. change neg_infinity with (- infinity)%float.
    destruct pa, pb; apply float_opp_ltb. }
  by rewrite Hp.
Qed.

Lemma pick_keep {A K} (op : K → K → bool) (k : A → K) items m :
  (∀ y, y ∈ items → op (k y) (k m) = false) → pick op k items m = m.
Proof.
  induction items as [|y rest IH]; intros Hno; [done|]. simpl.
  rewrite (Hno y) by left. apply IH. intros z Hz. apply Hno. by right.
Qed.

(** X8: when no option of the bucket has a [nan] rating or price, the first
    entry of the list [for_service] returns is the option [best_rated]
    picks from that list. *)
Theorem ranking_head_is_best_rated opts self h (name : string) :
  built opts self h →
  (∀ o, o ∈ opts →
     _normalize_service_name (service o) = _normalize_service_name name →
     nan_free o = true) →
  ∃ r h' items, for_service self name h = (Ok r, h')
    ∧ h' !! r = Some (ListObj items)
    ∧ best_rated items = Ok (head items).
Proof.
  intros Hb Hn.
  destruct (for_service_built opts self h name Hb) as (r & h' & Hrun & _ & _ & Hr & _).
  exists r, h', (for_service_view opts name). split; [done|]. split; [done|].
  assert (StronglySorted
            (λ a b, py_le (for_service_key a) (for_service_key b) = true)
            (for_service_view opts name)) as Hsorted.
  { apply sorted_sorted. intros o Ho. apply for_service_key_ok.
    apply elem_of_bucket_of in Ho as [? ?]. by apply Hn. }
  destruct (for_service_view opts name) as [|x rest]; [done|].
  rewrite best_rated_cons. simpl. do 2 f_equal.
  apply pick_keep. intros y Hy. unfold py_gt.
  rewrite best_rated_key_reversed. apply py_le_not_lt.
  apply StronglySorted_inv in Hsorted as [_ Hall].
  rewrite Forall_forall in Hall. by apply Hall.
Qed.

End repository_extras.

Lemma init_index_witness :
  ∃ self h' d,
    @ServiceRepository_init ascii_methods 1%positive demo_heap = (Ok self, h')
    ∧ h' !! _index self = Some (DictObj d)
    ∧ (∀ key, is_Some (d !! key)
              ↔ ∃ o, o ∈ demo_options
                     ∧ @_normalize_service_name ascii_methods (service o) = key)
    ∧ (∀ key b, d !! key = Some b →
         h' !! b = Some (ListObj
           (filter (λ o, @_normalize_service_name ascii_methods (service o) = key)
                   demo_options)))
    ∧ (∀ k1 k2 b, d !! k1 = Some b → d !! k2 = Some b → k1 = k2).
Proof.
  apply (@init_index ascii_methods demo_heap 1%positive demo_options).
  reflexivity.
Defined.

Lemma for_service_members_witness :
  ∃ r h' items,
    @for_service ascii_methods demo_repository "LIMPIEZA" demo_built_heap = (Ok r, h')
    ∧ h' !! r = Some (ListObj items)
    ∧ length items
      = length (filter (λ o, @_normalize_service_name ascii_methods (service o)
                             = @_normalize_service_name ascii_methods "LIMPIEZA")
                       demo_options)
    ∧ ∀ o, o ∈ items
           ↔ o ∈ demo_options
             ∧ @_normalize_service_name ascii_methods (service o)
               = @_normalize_service_name ascii_methods "LIMPIEZA".
Proof.
  exact (@for_service_members ascii_methods demo_options demo_repository
           demo_built_heap "LIMPIEZA" demo_built).
Defined.

Lemma services_can_be_queried_witness :
  ∃ r h1 names, services demo_repository demo_built_heap = (Ok r, h1)
    ∧ h1 !! r = Some (StrListObj names)
    ∧ ∀ s, s ∈ names →
        ∃ r' h2 items, @for_service ascii_methods demo_repository s h1 = (Ok r', h2)
          ∧ h2 !! r' = Some (ListObj items) ∧ items ≠ []
          ∧ ∀ o, o ∈ demo_options → service o = s → o ∈ items.
Proof.
  exact (@services_can_be_queried ascii_methods demo_options demo_repository
           demo_built_heap demo_built).
Defined.

Lemma ranking_head_is_best_rated_witness :
  ∃ r h' items,
    @for_service ascii_methods demo_repository "fontanero" demo_built_heap = (Ok r, h')
    ∧ h' !! r = Some (ListObj items)
    ∧ best_rated items = Ok (head items).
Proof.
  apply (@ranking_head_is_best_rated ascii_methods demo_options demo_repository
           demo_built_heap "fontanero" demo_built).
  intros o Ho _. vm_compute in Ho.
  repeat (apply elem_of_cons in Ho as [->|Ho]; [reflexivity|]).
  by apply elem_of_nil in Ho.
Defined.

(** * Conversions between numbers and text *)

Lemma pretty_N_go_length (k : nat) (x : N) (s : string) :
  (x < 10 ^ N.of_nat k)%N →
  String.length (pretty_N_go x s) ≤ k + String.length s.
Proof.
  revert x s. induction k as [|k IH]; intros x s Hx.
  { assert (x = 0%N) as -> by (simpl in Hx; lia). rewrite pretty_N_go_0. lia. }
  destruct (decide (x = 0%N)) as [->|Hne]; [rewrite pretty_N_go_0; lia|].
  rewrite pretty_N_go_step by lia.
  etrans; [apply IH|simpl; lia].
  apply N.Div0.div_lt_upper_bound.
  replace (N.of_nat (S k)) with (N.succ (N.of_nat k)) in Hx by lia.
  by rewrite N.pow_succ_r' in Hx.
Qed.

Lemma pretty_abs_length (k : nat) (z : Z) :
  0 < k → (Z.abs z < 10 ^ Z.of_nat k)%Z →
  String.length (pretty (Z.abs z)) ≤ k.
Proof.
  intros Hk Hz.
  assert (∀ p, (Z.pos p < 10 ^ Z.of_nat k)%Z →
               String.length (pretty (Z.pos p)) ≤ k) as Hpos.
  { intros p Hp. change (pretty (Z.pos p)) with (pretty_N_go (N.pos p) "").
    etrans; [apply (pretty_N_go_length k)|simpl; lia].
    apply N2Z.inj_lt. rewrite N2Z.inj_pow, nat_N_Z. exact Hp. }
  destruct z as [|p|p]; simpl in *; [simpl; lia| |]; by apply Hpos.
Qed.

(** An [int] below [10 ^ 4300] in magnitude is formatted. *)
Lemma format_int_small (z : Z) :
  (Z.abs z < 10 ^ Z.of_nat int_max_str_digits)%Z → format_int z = Ok (pretty z).
Proof.
  intros Hz. unfold format_int.
  pose proof (pretty_abs_length int_max_str_digits z) as Hlen.
  assert (0 < int_max_str_digits) as Hpos by (unfold int_max_str_digits; lia).
  specialize (Hlen Hpos Hz).
  destruct (Nat.ltb_spec int_max_str_digits (String.length (pretty (Z.abs z))))
    as [Hlt|_]; [|reflexivity].
  exfalso. exact (proj1 (Nat.lt_nge _ _) Hlt Hlen).
Qed.

Lemma format_int_raises (z : Z) e : format_int z = Raise e → e = ValueError.
Proof. unfold format_int. case_match; [by intros [= <-]|done]. Qed.

Lemma pretty_N_go_suffix (x : N) (s : string) :
  String.length s ≤ String.length (pretty_N_go x s).
Proof.
  revert s. induction (N.lt_wf_0 x) as [x _ IH]; intros s.
  destruct (decide (x = 0%N)) as [->|Hne]; [by rewrite pretty_N_go_0|].
  rewrite pretty_N_go_step by lia.
  etrans; [|apply IH; apply N.div_lt; lia]. simpl. lia.
Qed.

Lemma pretty_N_go_length_ge (k : nat) (x : N) (s : string) :
  (10 ^ N.of_nat k ≤ x)%N →
  S k + String.length s ≤ String.length (pretty_N_go x s).
Proof.
  revert x s. induction k as [|k IH]; intros x s Hx.
  { rewrite pretty_N_go_step by (simpl in Hx; lia).
    etrans; [|apply pretty_N_go_suffix]. simpl. lia. }
  assert (10 ^ N.of_nat (S k) ≠ 0)%N as Hpos by (apply N.pow_nonzero; lia).
  rewrite pretty_N_go_step by lia.
  etrans; [|apply IH]; [simpl; lia|].
  apply N.div_le_lower_bound; [lia|].
  replace (N.of_nat (S k)) with (N.succ (N.of_nat k)) in Hx by lia.
  by rewrite N.pow_succ_r' in Hx.
Qed.

(** An [int] of [10 ^ 4300] or more in magnitude is not formatted. *)
Lemma format_int_large (z : Z) :
  (10 ^ Z.of_nat int_max_str_digits ≤ Z.abs z)%Z → format_int z = Raise ValueError.
Proof.
  intros Hz. unfold format_int.
  assert (int_max_str_digits < String.length (pretty (Z.abs z))) as Hlen.
  { assert (∀ p, (10 ^ Z.of_nat int_max_str_digits ≤ Z.pos p)%Z →
                 int_max_str_digits < String.length (pretty (Z.pos p))) as Hpos.
    { intros p Hp. change (pretty (Z.pos p)) with (pretty_N_go (N.pos p) "").
      pose proof (pretty_N_go_length_ge int_max_str_digits (N.pos p) "") as Hge.
      simpl in Hge. apply Nat.lt_le_trans with (S (int_max_str_digits + 0));
        [rewrite Nat.add_0_r; apply Nat.lt_succ_diag_r|].
      apply Hge. apply N2Z.inj_le. by rewrite N2Z.inj_pow, nat_N_Z. }
    assert (0 < 10 ^ Z.of_nat int_max_str_digits)%Z as H10
      by (apply Z.pow_pos_nonneg; [done|apply Nat2Z.is_nonneg]).
    destruct z as [|p|p]; simpl in *;
      [exfalso; by apply (Z.lt_irrefl 0), (Z.lt_le_trans _ _ _ H10)| |];
      by apply Hpos. }
  by destruct (Nat.ltb_spec int_max_str_digits (String.length (pretty (Z.abs z))))
    as [_|Hle]; [|exfalso; exact (proj1 (Nat.lt_nge _ _) Hlen Hle)].
Qed.

(** * Properties of [appinion/google_places.py] *)

Section places_facts.
Import google_places.

(** ** [price_from_level] *)

Lemma price_from_level_cases (level : Z) :
  level = 0%Z ∧ price_from_level (Some level) = Some 1%float
  ∨ level = 1%Z ∧ price_from_level (Some level) = Some 15%float
  ∨ level = 2%Z ∧ price_from_level (Some level) = Some 40%float
  ∨ level = 3%Z ∧ price_from_level (Some level) = Some 75%float
  ∨ level = 4%Z ∧ price_from_level (Some level) = Some 150%float
  ∨ ((level < 0)%Z ∨ (4 < level)%Z) ∧ price_from_level (Some level) = None.
Proof.
  unfold price_from_level, PRICE_LEVEL_TO_AMOUNT.
  destruct (decide (level = 0%Z)) as [->|?]; [by left|right].
  destruct (decide (level = 1%Z)) as [->|?]; [by left|right].
  destruct (decide (level = 2%Z)) as [->|?]; [by left|right].
  destruct (decide (level = 3%Z)) as [->|?]; [by left|right].
  destruct (decide (level = 4%Z)) as [->|?]; [by left|right].
  split; [lia|]. rewrite !lookup_insert_ne by done. by rewrite lookup_singleton_ne.
Qed.

Ltac level_cases level :=
  destruct (price_from_level_cases level)
    as [[-> ->]|[[-> ->]|[[-> ->]|[[-> ->]|[[-> ->]|[? ->]]]]]].

Lemma price_from_level_positive price_level amount :
  price_from_level price_level = Some amount → PrimFloat.ltb 0 amount = true.
Proof.
  destruct price_level as [level|]; [|done].
  level_cases level; try done; by intros [= <-]; vm_compute.
Qed.

(** X9: a price level has an amount exactly when it is one of 0, 1, 2, 3, 4;
    the amount is above zero (so it is not [nan]), and a higher level has a
    higher amount. *)
Theorem price_from_level_amounts :
  (∀ price_level,
     is_Some (price_from_level price_level)
     ↔ ∃ level, price_level = Some level ∧ (0 ≤ level ≤ 4)%Z)
  ∧ (∀ price_level amount,
       price_from_level price_level = Some amount →
       PrimFloat.ltb 0 amount = true)
  ∧ (∀ level1 level2 amount1 amount2,
       (level1 < level2)%Z →
       price_from_level (Some level1) = Some amount1 →
       price_from_level (Some level2) = Some amount2 →
       PrimFloat.ltb amount1 amount2 = true).
Proof.
  split; [|split].
  - intros [level|].
    + split.
      * intros Hs. exists level. split; [done|].
        revert Hs. level_cases level; try lia. by intros [? ?].
      * intros (l & [= <-] & Hl). level_cases level; try (by eexists). lia.
    + split; [by intros [? ?]|]. by intros (l & ? & _).
  - apply price_from_level_positive.
  - intros level1 level2 amount1 amount2 Hlt. revert Hlt.
    level_cases level1; try done;
      (level_cases level2; try done; try lia;
       by intros _ [= <-] [= <-]; vm_compute).
Qed.

(** ** [build_notes] *)

Lemma truthy_Some (s : option string) :
  truthy s = true → ∃ c t, s = Some (String c t).
Proof. destruct s as [[|c t]|]; [done| |done]. by exists c, t. Qed.

Lemma build_notes_raises (place : Place) e :
  build_notes place = Raise e → e = ValueError.
Proof.
  unfold build_notes. destruct (price_level place) as [level|]; simpl; [|done].
  destruct (format_int level) eqn:F; simpl; [done|].
  intros [= <-]. by apply (format_int_raises level).
Qed.

(** X10: [build_notes] has no note exactly when the place has neither a
    non-empty address nor a price level; a note is never the empty string;
    and it fails, with [ValueError], exactly for a price level of more than
    4300 digits. *)
Theorem build_notes_result (place : Place) :
  (build_notes place = Ok None
   ↔ truthy (formatted_address place) = false ∧ price_level place = None)
  ∧ (∀ text, build_notes place = Ok (Some text) → text ≠ "")
  ∧ (∀ e, build_notes place = Raise e →
       e = ValueError
       ∧ ∃ level, price_level place = Some level
                  ∧ (10 ^ Z.of_nat int_max_str_digits ≤ Z.abs level)%Z)
  ∧ (∀ level, price_level place = Some level →
       (10 ^ Z.of_nat int_max_str_digits ≤ Z.abs level)%Z →
       build_notes place = Raise ValueError).
Proof.
  cut ((build_notes place = Ok None
        ↔ truthy (formatted_address place) = false ∧ price_level place = None)
       ∧ (∀ text, build_notes place = Ok (Some text) → text ≠ "")
       ∧ (∀ e, build_notes place = Raise e →
            e = ValueError
            ∧ ∃ level, price_level place = Some level
                       ∧ (10 ^ Z.of_nat int_max_str_digits ≤ Z.abs level)%Z)).
  { intros (Hnone & Htext & Hraise).
    split; [done|]. split; [done|]. split; [done|].
    intros level Hl Hlarge. unfold build_notes.
    by rewrite Hl, (format_int_large level Hlarge). }
  unfold build_notes.
  destruct (price_level place) as [level|]; simpl.
  - destruct (format_int level) as [text|e] eqn:F; simpl.
    + split; [|split; [|done]].
      * split; [|by intros [_ ?]].
        by destruct (truthy (formatted_address place)).
      * intros t. destruct (truthy (formatted_address place)) eqn:T; simpl.
        -- apply truthy_Some in T as (c & a & ->). by intros [= <-].
        -- by intros [= <-].
    + split; [split; [done|by intros [_ ?]]|]. split; [done|]. intros e' [= <-].
      split; [by apply (format_int_raises level)|].
      exists level. split; [done|].
      destruct (Z.le_gt_cases (10 ^ Z.of_nat int_max_str_digits) (Z.abs level))
        as [?|Hlt]; [done|].
      apply format_int_small in Hlt. rewrite Hlt in F. discriminate F.
  - destruct (truthy (formatted_address place)) eqn:T; simpl.
    + split; [|split; [|done]].
      * split; [done|]. by intros [? _].
      * intros t. apply truthy_Some in T as (c & a & ->). by intros [= <-].
    + done.
Qed.

(** ** [fetch_service_options] *)

(** The requests of a trace, in order. *)
Definition gets (trace : list event) : list Params :=
  omap (λ e, match e with Get _ params _ => Some params | Sleep _ => None end)
       trace.

Definition is_rated (place : Place) : bool :=
  match rating place, user_ratings_total place with
  | Some _, Some _ => true
  | _, _ => false
  end.

(** The places of the pages that are processed: those of status ["OK"]. *)
Definition places_of (script : list Response) : list Place :=
  script ≫= λ response,
    match response with
    | Json payload =>
        if decide (status payload = Some "OK") then results payload else []
    | RequestException _ => []
    end.

Definition rated_places (script : list Response) : list Place :=
  filter (λ place, is_rated place = true) (places_of script).

(** [made service currency place o]: [o] is the option built from [place]. *)
Definition made (service currency : string) (place : Place)
    (o : ServiceOption) : Prop :=
  ∃ r c, rating place = Some r ∧ user_ratings_total place = Some c
         ∧ make_option service currency place r c = Ok o.

(** The last page of a listing: no results, or no token for a next page. *)
Definition last_page (payload : Payload) : Prop :=
  status payload = Some "ZERO_RESULTS"
  ∨ status payload = Some "OK" ∧ truthy (next_page_token payload) = false.

Section fetch.
Context (service query api_key language : string) (max_results : Z)
  (currency : string).

Local Abbreviation for_places' := (for_places service currency max_results).
Local Abbreviation while_loop' :=
  (while_loop service query api_key language max_results currency).

Lemma for_places_spec places results results' :
  for_places' places results = Ok results' →
  ∃ new, results' = results ++ new
    ∧ Forall2 (made service currency)
        (take (length new) (filter (λ place, is_rated place = true) places)) new
    ∧ ((Z.of_nat (length results') < max_results)%Z →
       length new = length (filter (λ place, is_rated place = true) places))
    ∧ ((Z.of_nat (length results) < max_results)%Z →
       (Z.of_nat (length results') ≤ max_results)%Z).
Proof.
  revert results. induction places as [|place places IH]; intros results Hrun.
  { injection Hrun as <-. exists []. rewrite app_nil_r. simpl.
    repeat split; [constructor|lia]. }
  simpl in Hrun.
  destruct (rating place) as [r|] eqn:Hr;
    [destruct (user_ratings_total place) as [c|] eqn:Hc|].
  - rewrite filter_cons_True by (unfold is_rated; by rewrite Hr, Hc).
    destruct (make_option service currency place r c) as [o|e] eqn:Ho;
      simpl in Hrun; [|done].
    assert (made service currency place o) as Hmade by (by exists r, c).
    destruct (Z.leb_spec max_results (Z.of_nat (length (results ++ [o]))))
      as [Hcap|Hcap].
    + injection Hrun as <-. exists [o]. simpl. rewrite take_0.
      rewrite length_app in *. simpl in *.
      repeat split; [by repeat constructor|lia|lia].
    + destruct (IH _ Hrun) as (new & -> & Hall & Hfull & Hbound).
      exists (o :: new). rewrite <- app_assoc. simpl.
      rewrite !length_app in *. simpl in *.
      repeat split; [by constructor|intros ?; f_equal; apply Hfull; lia|lia].
  - rewrite filter_cons_False by (unfold is_rated; by rewrite Hr, Hc).
    by apply IH.
  - rewrite filter_cons_False by (unfold is_rated; by rewrite Hr).
    by apply IH.
Qed.

(** What a run that returns has done: [new] is what it added to [results],
    and [n] the number of its requests. *)
Lemma while_loop_results script results token results' trace :
  while_loop' script results token = (Return results', trace) →
  ∃ new, results' = results ++ new
    ∧ Forall2 (made service currency)
        (take (length new) (rated_places (take (length (gets trace)) script)))
        new
    ∧ ((max_results ≤ Z.of_nat (length results))%Z → new = [] ∧ trace = [])
    ∧ ((Z.of_nat (length results) < max_results)%Z →
       (Z.of_nat (length results') ≤ max_results)%Z)
    ∧ ((Z.of_nat (length results') < max_results)%Z →
       length new = length (rated_places (take (length (gets trace)) script))
       ∧ ∃ payload, last (take (length (gets trace)) script) = Some (Json payload)
                    ∧ last_page payload).
Proof.
  revert results token results' trace.
  induction script as [|response script IH]; intros results token results' trace;
    simpl; destruct (Z.ltb_spec (Z.of_nat (length results)) max_results)
      as [Hlt|Hge]; try done.
  1, 3: intros [= <- <-]; exists []; rewrite app_nil_r; simpl;
    repeat split; try constructor; lia.
  destruct response as [e|payload]; [done|].
  destruct (decide (status payload = Some "ZERO_RESULTS")) as [Hzero|Hnz].
  { intros [= <- <-]. exists []. rewrite app_nil_r. simpl.
    unfold rated_places, places_of. simpl. rewrite Hzero. simpl.
    repeat split; try constructor; try lia.
    exists payload. split; [done|]. by left. }
  destruct (decide (status payload ≠ Some "OK")) as [Hbad|Hok]; [done|].
  apply dec_stable in Hok.
  destruct (for_places' (google_places.results payload) results) as [results1|e] eqn:Hfor;
    [|done].
  destruct (for_places_spec _ _ _ Hfor) as (new1 & -> & Hall1 & Hfull1 & Hbound1).
  assert (rated_places [Json payload]
          = filter (λ place, is_rated place = true)
                   (google_places.results payload)) as Hone.
  { unfold rated_places, places_of. simpl. rewrite decide_True by done.
    by rewrite app_nil_r. }
  assert (∀ rest, rated_places (Json payload :: rest)
                  = rated_places [Json payload] ++ rated_places rest) as Hsplit.
  { intros rest. unfold rated_places, places_of. simpl.
    rewrite app_nil_r. apply filter_app. }
  destruct (truthy (next_page_token payload)) eqn:Htoken.
  - destruct (while_loop' script (results ++ new1) (next_page_token payload))
      as [o trace'] eqn:Hrec.
    intros [= -> <-].
    destruct (IH _ _ _ _ Hrec) as (new2 & -> & Hall2 & Hstop & Hbound2 & Hfull2).
    exists (new1 ++ new2). rewrite <- app_assoc. simpl.
    rewrite Hsplit, Hone. rewrite <- app_assoc in Hbound2, Hfull2.
    set (R1 := filter (λ place, is_rated place = true)
                 (google_places.results payload)) in *.
    set (R2 := rated_places (take (length (gets trace')) script)) in *.
    assert (length new1 ≤ length R1) as Hle1.
    { apply Forall2_length in Hall1. rewrite length_take in Hall1. lia. }
    rewrite !length_app in *.
    destruct (Z.ltb_spec (Z.of_nat (length results + length new1)) max_results)
      as [Hmore|Hcap].
    + specialize (Hfull1 Hmore). rewrite Hfull1 in Hall1 |- *.
      rewrite take_app_add. rewrite take_ge in Hall1 by lia.
      split; [done|]. split; [by apply Forall2_app|].
      split; [lia|]. split; [intros _; specialize (Hbound2 Hmore); lia|].
      intros Hunder. destruct (Hfull2 ltac:(lia)) as (Hlen2 & final & Hlast & Hfinal).
      split; [lia|]. exists final. split; [|done].
      destruct (take (length (gets trace')) script) as [|response rest];
        [done|]. by rewrite last_cons_cons.
    + destruct (Hstop Hcap) as [-> ->]. simpl.
      rewrite app_nil_r, Nat.add_0_r. rewrite take_app_le by done.
      split; [done|]. split; [done|]. split; [lia|].
      split; [intros ?; specialize (Hbound1 Hlt); lia|]. lia.
  - intros [= <- <-]. exists new1. simpl. rewrite take_0, Hone.
    split; [done|]. split; [done|]. split; [lia|]. split; [done|].
    intros Hmore. split; [by apply Hfull1|].
    exists payload. split; [done|]. by right.
Qed.

(** The events of a run: a request, then a sleep, then a request, ... *)
Lemma while_loop_events script results token o trace :
  while_loop' script results token = (o, trace) →
  ∀ i e, trace !! i = Some e →
    if Nat.even i then ∃ params, e = Get PLACES_TEXTSEARCH_URL params 10
    else e = Sleep 2.
Proof.
  revert results token o trace.
  assert (∀ get, (∃ params, get = Get PLACES_TEXTSEARCH_URL params 10) →
            ∀ i e, [get] !! i = Some e →
              if Nat.even i then ∃ params, e = Get PLACES_TEXTSEARCH_URL params 10
              else e = Sleep 2) as Hone.
  { intros get Hget [|i] e; simpl; [by intros [= <-]|done]. }
  induction script as [|response script IH]; intros results token o trace;
    simpl; destruct (Z.ltb_spec (Z.of_nat (length results)) max_results)
      as [Hlt|Hge]; try (by intros [= <- <-] i e; rewrite lookup_nil).
  { intros [= <- <-]. apply Hone. by eexists. }
  destruct response as [e|payload]; [intros [= <- <-]; apply Hone; by eexists|].
  destruct (decide (status payload = Some "ZERO_RESULTS"));
    [intros [= <- <-]; apply Hone; by eexists|].
  destruct (decide (status payload ≠ Some "OK"));
    [intros [= <- <-]; apply Hone; by eexists|].
  destruct (for_places' (google_places.results payload) results)
    as [results1|e]; [|intros [= <- <-]; apply Hone; by eexists].
  destruct (truthy (next_page_token payload));
    [|intros [= <- <-]; apply Hone; by eexists].
  destruct (while_loop' script results1 (next_page_token payload))
    as [o' trace'] eqn:Hrec.
  intros [= <- <-] [|[|i]] e; simpl.
  - intros [= <-]. by eexists.
  - by intros [= <-].
  - intros He. by apply (IH _ _ _ _ Hrec) in He.
Qed.

(** What the requests of a run carry. *)
Lemma while_loop_requests script results token o trace :
  while_loop' script results token = (o, trace) →
  ∀ i params, gets trace !! i = Some params →
    key params = api_key ∧ google_places.language params = language
    ∧ match i with
      | 0 =>
          if truthy token
          then pagetoken params = token ∧ google_places.query params = None
          else pagetoken params = None
               ∧ google_places.query params = Some query
      | S j =>
          ∃ payload, script !! j = Some (Json payload)
            ∧ truthy (next_page_token payload) = true
            ∧ pagetoken params = next_page_token payload
            ∧ google_places.query params = None
      end.
Proof.
  revert results token o trace.
  assert (∀ token (script : list Response) get,
            get = Get PLACES_TEXTSEARCH_URL
                    (if truthy token
                     then {| key := api_key; google_places.language := language;
                             pagetoken := token; google_places.query := None |}
                     else {| key := api_key; google_places.language := language;
                             pagetoken := None;
                             google_places.query := Some query |}) 10 →
            ∀ i params, gets [get] !! i = Some params →
              key params = api_key ∧ google_places.language params = language
              ∧ match i with
                | 0 =>
                    if truthy token
                    then pagetoken params = token
                         ∧ google_places.query params = None
                    else pagetoken params = None
                         ∧ google_places.query params = Some query
                | S j =>
                    ∃ payload, script !! j = Some (Json payload)
                      ∧ truthy (next_page_token payload) = true
                      ∧ pagetoken params = next_page_token payload
                      ∧ google_places.query params = None
                end) as Hone.
  { intros token' script' get -> [|i] params; simpl; [|done].
    intros [= <-]. by destruct (truthy token'). }
  induction script as [|response script IH]; intros results token o trace;
    simpl; destruct (Z.ltb_spec (Z.of_nat (length results)) max_results)
      as [Hlt|Hge]; try (by intros [= <- <-] i e; simpl; rewrite lookup_nil).
  { intros [= <- <-]. by apply Hone. }
  destruct response as [e|payload]; [intros [= <- <-]; by apply Hone|].
  destruct (decide (status payload = Some "ZERO_RESULTS"));
    [intros [= <- <-]; by apply Hone|].
  destruct (decide (status payload ≠ Some "OK"));
    [intros [= <- <-]; by apply Hone|].
  destruct (for_places' (google_places.results payload) results)
    as [results1|e]; [|intros [= <- <-]; by apply Hone].
  destruct (truthy (next_page_token payload)) eqn:Htoken;
    [|intros [= <- <-]; by apply Hone].
  destruct (while_loop' script results1 (next_page_token payload))
    as [o' trace'] eqn:Hrec.
  intros [= <- <-] [|i] params; simpl.
  - intros [= <-]. by destruct (truthy token).
  - intros Hp. destruct (IH _ _ _ _ Hrec i params Hp) as (Hkey & Hlang & Hi).
    split; [done|]. split; [done|]. destruct i as [|i].
    + exists payload. rewrite Htoken in Hi. by destruct Hi.
    + destruct Hi as (payload' & ? & ?). by exists payload'.
Qed.

(** A run asks at most once more than the script answers, and a run that
    ends has been answered each time. *)
Lemma while_loop_gets_length script results token o trace :
  while_loop' script results token = (o, trace) →
  length (gets trace) ≤ S (length script)
  ∧ (o ≠ Pending → length (gets trace) ≤ length script).
Proof.
  revert results token o trace.
  induction script as [|response script IH]; intros results token o trace;
    simpl; destruct (Z.ltb_spec (Z.of_nat (length results)) max_results)
      as [Hlt|Hge]; try (intros [= <- <-]; simpl; split; [lia|]; try done; lia).
  destruct response as [e|payload];
    [intros [= <- <-]; simpl; split; [lia|]; lia|].
  destruct (decide (status payload = Some "ZERO_RESULTS"));
    [intros [= <- <-]; simpl; split; [lia|]; lia|].
  destruct (decide (status payload ≠ Some "OK"));
    [intros [= <- <-]; simpl; split; [lia|]; lia|].
  destruct (for_places' (google_places.results payload) results)
    as [results1|e]; [|intros [= <- <-]; simpl; split; [lia|]; lia].
  destruct (truthy (next_page_token payload));
    [|intros [= <- <-]; simpl; split; [lia|]; lia].
  destruct (while_loop' script results1 (next_page_token payload))
    as [o' trace'] eqn:Hrec.
  intros [= <- <-]. simpl. destruct (IH _ _ _ _ Hrec) as [H1 H2].
  split; [lia|]. intros Ho. specialize (H2 Ho). lia.
Qed.

(** A run that enters the loop starts with a request. *)
Lemma while_loop_first script results token o trace :
  while_loop' script results token = (o, trace) →
  (Z.of_nat (length results) < max_results)%Z →
  ∃ params rest, trace = Get PLACES_TEXTSEARCH_URL params 10 :: rest.
Proof.
  intros Hrun Hlt. destruct script as [|response script]; simpl in Hrun;
    destruct (Z.ltb_spec (Z.of_nat (length results)) max_results); try lia.
  { injection Hrun as <- <-. by eexists _, _. }
  destruct response as [e|payload]; [injection Hrun as <- <-; by eexists _, _|].
  repeat case_match; injection Hrun as <- <-; by eexists _, _.
Qed.

(** A run that returns ends in a sleep exactly when it reached
    [max_results] on a page that had a token for a next page. *)
Lemma while_loop_last_sleep script results token results' trace :
  while_loop' script results token = (Return results', trace) →
  (Z.of_nat (length results) < max_results)%Z →
  last trace = Some (Sleep 2)
  ↔ (max_results ≤ Z.of_nat (length results'))%Z
    ∧ ∃ payload, last (take (length (gets trace)) script) = Some (Json payload)
        ∧ status payload = Some "OK"
        ∧ truthy (next_page_token payload) = true.
Proof.
  revert results token results' trace.
  induction script as [|response script IH]; intros results token results' trace;
    simpl; destruct (Z.ltb_spec (Z.of_nat (length results)) max_results)
      as [Hlt|Hge]; try done; try lia.
  destruct response as [e|payload]; [done|].
  destruct (decide (status payload = Some "ZERO_RESULTS")) as [Hzero|Hnz].
  { intros [= <- <-] _. simpl. split; [done|].
    intros (_ & payload' & [= <-] & Hok & _). by rewrite Hok in Hzero. }
  destruct (decide (status payload ≠ Some "OK")) as [Hbad|Hok]; [done|].
  apply dec_stable in Hok.
  destruct (for_places' (google_places.results payload) results)
    as [results1|e] eqn:Hfor; [|done].
  destruct (truthy (next_page_token payload)) eqn:Htoken.
  - destruct (while_loop' script results1 (next_page_token payload))
      as [o' trace'] eqn:Hrec.
    intros [= -> <-] _. simpl.
    destruct (Z.ltb_spec (Z.of_nat (length results1)) max_results)
      as [Hmore|Hcap].
    + pose proof (IH _ _ _ _ Hrec Hmore) as Hiff.
      destruct (while_loop_first _ _ _ _ _ Hrec Hmore) as (params & rest & ->).
      simpl in *.
      rewrite Hiff.
      destruct script as [|response script'];
        [|by rewrite !firstn_cons, last_cons_cons].
      exfalso. simpl in Hrec.
      by destruct (Z.ltb_spec (Z.of_nat (length results1)) max_results).
    + assert (trace' = [] ∧ results' = results1) as [-> ->].
      { destruct script; simpl in Hrec;
          destruct (Z.ltb_spec (Z.of_nat (length results1)) max_results);
          try lia; by injection Hrec as <- <-. }
      simpl. split; [|done]. intros _. split; [done|]. by exists payload.
  - intros [= <- <-] _. simpl. split; [done|].
    intros (_ & payload' & [= <-] & _ & Htrue). by rewrite Htrue in Htoken.
Qed.

(** As long as the pages are ["OK"] and carry a token, and fewer than
    [max_results] rated places have been seen, the loop asks again. *)
Lemma for_places_all places results :
  (∀ place, place ∈ places → is_rated place = true →
            ∃ o, made service currency place o) →
  (Z.of_nat (length results
             + length (filter (λ place, is_rated place = true) places))
   < max_results)%Z →
  ∃ new, for_places' places results = Ok (results ++ new)
    ∧ length new = length (filter (λ place, is_rated place = true) places).
Proof.
  revert results. induction places as [|place places IH]; intros results Hmade Hlen.
  { exists []. by rewrite app_nil_r. }
  simpl.
  destruct (rating place) as [r|] eqn:Hr;
    [destruct (user_ratings_total place) as [c|] eqn:Hc|].
  - assert (is_rated place = true) as Hrated
      by (unfold is_rated; by rewrite Hr, Hc).
    rewrite filter_cons_True in Hlen |- * by done.
    destruct (Hmade place) as (o & r' & c' & Hr' & Hc' & Ho); [left|done|].
    rewrite Hr in Hr'. rewrite Hc in Hc'.
    injection Hr' as <-. injection Hc' as <-. rewrite Ho. simpl in *.
    destruct (Z.leb_spec max_results (Z.of_nat (length (results ++ [o]))))
      as [Hcap|_]; [rewrite length_app in Hcap; simpl in Hcap; lia|].
    destruct (IH (results ++ [o])) as (new & -> & Hnew).
    { intros p Hp. apply Hmade. by right. }
    { rewrite length_app. simpl. lia. }
    exists (o :: new). rewrite <- app_assoc. simpl. by rewrite Hnew.
  - rewrite filter_cons_False in Hlen |- *
      by (unfold is_rated; by rewrite Hr, Hc).
    apply IH; [|done]. intros p Hp. apply Hmade. by right.
  - rewrite filter_cons_False in Hlen |- * by (unfold is_rated; by rewrite Hr).
    apply IH; [|done]. intros p Hp. apply Hmade. by right.
Qed.

Lemma while_loop_pending script results token :
  Forall (λ response, ∃ payload, response = Json payload
            ∧ status payload = Some "OK"
            ∧ truthy (next_page_token payload) = true) script →
  (∀ place, place ∈ rated_places script → ∃ o, made service currency place o) →
  (Z.of_nat (length results + length (rated_places script)) < max_results)%Z →
  ∃ trace, while_loop' script results token = (Pending, trace)
    ∧ length (gets trace) = S (length script).
Proof.
  revert results token.
  induction script as [|response script IH]; intros results token Hpages Hmade Hlen;
    simpl; destruct (Z.ltb_spec (Z.of_nat (length results)) max_results)
      as [Hlt|Hge]; try lia.
  { by eexists. }
  apply Forall_cons in Hpages as [(payload & -> & Hok & Htoken) Hpages].
  rewrite decide_False by (by rewrite Hok).
  rewrite decide_False by (by intros []).
  assert (rated_places (Json payload :: script)
          = filter (λ place, is_rated place = true) (google_places.results payload)
            ++ rated_places script) as Hsplit.
  { unfold rated_places, places_of. simpl. rewrite decide_True by done.
    apply filter_app. }
  rewrite Hsplit in Hlen, Hmade. rewrite length_app in Hlen.
  destruct (for_places_all (google_places.results payload) results)
    as (new & -> & Hnew).
  { intros place Hp Hrated. apply Hmade, elem_of_app. left.
    by apply list_elem_of_filter. }
  { lia. }
  rewrite Htoken.
  destruct (IH (results ++ new) (next_page_token payload) Hpages)
    as (trace & -> & Hgets).
  { intros place Hp. apply Hmade, elem_of_app. by right. }
  { rewrite length_app. lia. }
  eexists. split; [done|]. simpl. by rewrite Hgets.
Qed.

Lemma make_option_raises place r c e :
  make_option service currency place r c = Raise e →
  e = OverflowError ∨ e = ValueError.
Proof.
  unfold make_option.
  destruct r as [z|x]; simpl.
  - unfold float_of_int.
    destruct (binary_normalize prec emax z 0 false); simpl;
      try (by intros [= <-]; left);
      (destruct c as [z'|x']; simpl;
       [|unfold int_of_float; destruct (Prim2SF x'); simpl;
         try (by intros [= <-]; left); try (by intros [= <-]; right)];
       (destruct (build_notes place) eqn:Hnotes; simpl; [done|];
        intros [= <-]; right;
        by apply (build_notes_raises place))).
  - destruct c as [z'|x']; simpl;
      [|unfold int_of_float; destruct (Prim2SF x'); simpl;
        try (by intros [= <-]; left); try (by intros [= <-]; right)];
      (destruct (build_notes place) eqn:Hnotes; simpl; [done|];
       intros [= <-]; right;
       by apply (build_notes_raises place)).
Qed.

Lemma for_places_raises places results e :
  for_places' places results = Raise e → e = OverflowError ∨ e = ValueError.
Proof.
  revert results. induction places as [|place places IH]; intros results;
    [done|]. simpl.
  destruct (rating place) as [r|]; [|by apply IH].
  destruct (user_ratings_total place) as [c|]; [|by apply IH].
  destruct (make_option service currency place r c) as [o|e'] eqn:Ho; simpl.
  - case_match; [done|by apply IH].
  - intros [= <-]. by apply (make_option_raises place r c).
Qed.

Lemma error_text_nonempty payload : error_text payload ≠ "".
Proof.
  unfold error_text.
  destruct (truthy (error_message payload)) eqn:T1;
    [by apply truthy_Some in T1 as (c & t & ->)|].
  destruct (truthy (status payload)) eqn:T2;
    [by apply truthy_Some in T2 as (c & t & ->)|done].
Qed.

(** A run that raises does so on the response to its last request. *)
Lemma while_loop_failure script results token e trace :
  while_loop' script results token = (Throw e, trace) →
  ∃ response, last (take (length (gets trace)) script) = Some response
    ∧ match response with
      | RequestException x => e = Requests x
      | Json payload =>
          status payload ≠ Some "ZERO_RESULTS"
          ∧ (if decide (status payload = Some "OK")
             then e = Builtin OverflowError ∨ e = Builtin ValueError
             else e = RuntimeError ("Error de la API de Google Places: "
                                    +:+ error_text payload))
      end.
Proof.
  revert results token e trace.
  induction script as [|response script IH]; intros results token e trace;
    simpl; destruct (Z.ltb_spec (Z.of_nat (length results)) max_results)
      as [Hlt|Hge]; try done.
  destruct response as [x|payload]; [intros [= <- <-]; by eexists|].
  destruct (decide (status payload = Some "ZERO_RESULTS")) as [Hzero|Hnz];
    [done|].
  destruct (decide (status payload ≠ Some "OK")) as [Hbad|Hok].
  { intros [= <- <-]. exists (Json payload). split; [done|]. split; [done|].
    by rewrite decide_False. }
  apply dec_stable in Hok.
  destruct (for_places' (google_places.results payload) results)
    as [results1|b] eqn:Hfor.
  - destruct (truthy (next_page_token payload)); [|done].
    destruct (while_loop' script results1 (next_page_token payload))
      as [o' trace'] eqn:Hrec.
    intros [= -> <-].
    destruct (IH _ _ _ _ Hrec) as (response & Hlast & Hresponse).
    exists response. split; [|done]. simpl.
    destruct (take (length (gets trace')) script); [done|].
    by rewrite last_cons_cons.
  - intros [= <- <-]. exists (Json payload). split; [done|]. split; [done|].
    rewrite decide_True by done.
    destruct (for_places_raises _ _ _ Hfor) as [->| ->]; [by left|by right].
Qed.

End fetch.

Lemma filter_ext_elem {A} (P1 P2 : A → Prop)
    `{!∀ x, Decision (P1 x), !∀ x, Decision (P2 x)} (l : list A) :
  (∀ x, x ∈ l → P1 x ↔ P2 x) → filter P1 l = filter P2 l.
Proof.
  induction l as [|a l IH]; intros Hiff; [done|].
  assert (P1 a ↔ P2 a) as Ha by (apply Hiff; left).
  assert (filter P1 l = filter P2 l) as Hl
    by (apply IH; intros x Hx; apply Hiff; by right).
  destruct (decide (P1 a)) as [H1|H1].
  - rewrite !filter_cons_True by tauto. by rewrite Hl.
  - rewrite !filter_cons_False by tauto. done.
Qed.

(** What [make_option] puts in the fields that do not come from the
    place alone. *)
Lemma make_option_fields service_ currency_ place r c o :
  make_option service_ currency_ place r c = Ok o →
  service o = service_
  ∧ price o = price_from_level (price_level place)
  ∧ currency o = (if price o is Some _ then Some currency_ else None)
  ∧ pricing_unit o
    = (if price o is Some _ then Some "aprox. (nivel Google)" else None).
Proof.
  unfold make_option. destruct (float_ r); simpl; [|done].
  destruct (int_ c); simpl; [|done].
  destruct (build_notes place); simpl; [|done]. by intros [= <-].
Qed.

(** X11: the options [fetch_service_options] returns are built, one for
    one and in order, from the first rated places of the pages it asked for,
    and they are at most [max_results] (none when [max_results] is not
    positive). *)
Theorem fetch_results_in_order service location api_key language max_results
    currency script results trace :
  fetch_service_options service location api_key language max_results currency
    script = (Return results, trace) →
  (Z.of_nat (length results) ≤ Z.max 0 max_results)%Z
  ∧ length (gets trace) ≤ length script
  ∧ Forall2 (made service currency)
      (take (length results)
         (rated_places (take (length (gets trace)) script)))
      results.
Proof.
  unfold fetch_service_options. intros Hrun.
  destruct (while_loop_results _ _ _ _ _ _ _ _ _ _ _ Hrun)
    as (new & Hnew & Hall & Hstop & Hbound & _).
  simpl in Hnew. subst new. split; [|split; [|done]].
  - destruct (Z.ltb_spec 0 max_results) as [Hpos|Hneg].
    + specialize (Hbound Hpos). lia.
    + destruct (Hstop Hneg) as [-> _]. simpl. lia.
  - apply (while_loop_gets_length _ _ _ _ _ _ _ _ _ _ _ Hrun). done.
Qed.

(** X12: every option [fetch_service_options] returns carries the service
    asked for; it has a currency and a pricing unit exactly when it has a
    price, and its price is then above zero. So [cheapest] and [best_value]
    keep the same options of a fetched list. *)
Theorem fetch_options_priced service_ location api_key language max_results
    currency_ script results trace :
  fetch_service_options service_ location api_key language max_results
    currency_ script = (Return results, trace) →
  (∀ o, o ∈ results →
     service o = service_
     ∧ price_positive o = price_known o
     ∧ match price o with
       | Some amount =>
           PrimFloat.ltb 0 amount = true
           ∧ currency o = Some currency_
           ∧ pricing_unit o = Some "aprox. (nivel Google)"
       | None => currency o = None ∧ pricing_unit o = None
       end)
  ∧ filter (λ o, price_positive o) results = filter (λ o, price_known o) results.
Proof.
  unfold fetch_service_options. intros Hrun.
  destruct (while_loop_results _ _ _ _ _ _ _ _ _ _ _ Hrun)
    as (new & Hnew & Hall & _).
  simpl in Hnew. subst new.
  assert (∀ o, o ∈ results →
     service o = service_
     ∧ price_positive o = price_known o
     ∧ match price o with
       | Some amount =>
           PrimFloat.ltb 0 amount = true
           ∧ currency o = Some currency_
           ∧ pricing_unit o = Some "aprox. (nivel Google)"
       | None => currency o = None ∧ pricing_unit o = None
       end) as Hshape.
  { intros o Ho. apply list_elem_of_lookup in Ho as [i Hi].
    destruct (Forall2_lookup_r _ _ _ _ _ Hall Hi)
      as (place & _ & r & c & _ & _ & Hmade).
    apply make_option_fields in Hmade as (Hservice & Hprice & Hcur & Hunit).
    split; [done|]. unfold price_positive, price_known.
    destruct (price o) as [amount|] eqn:Hp; [|done].
    assert (PrimFloat.ltb 0 amount = true) as Hpos.
    { apply (price_from_level_positive (price_level place)). by rewrite <- Hprice. }
    by rewrite Hcur, Hunit. }
  split; [done|].
  apply filter_ext_elem. intros o Ho.
  destruct (Hshape o Ho) as (_ & -> & _). done.
Qed.

(** X13: the requests of a run. Every event of even position is a request
    to the text search URL with a timeout of 10, every event of odd position
    a sleep of 2 seconds. Every request carries the API key and the
    language; the first carries the query ([service], or [service en
    location] when a location is given) and no page token; each later one
    carries no query and the non-empty token of the page answered just
    before. The run asks at most once more than the script answers. *)
Theorem fetch_protocol service location api_key language max_results currency
    script o trace :
  fetch_service_options service location api_key language max_results currency
    script = (o, trace) →
  (∀ i e, trace !! i = Some e →
     if Nat.even i then ∃ params, e = Get PLACES_TEXTSEARCH_URL params 10
     else e = Sleep 2)
  ∧ (∀ i params, gets trace !! i = Some params →
       key params = api_key ∧ google_places.language params = language
       ∧ match i with
         | 0 =>
             pagetoken params = None
             ∧ google_places.query params
               = Some (if truthy location
                       then service +:+ " en " +:+ default "" location
                       else service)
         | S j =>
             ∃ payload, script !! j = Some (Json payload)
               ∧ truthy (next_page_token payload) = true
               ∧ pagetoken params = next_page_token payload
               ∧ google_places.query params = None
         end)
  ∧ length (gets trace) ≤ S (length script)
  ∧ (o ≠ Pending → length (gets trace) ≤ length script).
Proof.
  unfold fetch_service_options. intros Hrun.
  split; [exact (while_loop_events _ _ _ _ _ _ _ _ _ _ _ Hrun)|].
  split; [|exact (while_loop_gets_length _ _ _ _ _ _ _ _ _ _ _ Hrun)].
  intros i params Hp.
  destruct (while_loop_requests _ _ _ _ _ _ _ _ _ _ _ Hrun i params Hp)
    as (Hkey & Hlang & Hi).
  split; [done|]. split; [done|]. by destruct i.
Qed.

(** X14: a run that returns ends in a sleep of 2 seconds exactly when it
    reached [max_results] on a page that announced a next page: the sleep
    is then followed by no request. *)
Theorem fetch_sleeps_after_cap service location api_key language max_results
    currency script results trace :
  fetch_service_options service location api_key language max_results currency
    script = (Return results, trace) →
  (0 < max_results)%Z →
  last trace = Some (Sleep 2)
  ↔ (max_results ≤ Z.of_nat (length results))%Z
    ∧ ∃ payload, last (take (length (gets trace)) script) = Some (Json payload)
        ∧ status payload = Some "OK"
        ∧ truthy (next_page_token payload) = true.
Proof.
  unfold fetch_service_options. intros Hrun Hpos.
  by apply (while_loop_last_sleep _ _ _ _ _ _ _ _ _ _ _ Hrun).
Qed.

(** X15: the loop has no page limit of its own. As long as every page is
    ["OK"] and announces a next page, and the rated places seen are fewer
    than [max_results] (and are converted without error), the run has asked
    for one more page than it was given. *)
Theorem fetch_keeps_requesting service location api_key language max_results
    currency script :
  Forall (λ response, ∃ payload, response = Json payload
            ∧ status payload = Some "OK"
            ∧ truthy (next_page_token payload) = true) script →
  (∀ place, place ∈ rated_places script → ∃ o, made service currency place o) →
  (Z.of_nat (length (rated_places script)) < max_results)%Z →
  ∃ trace,
    fetch_service_options service location api_key language max_results
      currency script = (Pending, trace)
    ∧ length (gets trace) = S (length script).
Proof.
  unfold fetch_service_options. intros Hpages Hmade Hlen.
  apply while_loop_pending; [done|done|]. simpl. lia.
Qed.

(** X16: a run that returns fewer than [max_results] options has not
    stopped early: the page it asked for last was the last of the listing
    (["ZERO_RESULTS"], or no token for a next page), and the options are
    those of all the rated places of the pages it asked for. *)
Theorem fetch_stops_at_last_page service location api_key language max_results
    currency script results trace :
  fetch_service_options service location api_key language max_results currency
    script = (Return results, trace) →
  (Z.of_nat (length results) < max_results)%Z →
  Forall2 (made service currency)
    (rated_places (take (length (gets trace)) script)) results
  ∧ ∃ payload, last (take (length (gets trace)) script) = Some (Json payload)
               ∧ last_page payload.
Proof.
  unfold fetch_service_options. intros Hrun Hunder.
  destruct (while_loop_results _ _ _ _ _ _ _ _ _ _ _ Hrun)
    as (new & Hnew & Hall & _ & _ & Hfull).
  simpl in Hnew. subst new. destruct (Hfull Hunder) as [Hlen Hlast].
  split; [|done]. rewrite Hlen in Hall. by rewrite take_ge in Hall.
Qed.

(** X17: a run that raises does so on the response to its last request,
    whatever it had gathered before. The exception is the one the request
    raised; or a [RuntimeError] when the status is neither ["OK"] nor
    ["ZERO_RESULTS"], its message naming the payload's error message, else
    its status, else ["Error desconocido"]; or, on an ["OK"] page, an
    [OverflowError] or a [ValueError] of a number conversion. *)
Theorem fetch_failure service location api_key language max_results currency
    script e trace :
  fetch_service_options service location api_key language max_results currency
    script = (Throw e, trace) →
  ∃ response, last (take (length (gets trace)) script) = Some response
    ∧ match response with
      | RequestException x => e = Requests x
      | Json payload =>
          status payload ≠ Some "ZERO_RESULTS"
          ∧ (if decide (status payload = Some "OK")
             then e = Builtin OverflowError ∨ e = Builtin ValueError
             else ∃ detail,
                    e = RuntimeError ("Error de la API de Google Places: "
                                      +:+ detail)
                    ∧ detail ≠ ""
                    ∧ detail
                      = (if truthy (error_message payload)
                         then default "" (error_message payload)
                         else if truthy (status payload)
                              then default "" (status payload)
                              else "Error desconocido"))
      end.
Proof.
  unfold fetch_service_options. intros Hrun.
  destruct (while_loop_failure _ _ _ _ _ _ _ _ _ _ _ Hrun)
    as (response & Hlast & Hresponse).
  exists response. split; [done|].
  destruct response as [x|payload]; [done|].
  destruct Hresponse as [Hnz He]. split; [done|].
  destruct (decide (status payload = Some "OK")); [done|].
  exists (error_text payload). split; [done|].
  split; [apply error_text_nonempty|done].
Qed.

End places_facts.

(** ** A listing of two pages *)

Definition option_ruiz : ServiceOption := {|
  service := "fontanero";
  provider := "Fontaneria Ruiz";
  rating := 4.5;
  review_count := 120;
  price := Some 40%float;
  currency := Some "EUR";
  pricing_unit := Some "aprox. (nivel Google)";
  link := Some "https://www.google.com/maps/place/?q=place_id:ruiz";
  notes := Some "Calle Mayor 1 · Nivel de precio Google: 2"
|}.

Definition option_sol : ServiceOption := {|
  service := "fontanero";
  provider := "Proveedor sin nombre";
  rating := 4;
  review_count := 35;
  price := None;
  currency := None;
  pricing_unit := None;
  link := None;
  notes := None
|}.

Section places_examples.
Import google_places.

Definition place_ruiz : Place := {|
  name := Some "Fontaneria Ruiz";
  rating := Some (Float 4.5);
  user_ratings_total := Some (Int 120);
  price_level := Some 2%Z;
  place_id := Some "ruiz";
  formatted_address := Some "Calle Mayor 1"
|}.

Definition place_unrated : Place := {|
  name := Some "Recien abierto";
  rating := None;
  user_ratings_total := None;
  price_level := Some 1%Z;
  place_id := Some "nuevo";
  formatted_address := None
|}.

Definition place_sol : Place := {|
  name := None;
  rating := Some (Int 4);
  user_ratings_total := Some (Float 35.5);
  price_level := None;
  place_id := None;
  formatted_address := Some ""
|}.

Definition page_1 : Payload := {|
  status := Some "OK";
  error_message := None;
  results := [place_ruiz; place_unrated];
  next_page_token := Some "pagina-2"
|}.

Definition page_2 : Payload := {|
  status := Some "OK";
  error_message := None;
  results := [place_sol];
  next_page_token := None
|}.

Definition page_denied : Payload := {|
  status := Some "REQUEST_DENIED";
  error_message := Some "The provided API key is invalid.";
  results := [];
  next_page_token := None
|}.

Definition first_request : Params := {|
  key := "clave";
  language := "es";
  pagetoken := None;
  query := Some "fontanero en Madrid"
|}.

Definition second_request : Params := {|
  key := "clave";
  language := "es";
  pagetoken := Some "pagina-2";
  query := None
|}.

Definition get (params : Params) : event := Get PLACES_TEXTSEARCH_URL params 10.

Lemma fetch_two_pages :
  fetch_service_options "fontanero" (Some "Madrid") "clave" "es" 20 "EUR"
    [Json page_1; Json page_2]
  = (Return [option_ruiz; option_sol],
     [get first_request; Sleep 2; get second_request]).
Proof. by vm_compute. Qed.

Lemma fetch_capped :
  fetch_service_options "fontanero" (Some "Madrid") "clave" "es" 1 "EUR"
    [Json page_1; Json page_2]
  = (Return [option_ruiz], [get first_request; Sleep 2]).
Proof. by vm_compute. Qed.

Lemma fetch_denied :
  fetch_service_options "fontanero" (Some "Madrid") "clave" "es" 20 "EUR"
    [Json page_1; Json page_denied]
  = (Throw (RuntimeError "Error de la API de Google Places: The provided API key is invalid."),
     [get first_request; Sleep 2; get second_request]).
Proof. by vm_compute. Qed.

Lemma fetch_results_in_order_witness :
  (Z.of_nat (length [option_ruiz; option_sol]) ≤ Z.max 0 20)%Z
  ∧ length (gets [get first_request; Sleep 2; get second_request])
    ≤ length [Json page_1; Json page_2]
  ∧ Forall2 (made "fontanero" "EUR")
      (take (length [option_ruiz; option_sol])
         (rated_places
            (take (length (gets [get first_request; Sleep 2; get second_request]))
               [Json page_1; Json page_2])))
      [option_ruiz; option_sol].
Proof.
  apply (fetch_results_in_order "fontanero" (Some "Madrid") "clave" "es" 20
           "EUR" [Json page_1; Json page_2]).
  by vm_compute.
Defined.

Lemma fetch_options_priced_witness :
  (∀ o, o ∈ [option_ruiz; option_sol] →
     service o = "fontanero"
     ∧ price_positive o = price_known o
     ∧ match price o with
       | Some amount =>
           PrimFloat.ltb 0 amount = true
           ∧ currency o = Some "EUR"
           ∧ pricing_unit o = Some "aprox. (nivel Google)"
       | None => currency o = None ∧ pricing_unit o = None
       end)
  ∧ filter (λ o, price_positive o) [option_ruiz; option_sol]
    = filter (λ o, price_known o) [option_ruiz; option_sol].
Proof.
  apply (fetch_options_priced "fontanero" (Some "Madrid") "clave" "es" 20
           "EUR" [Json page_1; Json page_2] [option_ruiz; option_sol]
           [get first_request; Sleep 2; get second_request]).
  by vm_compute.
Defined.

Lemma fetch_protocol_witness :
  (∀ i e, [get first_request; Sleep 2; get second_request] !! i = Some e →
     if Nat.even i then ∃ params, e = Get PLACES_TEXTSEARCH_URL params 10
     else e = Sleep 2)
  ∧ (∀ i params,
       gets [get first_request; Sleep 2; get second_request] !! i = Some params →
       key params = "clave" ∧ language params = "es"
       ∧ match i with
         | 0 =>
             pagetoken params = None
             ∧ query params
               = Some (if truthy (Some "Madrid")
                       then "fontanero" +:+ " en " +:+ default "" (Some "Madrid")
                       else "fontanero")
         | S j =>
             ∃ payload, [Json page_1; Json page_2] !! j = Some (Json payload)
               ∧ truthy (next_page_token payload) = true
               ∧ pagetoken params = next_page_token payload
               ∧ query params = None
         end)
  ∧ length (gets [get first_request; Sleep 2; get second_request])
    ≤ S (length [Json page_1; Json page_2])
  ∧ (Return [option_ruiz; option_sol] ≠ Pending →
     length (gets [get first_request; Sleep 2; get second_request])
     ≤ length [Json page_1; Json page_2]).
Proof.
  apply (fetch_protocol "fontanero" (Some "Madrid") "clave" "es" 20 "EUR"
           [Json page_1; Json page_2] (Return [option_ruiz; option_sol])
           [get first_request; Sleep 2; get second_request]).
  by vm_compute.
Defined.

Lemma fetch_sleeps_after_cap_witness :
  last [get first_request; Sleep 2] = Some (Sleep 2)
  ↔ (1 ≤ Z.of_nat (length [option_ruiz]))%Z
    ∧ ∃ payload,
        last (take (length (gets [get first_request; Sleep 2]))
                [Json page_1; Json page_2]) = Some (Json payload)
        ∧ status payload = Some "OK"
        ∧ truthy (next_page_token payload) = true.
Proof.
  apply (fetch_sleeps_after_cap "fontanero" (Some "Madrid") "clave" "es" 1
           "EUR" [Json page_1; Json page_2] [option_ruiz]
           [get first_request; Sleep 2]).
  - by vm_compute.
  - lia.
Defined.

Lemma fetch_keeps_requesting_witness :
  ∃ trace,
    fetch_service_options "fontanero" None "clave" "es" 20 "EUR"
      [Json page_1; Json page_1; Json page_1] = (Pending, trace)
    ∧ length (gets trace) = S (length [Json page_1; Json page_1; Json page_1]).
Proof.
  apply (fetch_keeps_requesting "fontanero" None "clave" "es" 20 "EUR"
           [Json page_1; Json page_1; Json page_1]).
  - repeat constructor; by exists page_1.
  - intros place Hplace. exists option_ruiz, (Float 4.5), (Int 120).
    vm_compute in Hplace.
    repeat (apply elem_of_cons in Hplace as [->|Hplace]; [by vm_compute|]).
    by apply elem_of_nil in Hplace.
  - vm_compute. done.
Defined.

Lemma fetch_stops_at_last_page_witness :
  Forall2 (made "fontanero" "EUR")
    (rated_places
       (take (length (gets [get first_request; Sleep 2; get second_request]))
          [Json page_1; Json page_2]))
    [option_ruiz; option_sol]
  ∧ ∃ payload,
      last (take (length (gets [get first_request; Sleep 2; get second_request]))
              [Json page_1; Json page_2]) = Some (Json payload)
      ∧ last_page payload.
Proof.
  apply (fetch_stops_at_last_page "fontanero" (Some "Madrid") "clave" "es" 20
           "EUR" [Json page_1; Json page_2] [option_ruiz; option_sol]
           [get first_request; Sleep 2; get second_request]).
  - by vm_compute.
  - by vm_compute.
Defined.

Lemma fetch_failure_witness :
  ∃ response,
    last (take (length (gets [get first_request; Sleep 2; get second_request]))
            [Json page_1; Json page_denied]) = Some response
    ∧ match response with
      | RequestException x =>
          RuntimeError "Error de la API de Google Places: The provided API key is invalid."
          = Requests x
      | Json payload =>
          status payload ≠ Some "ZERO_RESULTS"
          ∧ (if decide (status payload = Some "OK")
             then RuntimeError "Error de la API de Google Places: The provided API key is invalid."
                  = Builtin OverflowError
                  ∨ RuntimeError "Error de la API de Google Places: The provided API key is invalid."
                    = Builtin ValueError
             else ∃ detail,
                    RuntimeError "Error de la API de Google Places: The provided API key is invalid."
                    = RuntimeError ("Error de la API de Google Places: "
                                    +:+ detail)
                    ∧ detail ≠ ""
                    ∧ detail
                      = (if truthy (error_message payload)
                         then default "" (error_message payload)
                         else if truthy (status payload)
                              then default "" (status payload)
                              else "Error desconocido"))
      end.
Proof.
  apply (fetch_failure "fontanero" (Some "Madrid") "clave" "es" 20 "EUR"
           [Json page_1; Json page_denied]).
  by vm_compute.
Defined.

End places_examples.

(** * Properties of [appinion/cli.py] *)

Section cli_facts.
Context (str_upper : string → string).

(** ** [format_currency] *)

Lemma replace_char_absent (old new : ascii) (s : string) :
  old ≠ new → old ∉ list_ascii_of_string (replace_char old new s).
Proof.
  intros Hne. induction s as [|c rest IH]; simpl; [apply not_elem_of_nil|].
  apply not_elem_of_cons. split; [|done].
  destruct (Ascii.eqb_spec c old) as [->|Hc]; congruence.
Qed.

(** X18: the text of a price holds no comma: the separator of thousands is
    written as a point, like the decimal point, and so is a comma of the
    currency code. The currency counts through its upper-case form only. *)
Theorem format_currency_text (price : float) (currency : option string) :
  ("," %char ∉ list_ascii_of_string (format_currency str_upper price currency))
  ∧ ∀ currency',
      truthy currency = true → truthy currency' = true →
      str_upper (default "" currency) = str_upper (default "" currency') →
      format_currency str_upper price currency
      = format_currency str_upper price currency'.
Proof.
  split.
  - unfold format_currency.
    destruct (negb (truthy currency)); by apply replace_char_absent.
  - intros currency' T T' Hupper. unfold format_currency.
    by rewrite T, T', Hupper.
Qed.

(** ** [render_service_summary] *)




(** ** [render_ranking] *)

(** X21: the limit of [render_ranking]. A limit of zero limits nothing; a
    positive limit keeps that many options from the start; a negative limit
    drops that many from the end, and when it drops them all the heading
    is still written. *)
Theorem render_ranking_limit (options : list ServiceOption) :
  render_ranking str_upper options (Some 0%Z)
  = render_ranking str_upper options None
  ∧ (∀ limit, (0 < limit)%Z →
       render_ranking str_upper options (Some limit)
       = render_ranking str_upper (take (Z.to_nat limit) options) None)
  ∧ (∀ limit, (limit < 0)%Z → (- limit < Z.of_nat (length options))%Z →
       render_ranking str_upper options (Some limit)
       = render_ranking str_upper
           (take (length options - Z.to_nat (- limit)) options) None)
  ∧ (∀ limit, (limit < 0)%Z → (Z.of_nat (length options) ≤ - limit)%Z →
       options ≠ [] →
       render_ranking str_upper options (Some limit)
       = Ok (newline +:+ "Ranking detallado:")).
Proof.
  split; [by destruct options|]. split; [|split].
  - intros limit Hpos. destruct options as [|x rest]; [by rewrite take_nil|].
    unfold render_ranking, slice_until.
    destruct (Z.eqb_spec limit 0) as [?|_]; [lia|].
    destruct (Z.ltb_spec limit 0) as [?|_]; [lia|].
    destruct (Z.to_nat limit) as [|n] eqn:Hn; [lia|]. done.
  - intros limit Hneg Hlen. destruct options as [|x rest]; [simpl in Hlen; lia|].
    unfold render_ranking, slice_until.
    destruct (Z.eqb_spec limit 0) as [?|_]; [lia|].
    destruct (Z.ltb_spec limit 0) as [_|?]; [|lia].
    replace (Z.to_nat (Z.of_nat (length (x :: rest)) + limit))
      with (length (x :: rest) - Z.to_nat (- limit)) by lia.
    destruct (length (x :: rest) - Z.to_nat (- limit)) as [|n] eqn:Hn;
      [simpl in *; lia|]. done.
  - intros limit Hneg Hlen Hne. destruct options as [|x rest]; [done|].
    unfold render_ranking, slice_until.
    destruct (Z.eqb_spec limit 0) as [?|_]; [lia|].
    destruct (Z.ltb_spec limit 0) as [_|?]; [|lia].
    replace (Z.to_nat (Z.of_nat (length (x :: rest)) + limit)) with 0 by lia.
    done.
Qed.

Lemma ranking_lines_raises (options : list ServiceOption) index e :
  ranking_lines str_upper options index = Raise e → e = ValueError.
Proof.
  revert index. induction options as [|o rest IH]; intros index; [done|]. simpl.
  destruct (format_int index) eqn:F1; simpl;
    [|intros [= <-]; by apply (format_int_raises index)].
  destruct (format_int (review_count o)) eqn:F2; simpl;
    [|intros [= <-]; by apply (format_int_raises (review_count o))].
  destruct (ranking_lines str_upper rest (index + 1)) eqn:R; simpl; [done|].
  intros [= <-]. by apply (IH (index + 1)%Z).
Qed.

Lemma ranking_lines_returns (options : list ServiceOption) index :
  (∀ o, o ∈ options →
     (Z.abs (review_count o) < 10 ^ Z.of_nat int_max_str_digits)%Z) →
  (0 ≤ index)%Z →
  (index + Z.of_nat (length options) ≤ 10 ^ Z.of_nat int_max_str_digits)%Z →
  ∃ lines, ranking_lines str_upper options index = Ok lines.
Proof.
  revert index. induction options as [|o rest IH]; intros index Hsmall H0 Hlen;
    [by eexists|]. simpl in *.
  rewrite (format_int_small index) by lia. simpl.
  rewrite (format_int_small (review_count o)) by (apply Hsmall; left). simpl.
  destruct (IH (index + 1)%Z) as [lines ->]; [|lia|lia|by eexists].
  intros o' Ho'. apply Hsmall. by right.
Qed.

Lemma slice_until_elem {A} (options : list A) (stop : Z) x :
  x ∈ slice_until options stop → x ∈ options.
Proof. unfold slice_until. case_match; apply subseteq_take. Qed.

Lemma slice_until_length {A} (options : list A) (stop : Z) :
  length (slice_until options stop) ≤ length options.
Proof. unfold slice_until. case_match; rewrite length_take; lia. Qed.

Lemma ranking_lines_large (options : list ServiceOption) index o :
  o ∈ options →
  (10 ^ Z.of_nat int_max_str_digits ≤ Z.abs (review_count o))%Z →
  ranking_lines str_upper options index = Raise ValueError.
Proof.
  intros Ho Hlarge. revert index.
  induction options as [|o' rest IH]; intros index;
    [by apply elem_of_nil in Ho|]. simpl.
  destruct (format_int index) eqn:F1; simpl;
    [|by rewrite (format_int_raises index _ F1)].
  destruct (format_int (review_count o')) eqn:F2; simpl;
    [|by rewrite (format_int_raises (review_count o') _ F2)].
  apply elem_of_cons in Ho as [->|Ho].
  - rewrite (format_int_large _ Hlarge) in F2. discriminate F2.
  - by rewrite (IH Ho (index + 1)%Z).
Qed.

(** X22: the only exception of [render_ranking] is the [ValueError] of a
    number of more than 4300 digits; it returns a text when every review
    count is shorter than that (and so is the number of options), and
    without a limit it raises as soon as one review count is not. *)
Theorem render_ranking_raises (options : list ServiceOption) (limit : option Z) :
  (∀ e, render_ranking str_upper options limit = Raise e → e = ValueError)
  ∧ ((∀ o, o ∈ options →
        (Z.abs (review_count o) < 10 ^ Z.of_nat int_max_str_digits)%Z) →
     (Z.of_nat (length options) < 10 ^ Z.of_nat int_max_str_digits)%Z →
     ∃ text, render_ranking str_upper options limit = Ok text)
  ∧ (∀ o, o ∈ options →
       (10 ^ Z.of_nat int_max_str_digits ≤ Z.abs (review_count o))%Z →
       render_ranking str_upper options None = Raise ValueError).
Proof.
  cut ((∀ e, render_ranking str_upper options limit = Raise e → e = ValueError)
       ∧ ((∀ o, o ∈ options →
             (Z.abs (review_count o) < 10 ^ Z.of_nat int_max_str_digits)%Z) →
          (Z.of_nat (length options) < 10 ^ Z.of_nat int_max_str_digits)%Z →
          ∃ text, render_ranking str_upper options limit = Ok text)).
  { intros [Hraise Hreturn]. split; [done|]. split; [done|].
    intros o Ho Hlarge. destruct options as [|x rest];
      [by apply elem_of_nil in Ho|].
    unfold render_ranking. by rewrite (ranking_lines_large _ 1 o Ho Hlarge). }
  destruct options as [|x rest]; [split; [done|by eexists]|].
  unfold render_ranking.
  set (shown := match limit with
                | Some limit =>
                    if (limit =? 0)%Z then x :: rest
                    else slice_until (x :: rest) limit
                | None => x :: rest
                end).
  assert ((∀ o, o ∈ shown → o ∈ x :: rest)
          ∧ length shown ≤ length (x :: rest)) as [Helem Hlen].
  { unfold shown. destruct limit as [limit|]; [|done].
    destruct (limit =? 0)%Z; [done|].
    split; [intros o; apply slice_until_elem|apply slice_until_length]. }
  split.
  - intros e. destruct (ranking_lines str_upper shown 1) eqn:R; simpl; [done|].
    intros [= <-]. by apply (ranking_lines_raises shown 1).
  - intros Hsmall Hcount.
    destruct (ranking_lines_returns shown 1) as [lines ->];
      [intros o Ho; by apply Hsmall, Helem|lia|lia|]. simpl. by eexists.
Qed.

End cli_facts.

(** ** The options of the two pages, on the command line *)

Lemma format_currency_thousands :
  format_currency ascii_upper 1234.5 (Some "eur") = "1.234.50 €"
  ∧ format_currency ascii_upper 1234.5 (Some "gbp") = "1.234.50 GBP"
  ∧ format_currency ascii_upper 0.125 None = "0.12".
Proof. by vm_compute. Qed.


